(** * Identity reconciliation: the [POST /identify] handler

    A shallow embedding of [src/routes/identify.ts].  The contact table is a
    list of rows together with the next value of the identifier sequence; the
    handler runs in a small monad that threads the table, records the store
    calls it makes and lets any store call be rejected, as the [try]/[catch]
    of the handler expects. *)

From Stdlib Require Import List String Arith Lia Bool Permutation Sorted.
From Stdlib Require DecimalString DecimalNat.
Import ListNotations.
Local Open Scope string_scope.
Local Open Scope list_scope.
Local Open Scope nat_scope.


(** ** The data model *)

Inductive LinkPrecedence : Type := primary | secondary.

Definition LinkPrecedence_eqb (a b : LinkPrecedence) : bool :=
  match a, b with
  | primary, primary | secondary, secondary => true
  | _, _ => false
  end.

(** Modelled from the spec: the [Contact] model of the Prisma schema, which
    is not among the sources.  The fields are those of section 3 of the
    specification and those the handler reads and writes; timestamps are
    natural numbers. *)
Record Contact : Type := mkContact {
  id : nat;
  email : option string;
  phoneNumber : option string;
  linkedId : option nat;
  linkPrecedence : LinkPrecedence;
  createdAt : nat;
  deletedAt : option nat
}.

(** The table: its rows, and the next identifier the sequence hands out. *)
Record Store : Type := mkStore {
  rows : list Contact;
  nextId : nat
}.

Definition emptyStore : Store := mkStore [] 1.

(** The request body, [{ email?: string; phoneNumber?: string }]. *)
Record Request : Type := mkRequest {
  req_email : option string;
  req_phoneNumber : option string
}.

(** The JSON values the handler sends. *)
#[local] Unset Elimination Schemes.
Inductive Json : Type :=
| JNum (n : nat)
| JStr (s : string)
| JArr (items : list Json)
| JObj (fields : list (string * Json)).
#[local] Set Elimination Schemes.

Record Response : Type := mkResponse {
  status : nat;
  body : Json
}.

(** Lookup of a field of a JSON object. *)
Fixpoint assoc (k : string) (l : list (string * Json)) : option Json :=
  match l with
  | [] => None
  | (k', v) :: t => if String.eqb k k' then Some v else assoc k t
  end.

Definition field (k : string) (j : Json) : option Json :=
  match j with
  | JObj fs => assoc k fs
  | _ => None
  end.

(** ** JavaScript values *)

(** Truthiness of a [string | undefined | null]: the empty string is falsy. *)
Definition truthy (v : option string) : bool :=
  match v with
  | Some s => negb (String.eqb s "")
  | None => false
  end.

(** [v || null] *)
Definition orNull (v : option string) : option string :=
  if truthy v then v else None.

Definition opt_string_eqb (a b : option string) : bool :=
  match a, b with
  | Some x, Some y => String.eqb x y
  | None, None => true
  | _, _ => false
  end.

Definition opt_nat_eqb (a b : option nat) : bool :=
  match a, b with
  | Some x, Some y => Nat.eqb x y
  | None, None => true
  | _, _ => false
  end.

Definition isNull {A : Type} (v : option A) : bool :=
  match v with
  | None => true
  | Some _ => false
  end.

(** Membership in a list of identifiers ([{ in: [...] }], [Set.has]). *)
Definition memId (x : nat) (l : list nat) : bool := existsb (Nat.eqb x) l.

(** [Set.add]: insertion order is kept, a present element is not added. *)
Definition setAdd (x : nat) (l : list nat) : list nat :=
  if memId x l then l else l ++ [x].

(** [Array.includes] / [Set.has] on strings. *)
Definition includes (s : string) (l : list string) : bool :=
  existsb (String.eqb s) l.

(** [xs.map(f).filter(Boolean)] for a nullable string column. *)
Fixpoint truthyValues (l : list (option string)) : list string :=
  match l with
  | [] => []
  | Some s :: t => if String.eqb s "" then truthyValues t else s :: truthyValues t
  | None :: t => truthyValues t
  end.

(** ** Where clauses and updates *)

(** An entry of the [conditions] array: [{ email }] or [{ phoneNumber }]. *)
Inductive Condition : Type :=
| CondEmail (e : string)
| CondPhone (p : string).

Definition holds (k : Condition) (c : Contact) : bool :=
  match k with
  | CondEmail e => opt_string_eqb (email c) (Some e)
  | CondPhone p => opt_string_eqb (phoneNumber c) (Some p)
  end.

(** [if (email) conditions.push({ email });
     if (phoneNumber) conditions.push({ phoneNumber });] *)
Definition conditionsOf (reqEmail reqPhone : option string) : list Condition :=
  (match reqEmail with
   | Some e => if truthy reqEmail then [CondEmail e] else []
   | None => []
   end) ++
  (match reqPhone with
   | Some p => if truthy reqPhone then [CondPhone p] else []
   | None => []
   end).

(** [where: { OR: conditions, deletedAt: null }] *)
Definition matchWhere (conditions : list Condition) (c : Contact) : bool :=
  existsb (fun k => holds k c) conditions && isNull (deletedAt c).

(** [where: { id: { in: ids } }] *)
Definition idIn (ids : list nat) (c : Contact) : bool := memId (id c) ids.

(** [where: { linkedId: { in: ids } }] *)
Definition linkedIdIn (ids : list nat) (c : Contact) : bool :=
  match linkedId c with
  | Some l => memId l ids
  | None => false
  end.

(** [where: { OR: [{ id: root }, { linkedId: root }], deletedAt: null }] *)
Definition clusterWhere (root : nat) (c : Contact) : bool :=
  (Nat.eqb (id c) root || opt_nat_eqb (linkedId c) (Some root))
  && isNull (deletedAt c).

(** [data: { linkedId: rootPrimaryId, linkPrecedence: "secondary" }] *)
Definition demote (root : nat) (c : Contact) : Contact :=
  mkContact (id c) (email c) (phoneNumber c) (Some root) secondary
            (createdAt c) (deletedAt c).

(** [data: { linkedId: rootPrimaryId }] *)
Definition relink (root : nat) (c : Contact) : Contact :=
  mkContact (id c) (email c) (phoneNumber c) (Some root) (linkPrecedence c)
            (createdAt c) (deletedAt c).

Definition updateWhere (w : Contact -> bool) (f : Contact -> Contact)
           (l : list Contact) : list Contact :=
  map (fun c => if w c then f c else c) l.

(** Modelled from the spec: the defaults of the schema for a created row.
    The identifier comes from the sequence ("unique, monotonically assigned"),
    the creation time from the clock, and the row is not deleted. *)
Definition newRow (s : Store) (now : nat) (e p : option string)
           (l : option nat) (lp : LinkPrecedence) : Contact :=
  mkContact (nextId s) e p l lp now None.

Definition insert (s : Store) (c : Contact) : Store :=
  mkStore (rows s ++ [c]) (S (nextId s)).

(** ** The resolver's loop

    [for (const contact of matchingContacts)
       if (contact.linkPrecedence === "primary") primaryIds.add(contact.id);
       else if (contact.linkedId !== null) primaryIds.add(contact.linkedId);] *)
Definition addRoot (acc : list nat) (c : Contact) : list nat :=
  match linkPrecedence c with
  | primary => setAdd (id c) acc
  | secondary =>
      match linkedId c with
      | Some l => setAdd l acc
      | None => acc
      end
  end.

Definition collectPrimaryIds (matchingContacts : list Contact) : list nat :=
  fold_left addRoot matchingContacts [].

(** ** The composer *)

(** One turn of the loop over the cluster, on the triple
    [(emails, phoneNumbers, secondaryContactIds)]. *)
Definition pushIfNew (v : option string) (l : list string) : list string :=
  match v with
  | Some s => if truthy v && negb (includes s l) then l ++ [s] else l
  | None => l
  end.

Definition composeStep (root : nat)
           (acc : list string * list string * list nat) (c : Contact)
  : list string * list string * list nat :=
  let '(emails, phoneNumbers, secondaryContactIds) := acc in
  if Nat.eqb (id c) root then acc
  else (pushIfNew (email c) emails,
        pushIfNew (phoneNumber c) phoneNumbers,
        secondaryContactIds ++ [id c]).

Definition composeLists (root : nat) (prim : Contact) (cluster : list Contact)
  : list string * list string * list nat :=
  fold_left (composeStep root) cluster
            (pushIfNew (email prim) [], pushIfNew (phoneNumber prim) [], []).

Definition contactJson (root : nat) (emails phoneNumbers : list string)
           (secondaryContactIds : list nat) : Json :=
  JObj [("contact",
         JObj [("primaryContatctId", JNum root);
               ("emails", JArr (map JStr emails));
               ("phoneNumbers", JArr (map JStr phoneNumbers));
               ("secondaryContactIds", JArr (map JNum secondaryContactIds))])].

Definition errorJson (msg : string) : Json := JObj [("error", JStr msg)].

(** [res.status(400).json({ error: ... })] of the input guard. *)
Definition badRequest : Response :=
  mkResponse 400 (errorJson "At least one of email or phoneNumber is required.").

(** [res.status(500).json({ error: "Internal server error" })] of [catch]. *)
Definition serverError : Response :=
  mkResponse 500 (errorJson "Internal server error").

(** ** The handler's monad *)

Inductive Error : Type :=
| StorageError   (* a store call was rejected *)
| TypeError.     (* a property of [undefined] was read *)

Inductive Outcome (A : Type) : Type :=
| Threw (e : Error)
| Returned (a : A).
Arguments Threw {A} e.
Arguments Returned {A} a.

Inductive DbCall : Type := FindMany | Create | UpdateMany.

(** What a run has done so far: the table and the store calls issued. *)
Record World : Type := mkWorld {
  store : Store;
  calls : list DbCall
}.

(** [faults k] says that the [k]-th store call of the run is rejected. *)
Definition Faults : Type := nat -> bool.
Definition noFaults : Faults := fun _ => false.
Definition failAt (n : nat) : Faults := fun k => Nat.eqb k n.

Definition M (A : Type) : Type := Faults -> World -> World * Outcome A.

Definition ret {A : Type} (a : A) : M A := fun _ w => (w, Returned a).

Definition throw {A : Type} (e : Error) : M A := fun _ w => (w, Threw e).

Definition bind {A B : Type} (m : M A) (k : A -> M B) : M B :=
  fun fl w =>
    match m fl w with
    | (w', Returned a) => k a fl w'
    | (w', Threw e) => (w', Threw e)
    end.

Notation "x <- m ;; k" := (bind m (fun x => k))
  (at level 61, m at next level, right associativity).
Notation "m ;;; k" := (bind m (fun _ => k))
  (at level 61, right associativity).

(** A store call: rejected when the fault schedule says so, and then it has
    no effect; otherwise it acts on the table. *)
Definition dbCall {A : Type} (k : DbCall) (f : Store -> Store * A) : M A :=
  fun fl w =>
    if fl (List.length (calls w)) then
      (mkWorld (store w) (calls w ++ [k]), Threw StorageError)
    else
      let '(s', a) := f (store w) in
      (mkWorld s' (calls w ++ [k]), Returned a).

(** [try { m } catch (error) { h }] *)
Definition tryCatch {A : Type} (m : M A) (h : Error -> M A) : M A :=
  fun fl w =>
    match m fl w with
    | (w', Returned a) => (w', Returned a)
    | (w', Threw e) => h e fl w'
    end.

(** [prisma.$transaction(async (tx) => { m })]: when the body throws, the
    table is rolled back to what it was and the error is thrown on.  The
    opening and the commit of the transaction are not calls of their own in
    the log: rejected, they leave the table as the transaction found it and
    throw, as a rejected first statement of the body does. *)
Definition transaction {A : Type} (m : M A) : M A :=
  fun fl w =>
    match m fl w with
    | (w', Returned a) => (w', Returned a)
    | (w', Threw e) => (mkWorld (store w) (calls w'), Threw e)
    end.

(** Statements that follow one another without a transaction. *)
Definition plain {A : Type} (m : M A) : M A := m.

Section Handler.

(** [orderBy: { createdAt: "asc" }] as the store implements it: the query
    fixes the order of rows by creation time only. *)
Variable orderBy : list Contact -> list Contact.

Definition findMany (w : Contact -> bool) : M (list Contact) :=
  dbCall FindMany (fun s => (s, orderBy (filter w (rows s)))).

Definition create (now : nat) (e p : option string) (l : option nat)
           (lp : LinkPrecedence) : M Contact :=
  dbCall Create (fun s => let c := newRow s now e p l lp in (insert s c, c)).

Definition updateMany (w : Contact -> bool) (f : Contact -> Contact) : M unit :=
  dbCall UpdateMany
         (fun s => (mkStore (updateWhere w f (rows s)) (nextId s), tt)).

(** The merger's two writes. *)
Definition mergeWrites (rootPrimaryId : nat) (otherPrimaryIds : list nat)
  : M unit :=
  updateMany (idIn otherPrimaryIds) (demote rootPrimaryId) ;;;
  updateMany (linkedIdIn otherPrimaryIds) (relink rootPrimaryId).

(** Scenario 1: no root at all, a new primary is created. *)
Definition createPrimary (now : nat) (reqEmail reqPhone : option string)
  : M Response :=
  newPrimary <- create now (orNull reqEmail) (orNull reqPhone) None primary ;;
  ret (mkResponse 200
         (contactJson (id newPrimary)
            (truthyValues [email newPrimary])
            (truthyValues [phoneNumber newPrimary])
            [])).

(** The root of the request: the single root, or the survivor of a merge.
    [atomically] is how the two writes of the merger are issued. *)
Definition resolveRoot (atomically : M unit -> M unit) (primaryIds : list nat)
  : M nat :=
  if 1 <? List.length primaryIds then
    primaries <- findMany (idIn primaryIds) ;;
    match primaries with
    | [] => throw TypeError
    | oldestPrimary :: others =>
        let rootPrimaryId := id oldestPrimary in
        let otherPrimaryIds := map id others in
        atomically (mergeWrites rootPrimaryId otherPrimaryIds) ;;;
        ret rootPrimaryId
    end
  else ret (hd 0 primaryIds).

Definition isNew (v : option string) (existing : list string) : bool :=
  match v with
  | Some s => truthy v && negb (includes s existing)
  | None => false
  end.

(** Step 3 and scenario 2: fetch the cluster and extend it when the request
    carries something new.  The result is the [cluster] array. *)
Definition extend (now : nat) (reqEmail reqPhone : option string)
           (rootPrimaryId : nat) : M (list Contact) :=
  cluster <- findMany (clusterWhere rootPrimaryId) ;;
  let existingEmails := truthyValues (map email cluster) in
  let existingPhones := truthyValues (map phoneNumber cluster) in
  let isEmailNew := isNew reqEmail existingEmails in
  let isPhoneNew := isNew reqPhone existingPhones in
  if isEmailNew || isPhoneNew then
    newSecondary <- create now (orNull reqEmail) (orNull reqPhone)
                      (Some rootPrimaryId) secondary ;;
    ret (cluster ++ [newSecondary])
  else ret cluster.

(** The consolidated response. *)
Definition compose (rootPrimaryId : nat) (cluster : list Contact) : M Response :=
  match find (fun c => Nat.eqb (id c) rootPrimaryId) cluster with
  | None => throw TypeError
  | Some prim =>
      let '(emails, phoneNumbers, secondaryContactIds) :=
        composeLists rootPrimaryId prim cluster in
      ret (mkResponse 200
             (contactJson rootPrimaryId emails phoneNumbers secondaryContactIds))
  end.

(** The body of the handler after the input guard. *)
Definition reconcile (atomically : M unit -> M unit) (now : nat)
           (reqEmail reqPhone : option string) : M Response :=
  matchingContacts <- findMany (matchWhere (conditionsOf reqEmail reqPhone)) ;;
  let primaryIds := collectPrimaryIds matchingContacts in
  if List.length primaryIds =? 0 then createPrimary now reqEmail reqPhone
  else
    rootPrimaryId <- resolveRoot atomically primaryIds ;;
    cluster <- extend now reqEmail reqPhone rootPrimaryId ;;
    compose rootPrimaryId cluster.

(** [router.post("/", ...)] of [routes/identify.ts]. *)
Definition identify (now : nat) (req : Request) : M Response :=
  tryCatch
    (if negb (truthy (req_email req)) && negb (truthy (req_phoneNumber req))
     then ret badRequest
     else reconcile plain now (req_email req) (req_phoneNumber req))
    (fun _ => ret serverError).

(** The handler of the revision that wraps the merger's writes in
    [prisma.$transaction], from the point where [identifySchema.parse] has
    accepted the body; an error is handed to [next]. *)
Definition identifyTx (now : nat) (reqEmail reqPhone : option string)
  : M Response :=
  reconcile transaction now reqEmail reqPhone.

(** A run of the handler on a table. *)
Definition run {A : Type} (m : M A) (fl : Faults) (s : Store)
  : World * Outcome A :=
  m fl (mkWorld s []).

Definition handle (fl : Faults) (now : nat) (req : Request) (s : Store)
  : World * Outcome Response :=
  run (identify now req) fl s.

End Handler.

(** ** Two implementations of the ordering *)

Section Sorting.

(** [before a b]: row [a] may stand before row [b]. *)
Variable before : Contact -> Contact -> bool.

Fixpoint insertBy (c : Contact) (l : list Contact) : list Contact :=
  match l with
  | [] => [c]
  | h :: t => if before c h then c :: h :: t else h :: insertBy c t
  end.

Definition sortBy (l : list Contact) : list Contact :=
  fold_right insertBy [] l.

End Sorting.

(** Rows with equal creation times stay in table order. *)
Definition byCreatedAt (a b : Contact) : bool := createdAt a <=? createdAt b.

(** Rows with equal creation times come with the larger identifier first. *)
Definition byCreatedAtThenIdDesc (a b : Contact) : bool :=
  (createdAt a <? createdAt b)
  || ((createdAt a =? createdAt b) && (id b <=? id a)).

Definition sortByCreatedAt : list Contact -> list Contact := sortBy byCreatedAt.

Definition sortByCreatedAtIdDesc : list Contact -> list Contact :=
  sortBy byCreatedAtThenIdDesc.

(** ** What a run without faults leaves in the table *)

Section Summary.

Variable orderBy : list Contact -> list Contact.

(** The rows step 1 finds. *)
Definition matching (s : Store) (reqEmail reqPhone : option string)
  : list Contact :=
  orderBy (filter (matchWhere (conditionsOf reqEmail reqPhone)) (rows s)).

(** The resolver's set of roots. *)
Definition rootsOf (s : Store) (reqEmail reqPhone : option string) : list nat :=
  collectPrimaryIds (matching s reqEmail reqPhone).

(** The rows the merger orders to pick the survivor. *)
Definition primariesOf (s : Store) (primaryIds : list nat) : list Contact :=
  orderBy (filter (idIn primaryIds) (rows s)).

(** The table after the merger's two writes. *)
Definition mergeStore (root : nat) (others : list nat) (s : Store) : Store :=
  mkStore (updateWhere (linkedIdIn others) (relink root)
             (updateWhere (idIn others) (demote root) (rows s)))
          (nextId s).

(** The table after the first write only. *)
Definition demoteStore (root : nat) (others : list nat) (s : Store) : Store :=
  mkStore (updateWhere (idIn others) (demote root) (rows s)) (nextId s).

(** The cluster step 3 fetches. *)
Definition clusterOf (s : Store) (root : nat) : list Contact :=
  orderBy (filter (clusterWhere root) (rows s)).

(** Whether the extender creates a row. *)
Definition extends (s : Store) (reqEmail reqPhone : option string)
           (root : nat) : bool :=
  isNew reqEmail (truthyValues (map email (clusterOf s root)))
  || isNew reqPhone (truthyValues (map phoneNumber (clusterOf s root))).

Definition newSecondaryRow (s : Store) (now : nat)
           (reqEmail reqPhone : option string) (root : nat) : Contact :=
  newRow s now (orNull reqEmail) (orNull reqPhone) (Some root) secondary.

Definition extendStore (now : nat) (reqEmail reqPhone : option string)
           (root : nat) (s : Store) : Store :=
  if extends s reqEmail reqPhone root
  then insert s (newSecondaryRow s now reqEmail reqPhone root)
  else s.

(** The [cluster] array the composer reads. *)
Definition extendedCluster (now : nat) (reqEmail reqPhone : option string)
           (root : nat) (s : Store) : list Contact :=
  if extends s reqEmail reqPhone root
  then clusterOf s root ++ [newSecondaryRow s now reqEmail reqPhone root]
  else clusterOf s root.

Definition rejected (req : Request) : bool :=
  negb (truthy (req_email req)) && negb (truthy (req_phoneNumber req)).

(** The table once the root of the request is known, with that root;
    [None] when the handler stops before. *)
Definition resolved (s : Store) (reqEmail reqPhone : option string)
  : option (Store * nat) :=
  match rootsOf s reqEmail reqPhone with
  | [] => None
  | [r] => Some (s, r)
  | ids =>
      match primariesOf s ids with
      | [] => None
      | oldest :: others =>
          Some (mergeStore (id oldest) (map id others) s, id oldest)
      end
  end.

(** The table a run of [identify] without faults leaves. *)
Definition afterRequest (now : nat) (req : Request) (s : Store) : Store :=
  if rejected req then s
  else
    match rootsOf s (req_email req) (req_phoneNumber req) with
    | [] => insert s (newRow s now (orNull (req_email req))
                        (orNull (req_phoneNumber req)) None primary)
    | _ =>
        match resolved s (req_email req) (req_phoneNumber req) with
        | None => s
        | Some (s', root) =>
            extendStore now (req_email req) (req_phoneNumber req) root s'
        end
    end.

(** What the composer makes of a root and a cluster. *)
Definition composeOutcome (root : nat) (cluster : list Contact)
  : Outcome Response :=
  match find (fun c => Nat.eqb (id c) root) cluster with
  | None => Threw TypeError
  | Some prim =>
      let '(emails, phoneNumbers, secondaryContactIds) :=
        composeLists root prim cluster in
      Returned (mkResponse 200
                  (contactJson root emails phoneNumbers secondaryContactIds))
  end.

(** The response of a run of [identify] without faults. *)
Definition responseOf (now : nat) (req : Request) (s : Store) : Response :=
  if rejected req then badRequest
  else
    match rootsOf s (req_email req) (req_phoneNumber req) with
    | [] =>
        mkResponse 200
          (contactJson (nextId s)
             (truthyValues [orNull (req_email req)])
             (truthyValues [orNull (req_phoneNumber req)]) [])
    | _ =>
        match resolved s (req_email req) (req_phoneNumber req) with
        | None => serverError
        | Some (s', root) =>
            match composeOutcome root
                    (extendedCluster now (req_email req) (req_phoneNumber req)
                       root s') with
            | Threw _ => serverError
            | Returned r => r
            end
        end
    end.


(** Tables reachable from [s0] by requests, whatever store calls are
    rejected on the way. *)
Inductive reachable (s0 : Store) : Store -> Prop :=
| reach_start : reachable s0 s0
| reach_request : forall s fl now req,
    reachable s0 s ->
    reachable s0 (store (fst (handle orderBy fl now req s))).

(** Tables reachable from [s0] by requests that meet no store fault. *)
Inductive reachableUnfaulted (s0 : Store) : Store -> Prop :=
| unfaulted_start : reachableUnfaulted s0 s0
| unfaulted_request : forall s now req,
    reachableUnfaulted s0 s ->
    reachableUnfaulted s0 (store (fst (handle orderBy noFaults now req s))).

End Summary.

(** The ordering contract: a rearrangement of the rows in which creation
    times never decrease. *)
Definition createdAtAsc (orderBy : list Contact -> list Contact) : Prop :=
  (forall l, Permutation (orderBy l) l) /\
  (forall l, StronglySorted (fun a b => createdAt a <= createdAt b) (orderBy l)).

(** ** Invariants of the table *)

Definition isPrimary (c : Contact) : bool :=
  LinkPrecedence_eqb (linkPrecedence c) primary.

(** The root a contact resolves to: its own identifier for a primary, its
    [linkedId] for a secondary. *)
Definition rootOf (c : Contact) : option nat :=
  match linkPrecedence c with
  | primary => Some (id c)
  | secondary => linkedId c
  end.

(** Identifiers are unique and below the next value of the sequence. *)
Definition wellKeyed (s : Store) : Prop :=
  NoDup (map id (rows s)) /\ forall c, In c (rows s) -> id c < nextId s.

(** Every non-deleted contact with a [linkedId] points to a primary. *)
Definition linkedToPrimary (l : list Contact) : Prop :=
  forall c p, In c l -> deletedAt c = None -> linkedId c = Some p ->
              exists r, In r l /\ id r = p /\ linkPrecedence r = primary.

(** The hierarchy of the data model: a primary has no [linkedId]; a
    secondary has one, it is the identifier of a primary, and that primary
    is not deleted when the secondary is not. *)
Definition hierarchy (l : list Contact) : Prop :=
  forall c, In c l ->
    match linkPrecedence c with
    | primary => linkedId c = None
    | secondary =>
        exists r, In r l /\ linkedId c = Some (id r) /\
                  linkPrecedence r = primary /\
                  (deletedAt c = None -> deletedAt r = None)
    end.

(** Two contacts hold the same non-empty email or the same non-empty phone
    number. *)
Definition sharesKey (a b : Contact) : Prop :=
  (truthy (email a) = true /\ email a = email b) \/
  (truthy (phoneNumber a) = true /\ phoneNumber a = phoneNumber b).

(** Non-deleted contacts that share a key have the same root. *)
Definition keysAgree (l : list Contact) : Prop :=
  forall a b, In a l -> In b l -> deletedAt a = None -> deletedAt b = None ->
              sharesKey a b -> rootOf a = rootOf b.

(** The invariants of the data model. *)
Definition dataModel (s : Store) : Prop :=
  wellKeyed s /\ hierarchy (rows s).

(** The data model, with every key held by one cluster only. *)
Definition consistent (s : Store) : Prop :=
  dataModel s /\ keysAgree (rows s).

(** The members of the cluster of [root], in table order. *)
Definition members (l : list Contact) (root : nat) : list Contact :=
  filter (clusterWhere root) l.

(** The cluster of [r] has exactly one primary, the contact [r] itself, and
    every other member is a secondary linked to it. *)
Definition clusterShape (l : list Contact) (r : nat) : Prop :=
  exists p, filter isPrimary (members l r) = [p] /\ id p = r /\
            forall m, In m (members l r) ->
                      m = p \/ (linkPrecedence m = secondary /\
                                linkedId m = Some r).

(** Every non-deleted contact lies in the cluster of its root, and that
    cluster has the shape above. *)
Definition onePrimaryPerCluster (l : list Contact) : Prop :=
  forall c, In c l -> deletedAt c = None ->
            exists r, rootOf c = Some r /\ In c (members l r) /\
                      clusterShape l r.

(** What the merger's two writes make of one row. *)
Definition mergeRow (root : nat) (others : list nat) (c : Contact) : Contact :=
  let c1 := if idIn others c then demote root c else c in
  if linkedIdIn others c1 then relink root c1 else c1.

(** The root of a row after a merge, from its root before. *)
Definition mergedRoot (root : nat) (others : list nat) (x : nat) : nat :=
  if memId x others then root else x.

(** A field of the [contact] object of a response. *)
Definition contactField (k : string) (r : Response) : option Json :=
  match field "contact" (body r) with
  | Some c => field k c
  | None => None
  end.

(** ** De-duplication in first-seen order, as the specification words it

    [dedupeFrom seen l] keeps the elements of [l] that are neither in [seen]
    nor earlier in [l], in the order of [l]. *)
Fixpoint dedupeFrom (seen : list string) (l : list string) : list string :=
  match l with
  | [] => []
  | x :: t =>
      if includes x seen then dedupeFrom seen t
      else x :: dedupeFrom (seen ++ [x]) t
  end.

Definition dedupe (l : list string) : list string := dedupeFrom [] l.

(** The members of the cluster other than the root. *)
Definition notRoot (root : nat) (c : Contact) : bool :=
  negb (Nat.eqb (id c) root).

(** An incoming value is new to a cluster: it is supplied, not empty, and
    no member holds it. *)
Definition absentFrom (v : option string) (known : list (option string)) : Prop :=
  exists x, v = Some x /\ x <> "" /\ ~ In (Some x) known.

(** ** Example tables *)

(** Two clusters: the primary 1, and the primary 2 with its secondary 3. *)
Definition primaryA : Contact :=
  mkContact 1 (Some "a@x.com") (Some "111") None primary 10 None.

Definition primaryB : Contact :=
  mkContact 2 (Some "b@x.com") (Some "222") None primary 12 None.

Definition secondaryOfB : Contact :=
  mkContact 3 (Some "c@x.com") (Some "222") (Some 2) secondary 13 None.

Definition twoClusters : Store := mkStore [primaryA; primaryB; secondaryOfB] 4.



(** A request that bridges the two clusters. *)
Definition bridgeRequest : Request := mkRequest (Some "a@x.com") (Some "222").

(** Two primaries created at the same time. *)
Definition tieStore : Store :=
  mkStore [mkContact 1 (Some "a@x.com") None None primary 5 None;
           mkContact 2 None (Some "222") None primary 5 None] 3.

(** Three primaries that hold the same email. *)
Definition sharedEmailStore : Store :=
  mkStore [mkContact 1 (Some "a@x.com") (Some "111") None primary 1 None;
           mkContact 2 (Some "a@x.com") (Some "222") None primary 2 None;
           mkContact 3 (Some "c@x.com") (Some "333") None primary 3 None] 4.

(** Case analysis on the membership of a row in an example table. *)
Ltac rows_cases H :=
  cbn in H;
  repeat match type of H with
         | _ \/ _ => destruct H as [H | H]
         | False => destruct H
         end; subst.

(** ** What a run keeps of the table, whatever fails *)

(** Two rows that differ at most in [linkedId] and [linkPrecedence]. *)
Definition sameCore (a b : Contact) : Prop :=
  id a = id b /\ email a = email b /\ phoneNumber a = phoneNumber b /\
  createdAt a = createdAt b /\ deletedAt a = deletedAt b.

(** [s'] has the rows of [s], in place and up to their links, followed by at
    most [n] rows that took the next identifiers of the sequence. *)
Definition grows (n : nat) (s s' : Store) : Prop :=
  exists kept added,
    rows s' = kept ++ added /\ Forall2 sameCore (rows s) kept /\
    List.length added <= n /\
    map id added = seq (nextId s) (List.length added) /\
    nextId s' = nextId s + List.length added.

(** [s'] has the rows of [s], untouched, followed by at most [n] rows. *)
Definition appends (n : nat) (s s' : Store) : Prop :=
  exists added, rows s' = rows s ++ added /\ List.length added <= n.

(** Every run of [m] relates the table it starts from to the table it
    leaves by [R n], whatever the faults and the outcome. *)
Definition keeps {A : Type} (R : nat -> Store -> Store -> Prop) (n : nat)
           (m : M A) : Prop :=
  forall fl w w' o, m fl w = (w', o) -> R n (store w) (store w').

(** No store call issued so far was rejected. *)
Definition clean (fl : Faults) (w : World) : Prop :=
  forall k, k < List.length (calls w) -> fl k = false.

(** No store call but possibly the last one was rejected. *)
Definition nearlyClean (fl : Faults) (w : World) : Prop :=
  forall k, S k < List.length (calls w) -> fl k = false.

(** A run of [m] that returns has had none of its store calls rejected, and
    a run that throws has issued no call after a rejected one. *)
Definition careful {A : Type} (m : M A) : Prop :=
  forall fl w w' o,
    m fl w = (w', o) -> clean fl w ->
    match o with
    | Returned _ => clean fl w'
    | Threw _ => nearlyClean fl w'
    end.

(** ** A soft-deleted primary with a secondary that is not deleted

    Contact 1 is soft-deleted, its secondary 2 is not; contact 3 is a
    primary of its own. *)
Definition orphanedStore : Store :=
  mkStore [mkContact 1 (Some "a@x.com") (Some "111") None primary 10 (Some 15);
           mkContact 2 (Some "b@x.com") (Some "111") (Some 1) secondary 11 None;
           mkContact 3 (Some "c@x.com") (Some "333") None primary 12 None] 4.

(** ** The error-handling middleware

    [errorHandler] of the middleware module: what it answers to an error a
    route hands to [next].  [console.error] is left out. *)

(** A step of the path of a validation issue: a key of an object or an
    index into an array. *)
Inductive PathStep : Type :=
| Key (k : string)
| Index (i : nat).

Record ZodIssue : Type := mkZodIssue {
  path : list PathStep;
  message : string
}.

(** What the middleware is handed: a [ZodError] with its issues, or any
    other error. *)
Inductive Thrown : Type :=
| ZodError (issues : list ZodIssue)
| Other (e : Error).

(** The text [Array.prototype.join] makes of a step: a key as it is, an
    index in decimal. *)
Definition stepText (s : PathStep) : string :=
  match s with
  | Key k => k
  | Index i => DecimalString.NilEmpty.string_of_uint (Nat.to_uint i)
  end.

(** [issue.path.join(".")] *)
Definition joinPath (p : list PathStep) : string :=
  String.concat "." (map stepText p).

(** [issue.path.join(".") || "(root)"] *)
Definition pathLabel (p : list PathStep) : string :=
  if String.eqb (joinPath p) "" then "(root)" else joinPath p.

Definition issueJson (issue : ZodIssue) : Json :=
  JObj [("path", JStr (pathLabel (path issue)));
        ("message", JStr (message issue))].

Definition errorHandler (err : Thrown) : Response :=
  match err with
  | ZodError issues =>
      mkResponse 400
        (JObj [("error", JStr "Validation failed");
               ("details", JArr (map issueJson issues))])
  | Other _ => mkResponse 500 (errorJson "Internal server error")
  end.

(** * Proofs *)
(** ** Lists of identifiers *)

Lemma memId_In : forall x l, memId x l = true <-> In x l.
Proof.
  intros x l. unfold memId. rewrite existsb_exists. split.
  - intros [y [Hy E]]. apply Nat.eqb_eq in E. now subst.
  - intros H. exists x. split; [assumption | apply Nat.eqb_refl].
Qed.

Lemma memId_false : forall x l, memId x l = false <-> ~ In x l.
Proof.
  intros x l. rewrite <- memId_In. destruct (memId x l); split; congruence.
Qed.

Lemma setAdd_In : forall x y l, In y (setAdd x l) <-> y = x \/ In y l.
Proof.
  intros x y l. unfold setAdd. destruct (memId x l) eqn:E.
  - apply memId_In in E. split; [auto | intros [-> | H]; assumption].
  - rewrite in_app_iff. cbn. intuition.
Qed.

Lemma setAdd_NoDup : forall x l, NoDup l -> NoDup (setAdd x l).
Proof.
  intros x l H. unfold setAdd. destruct (memId x l) eqn:E; [assumption|].
  apply memId_false in E.
  apply NoDup_app; [assumption | repeat constructor; intros [] | ].
  intros y Hy [<- | []]. contradiction.
Qed.

Lemma addRoot_rootOf : forall acc c,
    addRoot acc c = match rootOf c with Some r => setAdd r acc | None => acc end.
Proof.
  intros acc c. unfold addRoot, rootOf. destruct (linkPrecedence c); reflexivity.
Qed.

Lemma fold_addRoot_In : forall l acc r,
    In r (fold_left addRoot l acc) <->
    In r acc \/ exists c, In c l /\ rootOf c = Some r.
Proof.
  induction l as [|c l IH]; intros acc r; cbn.
  - split; [auto | intros [H | [c [[] _]]]; assumption].
  - rewrite IH, addRoot_rootOf. split.
    + intros [H | [d [Hd E]]].
      * destruct (rootOf c) as [r'|] eqn:Ec; [|auto].
        apply setAdd_In in H. destruct H as [-> | H]; [right; exists c | ]; auto.
      * right. exists d. auto.
    + intros [H | [d [[<- | Hd] E]]].
      * left. destruct (rootOf c); [apply setAdd_In|]; auto.
      * left. rewrite E. apply setAdd_In. auto.
      * right. exists d. auto.
Qed.

Lemma fold_addRoot_NoDup : forall l acc,
    NoDup acc -> NoDup (fold_left addRoot l acc).
Proof.
  induction l as [|c l IH]; intros acc H; cbn; [assumption|].
  apply IH. rewrite addRoot_rootOf.
  destruct (rootOf c); [apply setAdd_NoDup|]; assumption.
Qed.

Lemma collectPrimaryIds_In : forall l r,
    In r (collectPrimaryIds l) <-> exists c, In c l /\ rootOf c = Some r.
Proof.
  intros l r. unfold collectPrimaryIds. rewrite fold_addRoot_In. cbn. tauto.
Qed.

Lemma collectPrimaryIds_NoDup : forall l, NoDup (collectPrimaryIds l).
Proof. intros l. apply fold_addRoot_NoDup. constructor. Qed.

(** ** Where clauses *)

Lemma opt_string_eqb_eq : forall a b, opt_string_eqb a b = true <-> a = b.
Proof.
  intros [x|] [y|]; cbn; try (split; congruence).
  rewrite String.eqb_eq. split; congruence.
Qed.

Lemma opt_nat_eqb_eq : forall a b, opt_nat_eqb a b = true <-> a = b.
Proof.
  intros [x|] [y|]; cbn; try (split; congruence).
  rewrite Nat.eqb_eq. split; congruence.
Qed.

Lemma isNull_true : forall A (v : option A), isNull v = true <-> v = None.
Proof. intros A [a|]; cbn; split; congruence. Qed.

Lemma truthy_Some : forall v, truthy v = true -> exists s, v = Some s /\ s <> "".
Proof.
  intros [s|]; cbn; [|discriminate]. intros H. exists s. split; [reflexivity|].
  intros ->. discriminate.
Qed.

Lemma orNull_truthy : forall v, truthy v = true -> orNull v = v.
Proof. intros v H. unfold orNull. now rewrite H. Qed.

Lemma orNull_falsy : forall v, truthy v = false -> orNull v = None.
Proof. intros v H. unfold orNull. now rewrite H. Qed.

Lemma truthy_orNull : forall v, truthy (orNull v) = truthy v.
Proof.
  intros v. unfold orNull. destruct (truthy v) eqn:E; [assumption | reflexivity].
Qed.

(** A row matches the request when it is not deleted and holds the request's
    non-empty email or its non-empty phone number. *)
Lemma matchWhere_spec : forall e p c,
    matchWhere (conditionsOf e p) c = true <->
    deletedAt c = None /\
    ((truthy e = true /\ email c = e) \/ (truthy p = true /\ phoneNumber c = p)).
Proof.
  intros e p c. unfold matchWhere.
  rewrite andb_true_iff, isNull_true, existsb_exists. unfold conditionsOf.
  split.
  - intros [[k [Hk Hh]] Hd]. split; [assumption|].
    apply in_app_or in Hk. destruct Hk as [Hk | Hk].
    + destruct e as [e|]; [|destruct Hk].
      destruct (truthy (Some e)) eqn:T; [|destruct Hk].
      destruct Hk as [<- | []]. left. split; [reflexivity|].
      now apply opt_string_eqb_eq.
    + destruct p as [p|]; [|destruct Hk].
      destruct (truthy (Some p)) eqn:T; [|destruct Hk].
      destruct Hk as [<- | []]. right. split; [reflexivity|].
      now apply opt_string_eqb_eq.
  - intros [Hd [[T E] | [T E]]]; (split; [|assumption]).
    + destruct (truthy_Some _ T) as [x [-> _]]. exists (CondEmail x).
      rewrite T. split; [apply in_or_app; left; now left|].
      now apply opt_string_eqb_eq.
    + destruct (truthy_Some _ T) as [x [-> _]]. exists (CondPhone x).
      rewrite T. split; [apply in_or_app; right; now left|].
      now apply opt_string_eqb_eq.
Qed.

Lemma clusterWhere_spec : forall r c,
    clusterWhere r c = true <->
    (id c = r \/ linkedId c = Some r) /\ deletedAt c = None.
Proof.
  intros r c. unfold clusterWhere.
  now rewrite andb_true_iff, orb_true_iff, Nat.eqb_eq, opt_nat_eqb_eq, isNull_true.
Qed.

Lemma idIn_spec : forall ids c, idIn ids c = true <-> In (id c) ids.
Proof. intros. apply memId_In. Qed.

Lemma linkedIdIn_spec : forall ids c,
    linkedIdIn ids c = true <-> exists l, linkedId c = Some l /\ In l ids.
Proof.
  intros ids c. unfold linkedIdIn. destruct (linkedId c) as [l|].
  - rewrite memId_In. split; [intros H; exists l; auto | intros [l' [E H]]].
    now inversion E.
  - split; [discriminate | intros [l [E _]]; discriminate].
Qed.

(** ** The merger's writes, row by row *)

Lemma mergeStore_rows : forall root others s,
    rows (mergeStore root others s) = map (mergeRow root others) (rows s).
Proof.
  intros. unfold mergeStore, updateWhere. cbn. rewrite map_map. reflexivity.
Qed.

Lemma mergeRow_demoted : forall root others c,
    In (id c) others -> mergeRow root others c = demote root c.
Proof.
  intros root others c H. unfold mergeRow.
  apply idIn_spec in H. rewrite H.
  destruct (linkedIdIn others (demote root c)); reflexivity.
Qed.

Lemma mergeRow_relinked : forall root others c l,
    ~ In (id c) others -> linkedId c = Some l -> In l others ->
    mergeRow root others c = relink root c.
Proof.
  intros root others c l H E Hl. unfold mergeRow.
  destruct (idIn others c) eqn:Ei; [apply idIn_spec in Ei; contradiction|].
  assert (linkedIdIn others c = true) as -> by (apply linkedIdIn_spec; eauto).
  reflexivity.
Qed.

Lemma mergeRow_untouched : forall root others c,
    ~ In (id c) others -> linkedIdIn others c = false ->
    mergeRow root others c = c.
Proof.
  intros root others c H E. unfold mergeRow.
  destruct (idIn others c) eqn:Ei; [apply idIn_spec in Ei; contradiction|].
  now rewrite E.
Qed.

(** The three cases of a row under the merger. *)
Lemma mergeRow_cases : forall root others c,
    (In (id c) others /\ mergeRow root others c = demote root c) \/
    (~ In (id c) others /\ (exists l, linkedId c = Some l /\ In l others) /\
     mergeRow root others c = relink root c) \/
    (~ In (id c) others /\ linkedIdIn others c = false /\
     mergeRow root others c = c).
Proof.
  intros root others c.
  destruct (idIn others c) eqn:Ei.
  - apply idIn_spec in Ei. left. split; [assumption|].
    now apply mergeRow_demoted.
  - assert (Hn : ~ In (id c) others).
    { intros H. apply idIn_spec in H. congruence. }
    right. destruct (linkedIdIn others c) eqn:El.
    + left. apply linkedIdIn_spec in El. destruct El as [l [E Hl]].
      split; [assumption|]. split; [eauto|]. eapply mergeRow_relinked; eauto.
    + right. split; [assumption|]. split; [reflexivity|].
      now apply mergeRow_untouched.
Qed.

Lemma mergeRow_id : forall root others c, id (mergeRow root others c) = id c.
Proof.
  intros. destruct (mergeRow_cases root others c) as [[_ ->] | [[_ [_ ->]] | [_ [_ ->]]]];
    reflexivity.
Qed.

Lemma mergeRow_email : forall root others c,
    email (mergeRow root others c) = email c.
Proof.
  intros. destruct (mergeRow_cases root others c) as [[_ ->] | [[_ [_ ->]] | [_ [_ ->]]]];
    reflexivity.
Qed.

Lemma mergeRow_phoneNumber : forall root others c,
    phoneNumber (mergeRow root others c) = phoneNumber c.
Proof.
  intros. destruct (mergeRow_cases root others c) as [[_ ->] | [[_ [_ ->]] | [_ [_ ->]]]];
    reflexivity.
Qed.

Lemma mergeRow_deletedAt : forall root others c,
    deletedAt (mergeRow root others c) = deletedAt c.
Proof.
  intros. destruct (mergeRow_cases root others c) as [[_ ->] | [[_ [_ ->]] | [_ [_ ->]]]];
    reflexivity.
Qed.

Lemma mergeRow_createdAt : forall root others c,
    createdAt (mergeRow root others c) = createdAt c.
Proof.
  intros. destruct (mergeRow_cases root others c) as [[_ ->] | [[_ [_ ->]] | [_ [_ ->]]]];
    reflexivity.
Qed.

Lemma mergeStore_ids : forall root others s,
    map id (rows (mergeStore root others s)) = map id (rows s).
Proof.
  intros. rewrite mergeStore_rows, map_map. apply map_ext. apply mergeRow_id.
Qed.

(** A primary that is not demoted stays a primary with its identifier. *)
Lemma mergeRow_survivor : forall root others o,
    linkPrecedence o = primary -> ~ In (id o) others ->
    linkPrecedence (mergeRow root others o) = primary /\
    id (mergeRow root others o) = id o.
Proof.
  intros root others o Hp Hn. split; [|apply mergeRow_id].
  destruct (mergeRow_cases root others o) as [[H _] | [[_ [_ ->]] | [_ [_ ->]]]];
    [contradiction | exact Hp | exact Hp].
Qed.

(** ** Unique identifiers *)

Lemma unique_id : forall (l : list Contact) a b,
    NoDup (map id l) -> In a l -> In b l -> id a = id b -> a = b.
Proof.
  induction l as [|h t IH]; intros a b N Ha Hb E; [destruct Ha|].
  cbn in N. inversion N as [|? ? Hh Ht]; subst.
  destruct Ha as [-> | Ha], Hb as [-> | Hb].
  - reflexivity.
  - exfalso. apply Hh. rewrite E. now apply in_map.
  - exfalso. apply Hh. rewrite <- E. now apply in_map.
  - now apply IH.
Qed.

Lemma NoDup_map_filter : forall (f : Contact -> bool) l,
    NoDup (map id l) -> NoDup (map id (filter f l)).
Proof.
  induction l as [|h t IH]; intros N; cbn; [constructor|].
  cbn in N. inversion N as [|? ? Hh Ht]; subst.
  destruct (f h); cbn; [|now apply IH].
  constructor; [|now apply IH].
  intros H. apply Hh. apply in_map_iff in H. destruct H as [x [E Hx]].
  apply filter_In in Hx. rewrite <- E. apply in_map. tauto.
Qed.

Lemma insert_wellKeyed : forall s now e p l lp,
    wellKeyed s -> wellKeyed (insert s (newRow s now e p l lp)).
Proof.
  intros s now e p l lp [N B]. split; cbn.
  - rewrite map_app. cbn. apply NoDup_app; [assumption | repeat constructor; intros [] |].
    intros x Hx [<- | []]. apply in_map_iff in Hx. destruct Hx as [c [E Hc]].
    apply B in Hc. lia.
  - intros c Hc. apply in_app_or in Hc. destruct Hc as [Hc | [<- | []]].
    + apply B in Hc. lia.
    + cbn. lia.
Qed.

Lemma mergeStore_wellKeyed : forall root others s,
    wellKeyed s -> wellKeyed (mergeStore root others s).
Proof.
  intros root others s [N B]. split.
  - now rewrite mergeStore_ids.
  - intros c Hc. rewrite mergeStore_rows in Hc. apply in_map_iff in Hc.
    destruct Hc as [c0 [<- Hc0]]. rewrite mergeRow_id. cbn. now apply B.
Qed.

(** ** Running the stages without faults *)

Lemma bind_returned : forall A B (m : M A) (k : A -> M B) fl w w' a,
    m fl w = (w', Returned a) -> bind m k fl w = k a fl w'.
Proof. intros A B m k fl w w' a H. unfold bind. now rewrite H. Qed.

Lemma bind_threw : forall A B (m : M A) (k : A -> M B) fl w w' e,
    m fl w = (w', Threw e) -> bind m k fl w = (w', Threw e).
Proof. intros A B m k fl w w' e H. unfold bind. now rewrite H. Qed.

Section Runs.

Variable orderBy : list Contact -> list Contact.

Lemma compose_world : forall r cl fl w, fst (compose r cl fl w) = w.
Proof.
  intros r cl fl w. unfold compose.
  destruct (find _ cl) as [prim|]; [|reflexivity].
  destruct (composeLists r prim cl) as [[? ?] ?]. reflexivity.
Qed.

Lemma findMany_run : forall wh w,
    findMany orderBy wh noFaults w =
    (mkWorld (store w) (calls w ++ [FindMany]),
     Returned (orderBy (filter wh (rows (store w))))).
Proof. reflexivity. Qed.

Lemma extend_run : forall now e p r w,
    extend orderBy now e p r noFaults w =
    (mkWorld (extendStore orderBy now e p r (store w))
             (calls w ++ FindMany ::
                (if extends orderBy (store w) e p r then [Create] else [])),
     Returned (extendedCluster orderBy now e p r (store w))).
Proof.
  intros now e p r w.
  unfold extend, bind, findMany, create, dbCall, extendStore, extendedCluster,
    extends, clusterOf.
  cbn [noFaults calls store].
  destruct (isNew _ _ || isNew _ _); cbn; [|reflexivity].
  now rewrite <- app_assoc.
Qed.

Lemma mergeWrites_run : forall r others w,
    mergeWrites r others noFaults w =
    (mkWorld (mergeStore r others (store w))
             (calls w ++ [UpdateMany; UpdateMany]),
     Returned tt).
Proof.
  intros r others w. unfold mergeWrites, bind, updateMany, dbCall, mergeStore.
  cbn. now rewrite <- app_assoc.
Qed.

Lemma resolveRoot_run : forall ids w,
    resolveRoot orderBy plain ids noFaults w =
    if 1 <? List.length ids then
      match primariesOf orderBy (store w) ids with
      | [] => (mkWorld (store w) (calls w ++ [FindMany]), Threw TypeError)
      | o :: others =>
          (mkWorld (mergeStore (id o) (map id others) (store w))
                   (calls w ++ [FindMany; UpdateMany; UpdateMany]),
           Returned (id o))
      end
    else (w, Returned (hd 0 ids)).
Proof.
  intros ids w. unfold resolveRoot.
  destruct (1 <? List.length ids); [|reflexivity].
  erewrite bind_returned by (apply findMany_run).
  unfold primariesOf. cbn [store].
  destruct (orderBy _) as [|o others]; [reflexivity|].
  unfold plain. erewrite bind_returned by (apply mergeWrites_run).
  cbn. now rewrite <- app_assoc.
Qed.

Lemma compose_run : forall r cl fl w,
    compose r cl fl w = (w, composeOutcome r cl).
Proof.
  intros r cl fl w. unfold compose, composeOutcome.
  destruct (find _ cl) as [prim|]; [|reflexivity].
  destruct (composeLists r prim cl) as [[? ?] ?]. reflexivity.
Qed.

(** The rest of the handler once the root is known. *)
Lemma finish_run : forall now e p r w,
    (cluster <- extend orderBy now e p r ;; compose r cluster) noFaults w =
    (mkWorld (extendStore orderBy now e p r (store w))
             (calls w ++ FindMany ::
                (if extends orderBy (store w) e p r then [Create] else [])),
     composeOutcome r (extendedCluster orderBy now e p r (store w))).
Proof.
  intros now e p r w. erewrite bind_returned by (apply extend_run). now rewrite compose_run.
Qed.

(** A run of [identify] without faults, in full. *)
Lemma handle_run : forall now req s,
    exists calls,
      handle orderBy noFaults now req s =
      (mkWorld (afterRequest orderBy now req s) calls,
       Returned (responseOf orderBy now req s)).
Proof.
  intros now req s.
  unfold handle, run, identify, tryCatch, afterRequest, responseOf, rejected.
  destruct (negb (truthy (req_email req)) && negb (truthy (req_phoneNumber req)));
    [eexists; reflexivity|].
  unfold reconcile. erewrite bind_returned by (apply findMany_run). cbn [store calls].
  unfold resolved, rootsOf, matching.
  destruct (collectPrimaryIds _) as [|r ids] eqn:E.
  { cbn. eexists. reflexivity. }
  cbn [List.length Nat.eqb].
  pose proof (resolveRoot_run (r :: ids) (mkWorld s ([] ++ [FindMany]))) as HR.
  destruct ids as [|r' ids].
  - cbn in HR. erewrite bind_returned by (apply HR). rewrite finish_run. cbn [store].
    destruct (composeOutcome _ _); eexists; reflexivity.
  - cbn [List.length Nat.ltb Nat.leb store] in HR.
    destruct (primariesOf orderBy s (r :: r' :: ids)) as [|o others].
    + erewrite bind_threw by (apply HR). eexists. reflexivity.
    + erewrite bind_returned by (apply HR). rewrite finish_run. cbn [store].
      destruct (composeOutcome _ _); eexists; reflexivity.
Qed.

(** The table a fault-free run leaves is the one [afterRequest] gives. *)
Lemma handle_store : forall now req s,
    store (fst (handle orderBy noFaults now req s))
    = afterRequest orderBy now req s.
Proof.
  intros now req s. destruct (handle_run now req s) as [c ->]. reflexivity.
Qed.

Lemma handle_response : forall now req s,
    snd (handle orderBy noFaults now req s)
    = Returned (responseOf orderBy now req s).
Proof.
  intros now req s. destruct (handle_run now req s) as [c ->]. reflexivity.
Qed.

End Runs.

(** ** What the resolver's roots are *)

Section Roots.

Variable orderBy : list Contact -> list Contact.
Hypothesis orderBy_perm : forall l, Permutation (orderBy l) l.

Lemma orderBy_In : forall l c, In c (orderBy l) <-> In c l.
Proof.
  intros l c. split; apply Permutation_in;
    [apply orderBy_perm | apply Permutation_sym, orderBy_perm].
Qed.

Lemma matching_In : forall s e p c,
    In c (matching orderBy s e p) <->
    In c (rows s) /\ matchWhere (conditionsOf e p) c = true.
Proof. intros. unfold matching. now rewrite orderBy_In, filter_In. Qed.

Lemma rootsOf_In : forall s e p r,
    In r (rootsOf orderBy s e p) <->
    exists c, In c (rows s) /\ matchWhere (conditionsOf e p) c = true /\
              rootOf c = Some r.
Proof.
  intros s e p r. unfold rootsOf. rewrite collectPrimaryIds_In. split.
  - intros [c [Hc E]]. apply matching_In in Hc. exists c. tauto.
  - intros [c [Hc [Hm E]]]. exists c. split; [apply matching_In|]; tauto.
Qed.

Lemma primariesOf_In : forall s ids c,
    In c (primariesOf orderBy s ids) <-> In c (rows s) /\ In (id c) ids.
Proof.
  intros. unfold primariesOf. now rewrite orderBy_In, filter_In, idIn_spec.
Qed.

Lemma primariesOf_NoDup : forall s ids,
    NoDup (map id (rows s)) -> NoDup (map id (primariesOf orderBy s ids)).
Proof.
  intros s ids N. unfold primariesOf.
  eapply Permutation_NoDup.
  - apply Permutation_sym, Permutation_map, orderBy_perm.
  - now apply NoDup_map_filter.
Qed.

Lemma clusterOf_In : forall s r c,
    In c (clusterOf orderBy s r) <->
    In c (rows s) /\ (id c = r \/ linkedId c = Some r) /\ deletedAt c = None.
Proof.
  intros. unfold clusterOf. now rewrite orderBy_In, filter_In, clusterWhere_spec.
Qed.

(** Under [linkedToPrimary], every root is the identifier of a primary. *)
Lemma roots_are_primaries : forall s e p r,
    linkedToPrimary (rows s) -> In r (rootsOf orderBy s e p) ->
    exists x, In x (rows s) /\ id x = r /\ linkPrecedence x = primary.
Proof.
  intros s e p r L H. apply rootsOf_In in H. destruct H as [c [Hc [Hm E]]].
  apply matchWhere_spec in Hm. destruct Hm as [Hd _].
  unfold rootOf in E. destruct (linkPrecedence c) eqn:Ep.
  - exists c. inversion E. auto.
  - eapply L; eauto.
Qed.

(** The survivor and the demoted primaries of a merge. *)
Lemma survivor_facts : forall s e p o others,
    wellKeyed s -> linkedToPrimary (rows s) ->
    primariesOf orderBy s (rootsOf orderBy s e p) = o :: others ->
    In o (rows s) /\ linkPrecedence o = primary /\
    In (id o) (rootsOf orderBy s e p) /\
    ~ In (id o) (map id others) /\
    (forall c, In c (rows s) -> In (id c) (map id others) ->
               linkPrecedence c = primary /\ In c others) /\
    (forall r, In r (rootsOf orderBy s e p) ->
               r = id o \/ In r (map id others)).
Proof.
  intros s e p o others [N B] L E.
  assert (Ho : In o (rows s) /\ In (id o) (rootsOf orderBy s e p)).
  { apply primariesOf_In. rewrite E. now left. }
  assert (Hprim : forall x, In x (rows s) -> In (id x) (rootsOf orderBy s e p) ->
                            linkPrecedence x = primary).
  { intros x Hx Hr. destruct (roots_are_primaries s e p _ L Hr) as [y [Hy [Ey Py]]].
    now rewrite <- (unique_id _ _ _ N Hy Hx Ey). }
  pose proof (primariesOf_NoDup s (rootsOf orderBy s e p) N) as ND.
  rewrite E in ND. cbn in ND. inversion ND as [|? ? Hn _]; subst.
  destruct Ho as [Ho Hr].
  assert (Hin : forall c, In c (rows s) -> In (id c) (map id others) ->
                          In c others /\ In (id c) (rootsOf orderBy s e p)).
  { intros c Hc Hi. apply in_map_iff in Hi. destruct Hi as [x [Ex Hx]].
    assert (Hx' : In x (primariesOf orderBy s (rootsOf orderBy s e p))).
    { rewrite E. now right. }
    apply primariesOf_In in Hx'. destruct Hx' as [Hx1 Hx2].
    now rewrite (unique_id _ _ _ N Hc Hx1 (eq_sym Ex)). }
  split; [exact Ho|]. split; [now apply Hprim|]. split; [exact Hr|].
  split; [exact Hn|]. split.
  - intros c Hc Hi. destruct (Hin c Hc Hi) as [H1 H2]. split; [|exact H1].
    now apply Hprim.
  - intros r Hr'. destruct (roots_are_primaries s e p _ L Hr') as [y [Hy [Ey Py]]].
    assert (Hy' : In y (primariesOf orderBy s (rootsOf orderBy s e p))).
    { apply primariesOf_In. split; [assumption | now rewrite Ey]. }
    rewrite E in Hy'. destruct Hy' as [<- | Hy'].
    + now left.
    + right. rewrite <- Ey. now apply in_map.
Qed.

End Roots.

(** ** [linkedToPrimary] is kept *)

Lemma merge_linkedToPrimary : forall l root others o,
    linkedToPrimary l ->
    In o l -> id o = root -> linkPrecedence o = primary -> ~ In root others ->
    linkedToPrimary (map (mergeRow root others) l).
Proof.
  intros l root others o L Ho Eo Po Hn c' q Hc' Hd Hq.
  assert (Hsurv : exists r, In r (map (mergeRow root others) l) /\
                            id r = root /\ linkPrecedence r = primary).
  { exists (mergeRow root others o). split; [now apply in_map|].
    destruct (mergeRow_survivor root others o Po) as [P I]; [now rewrite Eo|].
    rewrite I. auto. }
  apply in_map_iff in Hc'. destruct Hc' as [c [<- Hc]].
  rewrite mergeRow_deletedAt in Hd.
  destruct (mergeRow_cases root others c) as [[_ E] | [[_ [_ E]] | [Hi [Hl E]]]];
    rewrite E in Hq.
  - cbn in Hq. inversion Hq; subst. exact Hsurv.
  - cbn in Hq. inversion Hq; subst. exact Hsurv.
  - destruct (L c q Hc Hd Hq) as [x [Hx [Ex Px]]].
    exists (mergeRow root others x). split; [now apply in_map|].
    assert (Hnx : ~ In (id x) others).
    { rewrite Ex. intros Hin.
      assert (linkedIdIn others c = true) by (apply linkedIdIn_spec; eauto).
      congruence. }
    destruct (mergeRow_survivor root others x Px Hnx) as [P I].
    rewrite I. auto.
Qed.

Lemma insert_linkedToPrimary : forall l n,
    linkedToPrimary l ->
    (forall q, linkedId n = Some q ->
               exists r, In r l /\ id r = q /\ linkPrecedence r = primary) ->
    linkedToPrimary (l ++ [n]).
Proof.
  intros l n L Hn c q Hc Hd Hq.
  apply in_app_or in Hc. destruct Hc as [Hc | [<- | []]].
  - destruct (L c q Hc Hd Hq) as [r [Hr H]]. exists r.
    split; [apply in_or_app; now left | exact H].
  - destruct (Hn q Hq) as [r [Hr H]]. exists r.
    split; [apply in_or_app; now left | exact H].
Qed.

Section Linked.

Variable orderBy : list Contact -> list Contact.
Hypothesis orderBy_perm : forall l, Permutation (orderBy l) l.

Lemma extendStore_linked : forall now e p r s,
    wellKeyed s -> linkedToPrimary (rows s) ->
    (exists x, In x (rows s) /\ id x = r /\ linkPrecedence x = primary) ->
    wellKeyed (extendStore orderBy now e p r s) /\
    linkedToPrimary (rows (extendStore orderBy now e p r s)).
Proof.
  intros now e p r s W L Hr. unfold extendStore.
  destruct (extends orderBy s e p r); [|auto].
  split; [now apply insert_wellKeyed|].
  cbn. apply insert_linkedToPrimary; [assumption|].
  cbn. intros q E. inversion E. now subst.
Qed.

(** One fault-free request keeps unique identifiers and [linkedToPrimary]. *)
Lemma afterRequest_linked : forall now req s,
    wellKeyed s -> linkedToPrimary (rows s) ->
    wellKeyed (afterRequest orderBy now req s) /\
    linkedToPrimary (rows (afterRequest orderBy now req s)).
Proof.
  intros now req s W L. unfold afterRequest.
  destruct (rejected req); [auto|].
  set (e := req_email req). set (p := req_phoneNumber req).
  unfold resolved.
  destruct (rootsOf orderBy s e p) as [|r [|r' ids]] eqn:E.
  - split; [now apply insert_wellKeyed|].
    cbn. apply insert_linkedToPrimary; [assumption | cbn; discriminate].
  - apply extendStore_linked; auto.
    apply (roots_are_primaries orderBy orderBy_perm s e p); [assumption|].
    rewrite E. now left.
  - rewrite <- E.
    destruct (primariesOf orderBy s (rootsOf orderBy s e p)) as [|o others] eqn:Ep;
      [auto|].
    destruct (survivor_facts orderBy orderBy_perm s e p o others W L Ep)
      as [Ho [Po [_ [Hn _]]]].
    apply extendStore_linked.
    + now apply mergeStore_wellKeyed.
    + rewrite mergeStore_rows. eapply merge_linkedToPrimary; eauto.
    + exists (mergeRow (id o) (map id others) o). rewrite mergeStore_rows.
      split; [now apply in_map|].
      destruct (mergeRow_survivor (id o) (map id others) o Po Hn) as [P I].
      auto.
Qed.

End Linked.

(** ** The hierarchy is kept *)

Lemma hierarchy_linked : forall l, hierarchy l -> linkedToPrimary l.
Proof.
  intros l H c q Hc _ Hq. specialize (H c Hc).
  destruct (linkPrecedence c); [congruence|].
  destruct H as [r [Hr [E [P _]]]]. exists r.
  split; [assumption|]. split; [congruence | assumption].
Qed.

Lemma hierarchy_rootOf : forall l c,
    hierarchy l -> In c l ->
    exists r x, rootOf c = Some r /\ In x l /\ id x = r /\
                linkPrecedence x = primary /\
                (deletedAt c = None -> deletedAt x = None).
Proof.
  intros l c H Hc. pose proof (H c Hc) as Hh. unfold rootOf.
  destruct (linkPrecedence c) eqn:P.
  - exists (id c), c. auto.
  - destruct Hh as [r [Hr [E [Pr D]]]]. exists (id r), r. auto.
Qed.

Lemma merge_hierarchy : forall l root others o,
    hierarchy l ->
    In o l -> id o = root -> linkPrecedence o = primary -> deletedAt o = None ->
    ~ In root others ->
    hierarchy (map (mergeRow root others) l).
Proof.
  intros l root others o H Ho Eo Po Do Hn.
  assert (Ekeep : forall x, In x l -> linkPrecedence x = primary ->
                            ~ In (id x) others -> mergeRow root others x = x).
  { intros x Hx Px Hnx. apply mergeRow_untouched; [assumption|].
    unfold linkedIdIn. specialize (H x Hx). rewrite Px in H. now rewrite H. }
  assert (Eo' : mergeRow root others o = o).
  { apply Ekeep; [assumption | assumption | now rewrite Eo]. }
  assert (Hsurv : forall c', (deletedAt c' = None -> deletedAt o = None) ->
            exists r, In r (map (mergeRow root others) l) /\
                      Some root = Some (id r) /\ linkPrecedence r = primary /\
                      (deletedAt c' = None -> deletedAt r = None)).
  { intros c' Hd. exists o. split; [rewrite <- Eo'; now apply in_map|].
    split; [now rewrite Eo | auto]. }
  intros c' Hc'. apply in_map_iff in Hc'. destruct Hc' as [c [<- Hc]].
  destruct (mergeRow_cases root others c) as [[_ E] | [[_ [[q [Eq Hq]] E]] | [Hi [Hl E]]]];
    rewrite E.
  - cbn. apply Hsurv. auto.
  - pose proof (H c Hc) as Hh. cbn.
    destruct (linkPrecedence c); [congruence|]. apply Hsurv. auto.
  - pose proof (H c Hc) as Hh. destruct (linkPrecedence c); [assumption|].
    destruct Hh as [r [Hr [Er [Pr Dr]]]]. exists r.
    split; [|auto].
    rewrite <- (Ekeep r Hr Pr); [now apply in_map|].
    intros Hin. assert (linkedIdIn others c = true) by (apply linkedIdIn_spec; eauto).
    congruence.
Qed.

Lemma insert_hierarchy : forall l n,
    hierarchy l ->
    match linkPrecedence n with
    | primary => linkedId n = None
    | secondary =>
        exists r, In r l /\ linkedId n = Some (id r) /\
                  linkPrecedence r = primary /\
                  (deletedAt n = None -> deletedAt r = None)
    end ->
    hierarchy (l ++ [n]).
Proof.
  intros l n H Hn c Hc.
  assert (Hlift : forall c0,
             match linkPrecedence c0 with
             | primary => linkedId c0 = None
             | secondary =>
                 exists r, In r l /\ linkedId c0 = Some (id r) /\
                           linkPrecedence r = primary /\
                           (deletedAt c0 = None -> deletedAt r = None)
             end ->
             match linkPrecedence c0 with
             | primary => linkedId c0 = None
             | secondary =>
                 exists r, In r (l ++ [n]) /\ linkedId c0 = Some (id r) /\
                           linkPrecedence r = primary /\
                           (deletedAt c0 = None -> deletedAt r = None)
             end).
  { intros c0 H0. destruct (linkPrecedence c0); [assumption|].
    destruct H0 as [r [Hr Hrest]]. exists r.
    split; [apply in_or_app; now left | assumption]. }
  apply in_app_or in Hc. destruct Hc as [Hc | [<- | []]]; apply Hlift.
  - exact (H c Hc).
  - exact Hn.
Qed.

(** ** Keys stay within one cluster *)

Lemma sharesKey_sym : forall a b, sharesKey a b -> sharesKey b a.
Proof.
  intros a b [[T E] | [T E]]; [left | right]; rewrite <- E; auto.
Qed.

Lemma rootOf_mergeRow : forall l root others c,
    hierarchy l -> In c l ->
    (forall x, In x l -> In (id x) others -> linkPrecedence x = primary) ->
    rootOf (mergeRow root others c)
    = option_map (mergedRoot root others) (rootOf c).
Proof.
  intros l root others c H Hc Hp. pose proof (H c Hc) as Hh.
  unfold rootOf, mergedRoot.
  destruct (mergeRow_cases root others c) as [[Hi E] | [[Hi [[q [Eq Hq]] E]] | [Hi [Hl E]]]];
    rewrite E.
  - rewrite (Hp c Hc Hi). cbn. apply memId_In in Hi. now rewrite Hi.
  - cbn. destruct (linkPrecedence c); [congruence|].
    rewrite Eq. cbn. apply memId_In in Hq. now rewrite Hq.
  - destruct (linkPrecedence c).
    + cbn. apply memId_false in Hi. now rewrite Hi.
    + destruct Hh as [r [_ [Er _]]]. rewrite Er. cbn.
      unfold linkedIdIn in Hl. rewrite Er in Hl. now rewrite Hl.
Qed.

Lemma sharesKey_mergeRow : forall root others a b,
    sharesKey (mergeRow root others a) (mergeRow root others b) <-> sharesKey a b.
Proof.
  intros. unfold sharesKey.
  now rewrite !mergeRow_email, !mergeRow_phoneNumber.
Qed.

Lemma merge_keysAgree : forall l root others,
    hierarchy l -> keysAgree l ->
    (forall x, In x l -> In (id x) others -> linkPrecedence x = primary) ->
    keysAgree (map (mergeRow root others) l).
Proof.
  intros l root others H K Hp a' b' Ha' Hb' Da Db S.
  apply in_map_iff in Ha'. destruct Ha' as [a [<- Ha]].
  apply in_map_iff in Hb'. destruct Hb' as [b [<- Hb]].
  rewrite mergeRow_deletedAt in Da, Db. apply sharesKey_mergeRow in S.
  rewrite (rootOf_mergeRow l root others a H Ha Hp).
  rewrite (rootOf_mergeRow l root others b H Hb Hp).
  now rewrite (K a b Ha Hb Da Db S).
Qed.

Lemma insert_keysAgree : forall l n,
    keysAgree l ->
    (forall a, In a l -> deletedAt a = None -> sharesKey a n ->
               rootOf a = rootOf n) ->
    keysAgree (l ++ [n]).
Proof.
  intros l n K Hn a b Ha Hb Da Db S.
  apply in_app_or in Ha. apply in_app_or in Hb.
  destruct Ha as [Ha | [<- | []]], Hb as [Hb | [<- | []]].
  - now apply K.
  - now apply Hn.
  - symmetry. apply Hn; auto. now apply sharesKey_sym.
  - reflexivity.
Qed.

(** A row that shares a key with the row a request creates matches the
    request. *)
Lemma sharesKey_new_matches : forall s now e p l lp a,
    deletedAt a = None ->
    sharesKey a (newRow s now (orNull e) (orNull p) l lp) ->
    matchWhere (conditionsOf e p) a = true.
Proof.
  intros s now e p l lp a Da S. apply matchWhere_spec. split; [assumption|].
  destruct S as [[T E] | [T E]]; cbn in E; rewrite E in T;
    rewrite truthy_orNull in T; rewrite (orNull_truthy _ T) in E; auto.
Qed.

Section Preserved.

Variable orderBy : list Contact -> list Contact.
Hypothesis orderBy_perm : forall l, Permutation (orderBy l) l.

(** Under the hierarchy, every root is a primary that is not deleted. *)
Lemma roots_are_live : forall s e p r,
    hierarchy (rows s) -> In r (rootsOf orderBy s e p) ->
    exists x, In x (rows s) /\ id x = r /\ linkPrecedence x = primary /\
              deletedAt x = None.
Proof.
  intros s e p r H Hr. apply (rootsOf_In orderBy orderBy_perm) in Hr.
  destruct Hr as [c [Hc [Hm E]]].
  apply matchWhere_spec in Hm. destruct Hm as [Hd _].
  destruct (hierarchy_rootOf _ c H Hc) as [r' [x [E' [Hx [Ex [Px Dx]]]]]].
  exists x. rewrite E in E'. inversion E'; subst. auto.
Qed.

(** Under the hierarchy, a matching row has one of the roots. *)
Lemma matching_has_root : forall s e p a,
    hierarchy (rows s) -> In a (rows s) ->
    matchWhere (conditionsOf e p) a = true ->
    exists r, rootOf a = Some r /\ In r (rootsOf orderBy s e p).
Proof.
  intros s e p a H Ha Hm.
  destruct (hierarchy_rootOf _ a H Ha) as [r [_ [E _]]].
  exists r. split; [assumption|].
  apply (rootsOf_In orderBy orderBy_perm). eauto.
Qed.

Lemma extendStore_dataModel : forall now e p r s,
    dataModel s ->
    (exists x, In x (rows s) /\ id x = r /\ linkPrecedence x = primary /\
               deletedAt x = None) ->
    dataModel (extendStore orderBy now e p r s).
Proof.
  intros now e p r s [W H] [x [Hx [Ex [Px Dx]]]]. unfold extendStore.
  destruct (extends orderBy s e p r); [|split; assumption].
  split; [now apply insert_wellKeyed|].
  cbn. apply insert_hierarchy; [assumption|]. cbn.
  exists x. rewrite Ex. auto.
Qed.

Lemma extendStore_keysAgree : forall now e p r s,
    keysAgree (rows s) ->
    (forall a, In a (rows s) -> matchWhere (conditionsOf e p) a = true ->
               rootOf a = Some r) ->
    keysAgree (rows (extendStore orderBy now e p r s)).
Proof.
  intros now e p r s K Hm. unfold extendStore.
  destruct (extends orderBy s e p r); [|assumption].
  cbn. apply insert_keysAgree; [assumption|].
  intros a Ha Da S. unfold newSecondaryRow in *.
  rewrite (Hm a Ha (sharesKey_new_matches _ _ _ _ _ _ _ Da S)). reflexivity.
Qed.

(** One fault-free request keeps the data model. *)
Lemma afterRequest_dataModel : forall now req s,
    dataModel s -> dataModel (afterRequest orderBy now req s).
Proof.
  intros now req s D. pose proof D as [W H]. unfold afterRequest.
  destruct (rejected req); [assumption|].
  set (e := req_email req). set (p := req_phoneNumber req).
  unfold resolved.
  destruct (rootsOf orderBy s e p) as [|r [|r' ids]] eqn:E.
  - split; [now apply insert_wellKeyed|].
    cbn. apply insert_hierarchy; [assumption | reflexivity].
  - apply extendStore_dataModel; [assumption|].
    apply (roots_are_live s e p r H). rewrite E. now left.
  - rewrite <- E.
    destruct (primariesOf orderBy s (rootsOf orderBy s e p)) as [|o others] eqn:Ep;
      [assumption|].
    destruct (survivor_facts orderBy orderBy_perm s e p o others W
                (hierarchy_linked _ H) Ep) as [Ho [Po [Hr [Hn _]]]].
    destruct (roots_are_live s e p (id o) H Hr) as [x [Hx [Ex [_ Dx]]]].
    pose proof W as [N _].
    rewrite (unique_id _ _ _ N Hx Ho Ex) in Dx.
    assert (Hkeep : mergeRow (id o) (map id others) o = o).
    { apply mergeRow_untouched; [assumption|]. unfold linkedIdIn.
      specialize (H o Ho). rewrite Po in H. now rewrite H. }
    apply extendStore_dataModel.
    + split; [now apply mergeStore_wellKeyed|].
      rewrite mergeStore_rows.
      apply (merge_hierarchy (rows s) (id o) (map id others) o); auto.
    + exists o. rewrite mergeStore_rows.
      split; [apply in_map_iff; exists o; auto | auto].
Qed.

(** One fault-free request keeps every key within one cluster. *)
Lemma afterRequest_consistent : forall now req s,
    consistent s -> consistent (afterRequest orderBy now req s).
Proof.
  intros now req s [D K]. split; [now apply afterRequest_dataModel|].
  pose proof D as [W H]. unfold afterRequest.
  destruct (rejected req); [assumption|].
  set (e := req_email req). set (p := req_phoneNumber req).
  unfold resolved.
  destruct (rootsOf orderBy s e p) as [|r [|r' ids]] eqn:E.
  - cbn. apply insert_keysAgree; [assumption|].
    intros a Ha Da S. exfalso.
    destruct (matching_has_root s e p a H Ha
                (sharesKey_new_matches _ _ _ _ _ _ _ Da S)) as [r [_ Hr]].
    rewrite E in Hr. destruct Hr.
  - apply extendStore_keysAgree; [assumption|].
    intros a Ha Hm. destruct (matching_has_root s e p a H Ha Hm) as [x [Ex Hx]].
    rewrite E in Hx. destruct Hx as [<- | []]. assumption.
  - rewrite <- E.
    destruct (primariesOf orderBy s (rootsOf orderBy s e p)) as [|o others] eqn:Ep;
      [assumption|].
    destruct (survivor_facts orderBy orderBy_perm s e p o others W
                (hierarchy_linked _ H) Ep) as [Ho [Po [Hr [Hn [Hdem Hall]]]]].
    assert (Hprim : forall x, In x (rows s) -> In (id x) (map id others) ->
                              linkPrecedence x = primary).
    { intros x Hx Hi. now apply Hdem. }
    apply extendStore_keysAgree.
    + rewrite mergeStore_rows. now apply merge_keysAgree.
    + intros a' Ha' Hm. rewrite mergeStore_rows in Ha'.
      apply in_map_iff in Ha'. destruct Ha' as [a [<- Ha]].
      assert (Hm' : matchWhere (conditionsOf e p) a = true).
      { apply matchWhere_spec in Hm. apply matchWhere_spec.
        now rewrite mergeRow_email, mergeRow_phoneNumber, mergeRow_deletedAt in Hm. }
      destruct (matching_has_root s e p a H Ha Hm') as [x [Ex Hx]].
      rewrite (rootOf_mergeRow _ _ _ a H Ha Hprim), Ex. cbn. f_equal.
      unfold mergedRoot. destruct (Hall x Hx) as [-> | Hin].
      * apply memId_false in Hn. now rewrite Hn.
      * apply memId_In in Hin. now rewrite Hin.
Qed.

(** Requests that meet no store fault keep the links to primaries, the
    data model, and every key within one cluster. *)
Lemma unfaulted_linked : forall s0 s,
    reachableUnfaulted orderBy s0 s ->
    wellKeyed s0 -> linkedToPrimary (rows s0) ->
    wellKeyed s /\ linkedToPrimary (rows s).
Proof.
  intros s0 s R W L. induction R as [|s now req R IH]; [auto|].
  rewrite handle_store. destruct IH as [W' L'].
  now apply (afterRequest_linked orderBy orderBy_perm).
Qed.

Lemma unfaulted_dataModel : forall s0 s,
    reachableUnfaulted orderBy s0 s -> dataModel s0 -> dataModel s.
Proof.
  intros s0 s R D. induction R as [|s now req R IH]; [assumption|].
  rewrite handle_store. now apply afterRequest_dataModel.
Qed.

Lemma unfaulted_consistent : forall s0 s,
    reachableUnfaulted orderBy s0 s -> consistent s0 -> consistent s.
Proof.
  intros s0 s R D. induction R as [|s now req R IH]; [assumption|].
  rewrite handle_store. now apply afterRequest_consistent.
Qed.

End Preserved.

Lemma emptyStore_consistent : consistent emptyStore.
Proof.
  split; [split; [split|]|].
  - constructor.
  - intros c [].
  - intros c [].
  - intros a b [].
Qed.

(** ** Clusters under the data model *)

Lemma filter_unique : forall (f : Contact -> bool) l x,
    NoDup (map id l) -> In x l -> f x = true ->
    (forall m, In m l -> f m = true -> id m = id x) ->
    filter f l = [x].
Proof.
  induction l as [|h t IH]; intros x N Hx Fx U; [destruct Hx|].
  cbn in N. inversion N as [|? ? Hh Ht]; subst. cbn.
  assert (Hnone : forall y, id y = id h -> ~ In h t ->
             (forall m, In m t -> f m = true -> id m = id y) ->
             filter f t = []).
  { intros y Ey _ Uy. clear IH.
    assert (forall m, In m t -> f m = false) as Hf.
    { intros m Hm. destruct (f m) eqn:Fm; [|reflexivity].
      exfalso. apply Hh. rewrite <- Ey, <- (Uy m Hm Fm). now apply in_map. }
    clear -Hf. induction t as [|a t IHt]; [reflexivity|].
    cbn. rewrite (Hf a (or_introl eq_refl)). apply IHt.
    intros m Hm. apply Hf. now right. }
  destruct Hx as [-> | Hx].
  - rewrite Fx. f_equal. apply (Hnone x eq_refl).
    + intros Hin. apply Hh. now apply in_map.
    + intros m Hm. apply U. now right.
  - destruct (f h) eqn:Fh.
    + exfalso. apply Hh. rewrite (U h (or_introl eq_refl) Fh). now apply in_map.
    + apply IH; auto. intros m Hm. apply U. now right.
Qed.

Lemma isPrimary_true : forall c, isPrimary c = true <-> linkPrecedence c = primary.
Proof.
  intros c. unfold isPrimary. destruct (linkPrecedence c); cbn; split; congruence.
Qed.

Lemma members_In : forall l r c,
    In c (members l r) <->
    In c l /\ (id c = r \/ linkedId c = Some r) /\ deletedAt c = None.
Proof. intros. unfold members. now rewrite filter_In, clusterWhere_spec. Qed.

(** The data model gives every cluster exactly one primary. *)
Lemma dataModel_onePrimaryPerCluster : forall s,
    dataModel s -> onePrimaryPerCluster (rows s).
Proof.
  intros s [[N B] H] c Hc Dc.
  destruct (hierarchy_rootOf _ c H Hc) as [r [x [E [Hx [Ex [Px Dx]]]]]].
  specialize (Dx Dc). exists r. split; [assumption|].
  assert (Hprim : forall m, In m (rows s) -> linkPrecedence m = primary ->
                            (id m = r \/ linkedId m = Some r) -> m = x).
  { intros m Hm Pm Hr. apply (unique_id _ _ _ N Hm Hx). rewrite Ex.
    destruct Hr as [Hr | Hr]; [assumption|].
    specialize (H m Hm). rewrite Pm in H. congruence. }
  split.
  - apply members_In. split; [assumption|]. split; [|assumption].
    unfold rootOf in E. destruct (linkPrecedence c); [left | right]; congruence.
  - exists x. split; [|split; [assumption|]].
    + apply filter_unique.
      * now apply NoDup_map_filter.
      * apply members_In. auto.
      * now apply isPrimary_true.
      * intros m Hm Pm. apply members_In in Hm. destruct Hm as [Hm [Hr _]].
        apply isPrimary_true in Pm. now rewrite (Hprim m Hm Pm Hr).
    + intros m Hm. apply members_In in Hm. destruct Hm as [Hm [Hr _]].
      destruct (linkPrecedence m) eqn:Pm.
      * left. now apply Hprim.
      * destruct Hr as [Hr | Hr]; [left | right; auto].
        apply (unique_id _ _ _ N Hm Hx). congruence.
Qed.

(** Without store faults the data model gives one primary to each cluster,
    request after request. *)
Lemma unfaulted_onePrimaryPerCluster : forall orderBy,
    (forall l, Permutation (orderBy l) l) ->
    forall s0 s,
      reachableUnfaulted orderBy s0 s -> dataModel s0 ->
      onePrimaryPerCluster (rows s).
Proof.
  intros orderBy P s0 s R D. apply dataModel_onePrimaryPerCluster.
  now apply (unfaulted_dataModel orderBy P s0).
Qed.

(** Every table reached without store faults is reached. *)
Lemma unfaulted_reachable : forall orderBy s0 s,
    reachableUnfaulted orderBy s0 s -> reachable orderBy s0 s.
Proof.
  intros orderBy s0 s R. induction R as [|s now req R IH].
  - apply reach_start.
  - now apply reach_request.
Qed.


(** ** The number of roots of a request *)

Section RootBound.

Variable orderBy : list Contact -> list Contact.
Hypothesis orderBy_perm : forall l, Permutation (orderBy l) l.

(** Roots reached through the same key of the request coincide. *)
Lemma roots_by_key : forall s e p r1 r2 c1 c2,
    keysAgree (rows s) ->
    In c1 (rows s) -> In c2 (rows s) ->
    deletedAt c1 = None -> deletedAt c2 = None ->
    rootOf c1 = Some r1 -> rootOf c2 = Some r2 ->
    (truthy e = true /\ email c1 = e /\ email c2 = e) \/
    (truthy p = true /\ phoneNumber c1 = p /\ phoneNumber c2 = p) ->
    r1 = r2.
Proof.
  intros s e p r1 r2 c1 c2 K H1 H2 D1 D2 E1 E2 Hk.
  assert (S : sharesKey c1 c2).
  { destruct Hk as [[T [A B]] | [T [A B]]]; [left | right];
      (split; [now rewrite A | congruence]). }
  pose proof (K c1 c2 H1 H2 D1 D2 S). congruence.
Qed.

Lemma rootsOf_NoDup : forall s e p, NoDup (rootsOf orderBy s e p).
Proof. intros. apply collectPrimaryIds_NoDup. Qed.

(** With every key in one cluster, a request has at most two roots. *)
Lemma consistent_roots_le_2 : forall s e p,
    consistent s -> List.length (rootsOf orderBy s e p) <= 2.
Proof.
  intros s e p [_ K].
  pose proof (rootsOf_NoDup s e p) as N.
  assert (Hroot : forall r, In r (rootsOf orderBy s e p) ->
            exists c, In c (rows s) /\ deletedAt c = None /\ rootOf c = Some r /\
                      ((truthy e = true /\ email c = e) \/
                       (truthy p = true /\ phoneNumber c = p))).
  { intros r Hr. apply (rootsOf_In orderBy orderBy_perm) in Hr.
    destruct Hr as [c [Hc [Hm E]]]. apply matchWhere_spec in Hm.
    exists c. tauto. }
  destruct (rootsOf orderBy s e p) as [|r1 [|r2 [|r3 t]]]; cbn; try lia.
  exfalso.
  destruct (Hroot r1) as [c1 [H1 [D1 [E1 K1]]]]; [cbn; auto|].
  destruct (Hroot r2) as [c2 [H2 [D2 [E2 K2]]]]; [cbn; auto|].
  destruct (Hroot r3) as [c3 [H3 [D3 [E3 K3]]]]; [cbn; auto|].
  inversion N as [|? ? N1 N']; subst. inversion N' as [|? ? N2 _]; subst.
  assert (N12 : r1 <> r2) by (intros ->; apply N1; now left).
  assert (N13 : r1 <> r3) by (intros ->; apply N1; right; now left).
  assert (N23 : r2 <> r3) by (intros ->; apply N2; now left).
  destruct K1 as [[T1 A1] | [T1 A1]], K2 as [[T2 A2] | [T2 A2]],
      K3 as [[T3 A3] | [T3 A3]];
    first
      [ apply N12; eapply (roots_by_key s e p r1 r2 c1 c2); eauto; tauto
      | apply N13; eapply (roots_by_key s e p r1 r3 c1 c3); eauto; tauto
      | apply N23; eapply (roots_by_key s e p r2 r3 c2 c3); eauto; tauto ].
Qed.

End RootBound.

(** ** The two orderings meet the contract *)

Section SortFacts.

Variable before : Contact -> Contact -> bool.
Hypothesis before_le : forall a b, before a b = true -> createdAt a <= createdAt b.
Hypothesis before_ge : forall a b, before a b = false -> createdAt b <= createdAt a.

Lemma insertBy_perm : forall c l, Permutation (insertBy before c l) (c :: l).
Proof.
  intros c l. induction l as [|h t IH]; cbn; [apply Permutation_refl|].
  destruct (before c h); [apply Permutation_refl|].
  eapply perm_trans; [apply perm_skip, IH | apply perm_swap].
Qed.

Lemma sortBy_perm : forall l, Permutation (sortBy before l) l.
Proof.
  induction l as [|h t IH]; cbn; [constructor|].
  eapply perm_trans; [apply insertBy_perm | now apply perm_skip].
Qed.

Lemma insertBy_sorted : forall c l,
    StronglySorted (fun a b => createdAt a <= createdAt b) l ->
    StronglySorted (fun a b => createdAt a <= createdAt b) (insertBy before c l).
Proof.
  intros c l S. induction S as [|h t S IH F]; cbn.
  - repeat constructor.
  - destruct (before c h) eqn:B.
    + constructor; [now constructor|].
      apply before_le in B. constructor; [assumption|].
      eapply Forall_impl; [|exact F]. cbn. intros x Hx. lia.
    + constructor; [assumption|].
      apply before_ge in B.
      eapply Permutation_Forall; [apply Permutation_sym, insertBy_perm|].
      now constructor.
Qed.

Lemma sortBy_sorted : forall l,
    StronglySorted (fun a b => createdAt a <= createdAt b) (sortBy before l).
Proof.
  induction l as [|h t IH]; cbn; [constructor | now apply insertBy_sorted].
Qed.

Lemma sortBy_createdAtAsc : createdAtAsc (sortBy before).
Proof. split; [apply sortBy_perm | apply sortBy_sorted]. Qed.

End SortFacts.

Lemma sortByCreatedAt_asc : createdAtAsc sortByCreatedAt.
Proof.
  apply sortBy_createdAtAsc; unfold byCreatedAt; intros a b H.
  - now apply Nat.leb_le.
  - apply Nat.leb_gt in H. lia.
Qed.

Lemma sortByCreatedAtIdDesc_asc : createdAtAsc sortByCreatedAtIdDesc.
Proof.
  apply sortBy_createdAtAsc; unfold byCreatedAtThenIdDesc; intros a b H.
  - apply orb_true_iff in H. destruct H as [H | H].
    + apply Nat.ltb_lt in H. lia.
    + apply andb_true_iff in H. destruct H as [H _]. apply Nat.eqb_eq in H. lia.
  - apply orb_false_iff in H. destruct H as [H _]. apply Nat.ltb_ge in H. lia.
Qed.

(** ** The composer finds the root *)

Lemma find_exists : forall (f : Contact -> bool) l x,
    In x l -> f x = true -> exists y, find f l = Some y /\ In y l /\ f y = true.
Proof.
  induction l as [|h t IH]; intros x Hx Fx; [destruct Hx|].
  cbn. destruct (f h) eqn:Fh.
  - exists h. split; [reflexivity|]. split; [now left | assumption].
  - destruct Hx as [-> | Hx]; [congruence|].
    destruct (IH x Hx Fx) as [y [E [Hy Fy]]]. exists y.
    split; [assumption|]. split; [now right | assumption].
Qed.

Lemma composeOutcome_found : forall r cl x,
    In x cl -> id x = r ->
    exists prim emails phones secs,
      find (fun c => Nat.eqb (id c) r) cl = Some prim /\
      In prim cl /\ id prim = r /\
      composeLists r prim cl = (emails, phones, secs) /\
      composeOutcome r cl
      = Returned (mkResponse 200 (contactJson r emails phones secs)).
Proof.
  intros r cl x Hx Ex.
  destruct (find_exists (fun c => Nat.eqb (id c) r) cl x Hx) as [prim [E [Hp Fp]]].
  { now apply Nat.eqb_eq. }
  apply Nat.eqb_eq in Fp.
  destruct (composeLists r prim cl) as [[emails phones] secs] eqn:El.
  exists prim, emails, phones, secs. unfold composeOutcome. rewrite E, El. auto.
Qed.

Lemma contactJson_primary : forall r emails phones secs st,
    contactField "primaryContatctId"
                 (mkResponse st (contactJson r emails phones secs))
    = Some (JNum r).
Proof. reflexivity. Qed.

Section Extending.

Variable orderBy : list Contact -> list Contact.
Hypothesis orderBy_perm : forall l, Permutation (orderBy l) l.

Lemma extendStore_incl : forall now e p r s c,
    In c (rows s) -> In c (rows (extendStore orderBy now e p r s)).
Proof.
  intros now e p r s c H. unfold extendStore.
  destruct (extends orderBy s e p r); [|assumption].
  cbn. apply in_or_app. now left.
Qed.

Lemma extendedCluster_incl : forall now e p r s c,
    In c (clusterOf orderBy s r) ->
    In c (extendedCluster orderBy now e p r s).
Proof.
  intros now e p r s c H. unfold extendedCluster.
  destruct (extends orderBy s e p r); [|assumption].
  apply in_or_app. now left.
Qed.

(** When the root is a row that is not deleted, the handler answers 200
    with that root. *)
Lemma composed_ok : forall now e p r s x,
    In x (rows s) -> id x = r -> deletedAt x = None ->
    exists prim emails phones secs,
      In prim (extendedCluster orderBy now e p r s) /\ id prim = r /\
      composeLists r prim (extendedCluster orderBy now e p r s)
      = (emails, phones, secs) /\
      composeOutcome r (extendedCluster orderBy now e p r s)
      = Returned (mkResponse 200 (contactJson r emails phones secs)).
Proof.
  intros now e p r s x Hx Ex Dx.
  destruct (composeOutcome_found r (extendedCluster orderBy now e p r s) x)
    as [prim [emails [phones [secs [_ H]]]]].
  - apply extendedCluster_incl. apply (clusterOf_In orderBy orderBy_perm). auto.
  - assumption.
  - exists prim, emails, phones, secs. tauto.
Qed.

End Extending.

(** ** Which primary survives a merge *)

Section Survivor.

Variable orderBy : list Contact -> list Contact.
Hypothesis orderBy_perm : forall l, Permutation (orderBy l) l.

(** With two roots or more under the data model, the merger has a survivor
    to pick, and the handler goes on with the merged table. *)
Lemma merge_resolved : forall s e p,
    dataModel s -> 1 < List.length (rootsOf orderBy s e p) ->
    exists o others,
      primariesOf orderBy s (rootsOf orderBy s e p) = o :: others /\
      resolved orderBy s e p
      = Some (mergeStore (id o) (map id others) s, id o) /\
      deletedAt o = None /\
      mergeRow (id o) (map id others) o = o.
Proof.
  intros s e p [W H] Hlen.
  destruct (rootsOf orderBy s e p) as [|r [|r' ids]] eqn:E;
    [cbn in Hlen; lia | cbn in Hlen; lia |].
  rewrite <- E.
  destruct (roots_are_live orderBy orderBy_perm s e p r H) as [x [Hx [Ex [Px Dx]]]].
  { rewrite E. now left. }
  assert (Hin : In x (primariesOf orderBy s (rootsOf orderBy s e p))).
  { apply (primariesOf_In orderBy orderBy_perm). split; [assumption|].
    rewrite Ex, E. now left. }
  destruct (primariesOf orderBy s (rootsOf orderBy s e p)) as [|o others] eqn:Ep;
    [destruct Hin|].
  exists o, others. split; [reflexivity|].
  destruct (survivor_facts orderBy orderBy_perm s e p o others W
              (hierarchy_linked _ H) Ep) as [Ho [Po [Hr [Hn _]]]].
  split.
  - unfold resolved. rewrite E. rewrite E in Ep. cbv iota beta. now rewrite Ep.
  - destruct (roots_are_live orderBy orderBy_perm s e p (id o) H Hr)
      as [y [Hy [Ey [_ Dy]]]].
    destruct W as [N _]. rewrite (unique_id _ _ _ N Hy Ho Ey) in Dy.
    split; [assumption|].
    apply mergeRow_untouched; [assumption|]. unfold linkedIdIn.
    specialize (H o Ho). rewrite Po in H. now rewrite H.
Qed.

End Survivor.

(** ** Known values of a cluster *)

Lemma includes_In : forall x l, includes x l = true <-> In x l.
Proof.
  intros x l. unfold includes. rewrite existsb_exists. split.
  - intros [y [Hy E]]. apply String.eqb_eq in E. now subst.
  - intros H. exists x. split; [assumption | apply String.eqb_refl].
Qed.

Lemma truthyValues_In : forall x l,
    In x (truthyValues l) <-> x <> "" /\ In (Some x) l.
Proof.
  intros x l. induction l as [|[s|] t IH]; cbn.
  - tauto.
  - destruct (String.eqb_spec s "") as [-> | Hs].
    + rewrite IH. split; [tauto|]. intros [Hx [E | H]]; [congruence | tauto].
    + cbn. rewrite IH. split.
      * intros [-> | [Hx H]]; [split; [assumption | now left] | tauto].
      * intros [Hx [E | H]]; [left; congruence | tauto].
  - rewrite IH. split; [tauto|]. intros [Hx [E | H]]; [discriminate | tauto].
Qed.

Lemma isNew_false : forall v known,
    isNew v known = false <->
    truthy v = false \/ exists x, v = Some x /\ In x known.
Proof.
  intros [x|] known; cbn; [|split; auto].
  destruct (String.eqb x "") eqn:Ex; cbn; [split; auto|].
  destruct (includes x known) eqn:Ei; cbn.
  - apply includes_In in Ei. split; [eauto | reflexivity].
  - split; [discriminate|]. intros [H | [y [E H]]]; [discriminate|].
    inversion E; subst. apply includes_In in H. congruence.
Qed.

Lemma isNew_true : forall v known,
    isNew v known = true <-> exists x, v = Some x /\ x <> "" /\ ~ In x known.
Proof.
  intros [x|] known; cbn; [|split; [discriminate | intros [x [E _]]; discriminate]].
  rewrite andb_true_iff, negb_true_iff, negb_true_iff.
  rewrite String.eqb_neq. rewrite <- not_true_iff_false, includes_In.
  split.
  - intros [Hx Hn]. exists x. auto.
  - intros [y [E [Hy Hn]]]. inversion E; subst. auto.
Qed.

Lemma single_root : forall (l : list nat) r,
    NoDup l -> (forall x, In x l -> x = r) -> l <> [] -> l = [r].
Proof.
  intros [|a [|b t]] r N H Hne; [congruence | |].
  - now rewrite (H a (or_introl eq_refl)).
  - exfalso. inversion N as [|? ? Hn _]; subst. apply Hn.
    rewrite (H a), (H b); cbn; auto.
Qed.

Section Idempotent.

Variable orderBy : list Contact -> list Contact.
Hypothesis orderBy_perm : forall l, Permutation (orderBy l) l.

(** After the extender has run for a request, the request carries nothing
    new for the same root. *)
Lemma extends_after_extend : forall now e p r s,
    extends orderBy (extendStore orderBy now e p r s) e p r = false.
Proof.
  intros now e p r s. unfold extendStore.
  destruct (extends orderBy s e p r) eqn:X; [|assumption].
  set (n := newSecondaryRow s now e p r).
  assert (Hn : In n (clusterOf orderBy (insert s n) r)).
  { apply (clusterOf_In orderBy orderBy_perm). cbn.
    split; [apply in_or_app; right; now left | auto]. }
  unfold extends. apply orb_false_iff. split; apply isNew_false.
  - destruct (truthy e) eqn:T; [right | now left].
    destruct (truthy_Some _ T) as [x [-> Hx]]. exists x. split; [reflexivity|].
    apply truthyValues_In. split; [assumption|].
    apply in_map_iff. exists n. split; [|assumption].
    cbn. now apply orNull_truthy.
  - destruct (truthy p) eqn:T; [right | now left].
    destruct (truthy_Some _ T) as [x [-> Hx]]. exists x. split; [reflexivity|].
    apply truthyValues_In. split; [assumption|].
    apply in_map_iff. exists n. split; [|assumption].
    cbn. now apply orNull_truthy.
Qed.

(** After a merge, every row that matches the request has the survivor as
    its root. *)
Lemma merged_matches_root : forall s e p o others a,
    dataModel s ->
    primariesOf orderBy s (rootsOf orderBy s e p) = o :: others ->
    In a (rows s) -> matchWhere (conditionsOf e p) a = true ->
    rootOf (mergeRow (id o) (map id others) a) = Some (id o).
Proof.
  intros s e p o others a [W H] Ep Ha Hm.
  destruct (survivor_facts orderBy orderBy_perm s e p o others W
              (hierarchy_linked _ H) Ep) as [Ho [Po [Hr [Hn [Hdem Hall]]]]].
  assert (Hprim : forall x, In x (rows s) -> In (id x) (map id others) ->
                            linkPrecedence x = primary).
  { intros x Hx Hi. now apply Hdem. }
  destruct (matching_has_root orderBy orderBy_perm s e p a H Ha Hm) as [x [Ex Hx]].
  rewrite (rootOf_mergeRow _ _ _ a H Ha Hprim), Ex. cbn. f_equal.
  unfold mergedRoot. destruct (Hall x Hx) as [-> | Hin].
  - apply memId_false in Hn. now rewrite Hn.
  - apply memId_In in Hin. now rewrite Hin.
Qed.

Lemma matchWhere_mergeRow : forall ks root others a,
    matchWhere ks (mergeRow root others a) = matchWhere ks a.
Proof.
  intros ks root others a. unfold matchWhere.
  rewrite mergeRow_deletedAt. f_equal.
  induction ks as [|k t IH]; cbn; [reflexivity|]. rewrite IH. f_equal.
  destruct k; cbn; now rewrite ?mergeRow_email, ?mergeRow_phoneNumber.
Qed.

End Idempotent.

(** ** When the extender creates a row *)

Section Extender.

Variable orderBy : list Contact -> list Contact.
Hypothesis orderBy_perm : forall l, Permutation (orderBy l) l.

Lemma clusterOf_members : forall s r,
    Permutation (clusterOf orderBy s r) (members (rows s) r).
Proof. intros s r. apply orderBy_perm. Qed.

Lemma known_In : forall (f : Contact -> option string) s r v,
    In v (map f (clusterOf orderBy s r)) <-> In v (map f (members (rows s) r)).
Proof.
  intros f s r v. split; apply Permutation_in, Permutation_map;
    [apply clusterOf_members | apply Permutation_sym, clusterOf_members].
Qed.

Lemma isNew_absentFrom : forall (f : Contact -> option string) s r v,
    isNew v (truthyValues (map f (clusterOf orderBy s r))) = true <->
    absentFrom v (map f (members (rows s) r)).
Proof.
  intros f s r v. rewrite isNew_true. unfold absentFrom.
  split; intros [x [E [Hx Hn]]]; exists x; (split; [assumption|]);
    (split; [assumption|]); intros Hin; apply Hn.
  - apply truthyValues_In. split; [assumption|]. now apply known_In.
  - apply truthyValues_In in Hin. apply known_In. tauto.
Qed.

Lemma extends_spec : forall s e p r,
    extends orderBy s e p r = true <->
    absentFrom e (map email (members (rows s) r)) \/
    absentFrom p (map phoneNumber (members (rows s) r)).
Proof.
  intros s e p r. unfold extends.
  now rewrite orb_true_iff, !isNew_absentFrom.
Qed.

Lemma afterRequest_resolved : forall now req s s' root,
    rejected req = false ->
    resolved orderBy s (req_email req) (req_phoneNumber req) = Some (s', root) ->
    afterRequest orderBy now req s
    = extendStore orderBy now (req_email req) (req_phoneNumber req) root s'.
Proof.
  intros now req s s' root Hrej Hres. unfold afterRequest. rewrite Hrej, Hres.
  unfold resolved in Hres.
  destruct (rootsOf orderBy s (req_email req) (req_phoneNumber req));
    [discriminate | reflexivity].
Qed.

End Extender.

(** ** The composer's lists *)

Lemma fold_pushIfNew : forall (f : Contact -> option string) l acc,
    fold_left (fun a c => pushIfNew (f c) a) l acc
    = acc ++ dedupeFrom acc (truthyValues (map f l)).
Proof.
  intros f. induction l as [|c l IH]; intros acc; cbn.
  - now rewrite app_nil_r.
  - rewrite IH. unfold pushIfNew. destruct (f c) as [x|]; [|reflexivity].
    cbn. destruct (String.eqb x ""); cbn; [reflexivity|].
    destruct (includes x acc); cbn; [reflexivity|].
    now rewrite <- app_assoc.
Qed.

Lemma fold_composeStep : forall root l a b c,
    fold_left (composeStep root) l (a, b, c)
    = (fold_left (fun acc x => pushIfNew (email x) acc) (filter (notRoot root) l) a,
       fold_left (fun acc x => pushIfNew (phoneNumber x) acc)
                 (filter (notRoot root) l) b,
       c ++ map id (filter (notRoot root) l)).
Proof.
  intros root. induction l as [|x l IH]; intros a b c.
  - cbn. now rewrite app_nil_r.
  - cbn [fold_left filter]. unfold composeStep at 2.
    destruct (Nat.eqb (id x) root) eqn:Ex.
    + replace (notRoot root x) with false by (unfold notRoot; now rewrite Ex).
      apply IH.
    + replace (notRoot root x) with true by (unfold notRoot; now rewrite Ex).
      rewrite IH. cbn. now rewrite <- app_assoc.
Qed.

Lemma pushIfNew_first : forall v rest,
    pushIfNew v [] ++ dedupeFrom (pushIfNew v []) rest
    = dedupe (truthyValues [v] ++ rest).
Proof.
  intros [x|] rest; cbn; [|reflexivity].
  destruct (String.eqb x ""); reflexivity.
Qed.

Lemma truthyValues_app : forall a b,
    truthyValues (a ++ b) = truthyValues a ++ truthyValues b.
Proof.
  induction a as [|[x|] a IH]; intros b; cbn; [reflexivity | | apply IH].
  destruct (String.eqb x ""); cbn; now rewrite IH.
Qed.

(** The composer's lists are the de-duplicated values of the primary
    followed by the other members, in the order of the cluster. *)
Lemma composeLists_spec : forall root prim cluster,
    composeLists root prim cluster
    = (dedupe (truthyValues
                 (map email (prim :: filter (notRoot root) cluster))),
       dedupe (truthyValues
                 (map phoneNumber (prim :: filter (notRoot root) cluster))),
       map id (filter (notRoot root) cluster)).
Proof.
  intros root prim cluster. unfold composeLists.
  rewrite fold_composeStep, !fold_pushIfNew, !pushIfNew_first. cbn [app map].
  now rewrite <- !(truthyValues_app [_]).
Qed.

Lemma dedupeFrom_In : forall l seen x,
    In x (dedupeFrom seen l) <-> In x l /\ ~ In x seen.
Proof.
  induction l as [|h t IH]; intros seen x; cbn; [tauto|].
  destruct (includes h seen) eqn:E.
  - apply includes_In in E. rewrite IH. split; [tauto|].
    intros [[-> | H] Hn]; [contradiction | tauto].
  - assert (Hh : ~ In h seen).
    { intros H. apply includes_In in H. congruence. }
    cbn. rewrite IH, in_app_iff. cbn. split.
    + intros [<- | [H Hn]]; [tauto|]. split; [tauto|]. tauto.
    + intros [[<- | H] Hn]; [tauto|].
      destruct (String.eqb_spec h x) as [-> | Hne]; [tauto|].
      right. split; [assumption|]. intros [Hs | [Hs | []]]; tauto.
Qed.

Lemma dedupeFrom_NoDup : forall l seen, NoDup (dedupeFrom seen l).
Proof.
  induction l as [|h t IH]; intros seen; cbn; [constructor|].
  destruct (includes h seen); [apply IH|].
  constructor; [|apply IH].
  intros H. apply dedupeFrom_In in H. destruct H as [_ Hn]. apply Hn.
  apply in_or_app. right. now left.
Qed.

Lemma dedupe_In : forall l x, In x (dedupe l) <-> In x l.
Proof. intros l x. unfold dedupe. rewrite dedupeFrom_In. cbn. tauto. Qed.

Lemma dedupe_NoDup : forall l, NoDup (dedupe l).
Proof. intros l. apply dedupeFrom_NoDup. Qed.

(** The first value of the primary, when it has one, is at index 0. *)
Lemma dedupe_head : forall v rest,
    truthy v = true ->
    nth_error (dedupe (truthyValues (v :: rest))) 0 = v.
Proof.
  intros v rest T. destruct (truthy_Some _ T) as [x [-> Hx]].
  cbn. apply String.eqb_neq in Hx. now rewrite Hx.
Qed.

Lemma StronglySorted_snoc : forall (l : list Contact) n,
    StronglySorted (fun a b => createdAt a <= createdAt b) l ->
    (forall c, In c l -> createdAt c <= createdAt n) ->
    StronglySorted (fun a b => createdAt a <= createdAt b) (l ++ [n]).
Proof.
  intros l n S H. induction S as [|h t S IH F]; cbn.
  - repeat constructor.
  - constructor.
    + apply IH. intros c Hc. apply H. now right.
    + apply Forall_app. split; [assumption|].
      constructor; [|constructor]. apply H. now left.
Qed.

Lemma filter_none : forall (f : Contact -> bool) l,
    (forall x, In x l -> f x = false) -> filter f l = [].
Proof.
  intros f l H. induction l as [|h t IH]; [reflexivity|].
  cbn. rewrite (H h (or_introl eq_refl)). apply IH.
  intros x Hx. apply H. now right.
Qed.

Lemma dedupe_single : forall v, dedupe (truthyValues [v]) = truthyValues [v].
Proof.
  intros [x|]; cbn; [|reflexivity]. destruct (String.eqb x ""); reflexivity.
Qed.

(** ** The response of a request *)

Section Composer.

Variable orderBy : list Contact -> list Contact.
Hypothesis orderBy_perm : forall l, Permutation (orderBy l) l.
Hypothesis orderBy_sorted :
  forall l, StronglySorted (fun a b => createdAt a <= createdAt b) (orderBy l).

(** Under the data model a request with a root resolves it to a primary
    that is not deleted. *)
Lemma resolved_root : forall s e p,
    dataModel s -> rootsOf orderBy s e p <> [] ->
    exists s' root x,
      resolved orderBy s e p = Some (s', root) /\
      In x (rows s') /\ id x = root /\ linkPrecedence x = primary /\
      deletedAt x = None /\
      (forall c', In c' (rows s') ->
                  exists c, In c (rows s) /\ createdAt c' = createdAt c).
Proof.
  intros s e p D Hne.
  destruct (rootsOf orderBy s e p) as [|r [|r' ids]] eqn:E; [congruence| |].
  - destruct D as [W H].
    destruct (roots_are_live orderBy orderBy_perm s e p r H)
      as [x [Hx [Ex [Px Dx]]]]; [rewrite E; now left|].
    exists s, r, x. unfold resolved. rewrite E.
    repeat (split; [assumption || reflexivity|]). eauto.
  - assert (Hlen : 1 < List.length (rootsOf orderBy s e p)).
    { rewrite E. cbn. lia. }
    destruct (merge_resolved orderBy orderBy_perm s e p D Hlen)
      as [o [others [Ep [Er [Do Ko]]]]].
    destruct D as [W H].
    destruct (survivor_facts orderBy orderBy_perm s e p o others W
                (hierarchy_linked _ H) Ep) as [Ho [Po _]].
    exists (mergeStore (id o) (map id others) s), (id o), o.
    split; [assumption|]. rewrite mergeStore_rows.
    split; [apply in_map_iff; exists o; auto|].
    repeat (split; [assumption || reflexivity|]).
    intros c' Hc'. apply in_map_iff in Hc'. destruct Hc' as [c [<- Hc]].
    exists c. split; [assumption | apply mergeRow_createdAt].
Qed.

Lemma extendedCluster_members : forall now e p r s,
    Permutation (extendedCluster orderBy now e p r s)
                (members (rows (extendStore orderBy now e p r s)) r).
Proof.
  intros now e p r s. unfold extendedCluster, extendStore.
  destruct (extends orderBy s e p r); [|apply orderBy_perm].
  unfold members. cbn [rows insert]. rewrite filter_app.
  apply Permutation_app; [apply orderBy_perm|].
  cbn. unfold clusterWhere. cbn. rewrite Nat.eqb_refl, orb_true_r. cbn.
  apply Permutation_refl.
Qed.

Lemma extendedCluster_sorted : forall now e p r s,
    (forall c, In c (rows s) -> createdAt c <= now) ->
    StronglySorted (fun a b => createdAt a <= createdAt b)
                   (extendedCluster orderBy now e p r s).
Proof.
  intros now e p r s Hnow. unfold extendedCluster.
  destruct (extends orderBy s e p r); [|apply orderBy_sorted].
  apply StronglySorted_snoc; [apply orderBy_sorted|].
  intros c Hc. cbn. apply Hnow.
  apply (clusterOf_In orderBy orderBy_perm) in Hc. tauto.
Qed.

Lemma response_composed : forall now req s,
    dataModel s -> rejected req = false ->
    exists root prim cluster,
      snd (handle orderBy noFaults now req s)
      = Returned
          (mkResponse 200
             (contactJson root
                (dedupe (truthyValues
                   (map email (prim :: filter (notRoot root) cluster))))
                (dedupe (truthyValues
                   (map phoneNumber (prim :: filter (notRoot root) cluster))))
                (map id (filter (notRoot root) cluster)))) /\
      In prim cluster /\ id prim = root /\ linkPrecedence prim = primary /\
      Permutation cluster
        (members (rows (store (fst (handle orderBy noFaults now req s)))) root) /\
      ((forall c, In c (rows s) -> createdAt c <= now) ->
       StronglySorted (fun a b => createdAt a <= createdAt b) cluster).
Proof.
  intros now req s D Hrej.
  pose proof (afterRequest_dataModel orderBy orderBy_perm now req s D) as [[N' _] _].
  rewrite handle_response, handle_store. revert N'.
  set (e := req_email req) in *. set (p := req_phoneNumber req) in *.
  destruct (rootsOf orderBy s e p) as [|r0 ids0] eqn:E.
  - (* a new primary *)
    intros _. unfold responseOf, afterRequest. rewrite Hrej. fold e p. rewrite E.
    set (n := newRow s now (orNull e) (orNull p) None primary).
    exists (nextId s), n, [n].
    assert (Hf : filter (notRoot (nextId s)) [n] = []).
    { cbn. unfold notRoot. cbn. now rewrite Nat.eqb_refl. }
    rewrite Hf. cbn [map]. rewrite !dedupe_single.
    split; [reflexivity|]. split; [now left|]. split; [reflexivity|].
    split; [reflexivity|]. split; [|intros _; repeat constructor].
    unfold members. cbn [rows insert]. rewrite filter_app.
    rewrite filter_none.
    + cbn. unfold clusterWhere. cbn. now rewrite Nat.eqb_refl.
    + intros x Hx. destruct D as [[N B] H].
      destruct (clusterWhere (nextId s) x) eqn:C; [|reflexivity]. exfalso.
      apply clusterWhere_spec in C. destruct C as [[C | C] _].
      * specialize (B x Hx). lia.
      * specialize (H x Hx). destruct (linkPrecedence x); [congruence|].
        destruct H as [y [Hy [Ey _]]]. specialize (B y Hy).
        rewrite Ey in C. inversion C. lia.
  - (* an existing root *)
    assert (Hne : rootsOf orderBy s e p <> []) by (rewrite E; discriminate).
    destruct (resolved_root s e p D Hne)
      as [s' [root [x [Hres [Hx [Ex [Px [Dx Hc]]]]]]]].
    clear E r0 ids0.
    rewrite (afterRequest_resolved orderBy now req s s' root Hrej Hres).
    assert (Hresp : responseOf orderBy now req s
                    = match composeOutcome root
                              (extendedCluster orderBy now e p root s') with
                      | Threw _ => serverError
                      | Returned r => r
                      end).
    { unfold responseOf. rewrite Hrej. fold e p. rewrite Hres.
      destruct (rootsOf orderBy s e p); [congruence | reflexivity]. }
    rewrite Hresp. intros N'.
    destruct (composed_ok orderBy orderBy_perm now e p root s' x Hx Ex Dx)
      as [prim [emails [phones [secs [Hp [Ep [El Eo]]]]]]].
    rewrite composeLists_spec in El. inversion El; subst emails phones secs.
    exists root, prim, (extendedCluster orderBy now e p root s').
    rewrite Eo. split; [reflexivity|]. split; [assumption|]. split; [assumption|].
    split; [|split; [apply extendedCluster_members|]].
    + assert (Hpf : In prim (rows (extendStore orderBy now e p root s'))).
      { eapply Permutation_in in Hp; [|apply extendedCluster_members].
        apply members_In in Hp. tauto. }
      assert (Hxf : In x (rows (extendStore orderBy now e p root s')))
        by now apply extendStore_incl.
      rewrite (unique_id _ _ _ N' Hpf Hxf); [assumption | congruence].
    + intros Hnow. apply extendedCluster_sorted.
      intros c' Hc'. destruct (Hc c' Hc') as [c [Hin ->]]. now apply Hnow.
Qed.

End Composer.

(** ** Soft-deleted contacts *)

Section Deleted.

Variable orderBy : list Contact -> list Contact.
Hypothesis orderBy_perm : forall l, Permutation (orderBy l) l.


End Deleted.

(** ** The input guard *)

Lemma conditionsOf_never_empty : forall e p k,
    In k (conditionsOf e p) -> k <> CondEmail "" /\ k <> CondPhone "".
Proof.
  intros e p k H. unfold conditionsOf in H. apply in_app_or in H.
  destruct H as [H | H].
  - destruct e as [x|]; [|destruct H]. cbn in H.
    destruct (String.eqb_spec x "") as [-> | Hx]; cbn in H; [destruct H|].
    destruct H as [<- | []]. split; congruence.
  - destruct p as [x|]; [|destruct H]. cbn in H.
    destruct (String.eqb_spec x "") as [-> | Hx]; cbn in H; [destruct H|].
    destruct H as [<- | []]. split; congruence.
Qed.

Section Guard.

Variable orderBy : list Contact -> list Contact.

Lemma rejected_run : forall fl now req s,
    rejected req = true ->
    handle orderBy fl now req s = (mkWorld s [], Returned badRequest).
Proof.
  intros fl now req s H. unfold handle, run, identify, tryCatch.
  unfold rejected in H. now rewrite H.
Qed.

(** The row a request creates carries the request's values, [null] for an
    empty one. *)
Lemma created_row_fields : forall now req s c,
    wellKeyed s ->
    In c (rows (afterRequest orderBy now req s)) -> id c = nextId s ->
    email c = orNull (req_email req) /\
    phoneNumber c = orNull (req_phoneNumber req).
Proof.
  intros now req s c [N B] Hc Ec.
  assert (Hold : forall x, In x (rows s) -> id x <> nextId s).
  { intros x Hx. specialize (B x Hx). lia. }
  assert (Hext : forall r s', nextId s' = nextId s ->
             (forall x, In x (rows s') -> id x <> nextId s) ->
             In c (rows (extendStore orderBy now (req_email req)
                           (req_phoneNumber req) r s')) ->
             email c = orNull (req_email req) /\
             phoneNumber c = orNull (req_phoneNumber req)).
  { intros r s' En Ho Hin. unfold extendStore in Hin.
    destruct (extends orderBy s' _ _ r); [|now apply Ho in Hin].
    cbn in Hin. apply in_app_or in Hin.
    destruct Hin as [Hin | [<- | []]]; [now apply Ho in Hin | auto]. }
  unfold afterRequest in Hc.
  destruct (rejected req); [now apply Hold in Hc|].
  unfold resolved in Hc.
  destruct (rootsOf orderBy s (req_email req) (req_phoneNumber req))
    as [|r [|r' ids]].
  - cbn in Hc. apply in_app_or in Hc.
    destruct Hc as [Hc | [<- | []]]; [now apply Hold in Hc | auto].
  - now apply (Hext r s).
  - destruct (primariesOf orderBy s (r :: r' :: ids)) as [|o others];
      [now apply Hold in Hc|].
    apply (Hext (id o) (mergeStore (id o) (map id others) s)); auto.
    intros x Hx. rewrite mergeStore_rows in Hx. apply in_map_iff in Hx.
    destruct Hx as [x0 [<- Hx0]]. rewrite mergeRow_id. now apply Hold.
Qed.

End Guard.

(** ** The merger's writes inside a transaction *)

(** Under any fault schedule the transaction leaves the table as it was
    and throws, or applies both writes. *)
Lemma transaction_all_or_nothing : forall root others fl w,
    (exists cs, transaction (mergeWrites root others) fl w
                = (mkWorld (store w) cs, Threw StorageError)) \/
    (exists cs, transaction (mergeWrites root others) fl w
                = (mkWorld (mergeStore root others (store w)) cs, Returned tt)).
Proof.
  intros root others fl w.
  unfold transaction, mergeWrites, bind, updateMany, dbCall, mergeStore.
  destruct (fl (List.length (calls w))); cbn [store calls]; [left; eauto|].
  destruct (fl (List.length (calls w ++ [UpdateMany]))); cbn [store calls];
    [left | right]; eauto.
Qed.

(** Without the transaction, a fault at the second write leaves the first
    one in the table. *)
Lemma plain_writes_half_applied : forall root others fl w,
    fl (List.length (calls w)) = false ->
    fl (S (List.length (calls w))) = true ->
    exists cs, plain (mergeWrites root others) fl w
               = (mkWorld (demoteStore root others (store w)) cs,
                  Threw StorageError).
Proof.
  intros root others fl w H0 H1.
  unfold plain, mergeWrites, bind, updateMany, dbCall, demoteStore.
  rewrite H0. cbn [store calls]. rewrite length_app, Nat.add_comm. cbn.
  rewrite H1. eauto.
Qed.

(** ** The transactional handler under store faults *)

Section Faulty.

Variable orderBy : list Contact -> list Contact.
Hypothesis orderBy_perm : forall l, Permutation (orderBy l) l.

Lemma findMany_store : forall wh fl w,
    store (fst (findMany orderBy wh fl w)) = store w /\
    (forall l, snd (findMany orderBy wh fl w) = Returned l ->
               l = orderBy (filter wh (rows (store w)))).
Proof.
  intros wh fl w. unfold findMany, dbCall.
  destruct (fl (List.length (calls w))); cbn; split; try reflexivity.
  - discriminate.
  - intros l E. now inversion E.
Qed.

(** Whatever fails, the extender leaves the table as it is or adds its row. *)
Lemma extend_store : forall now e p r fl w,
    store (fst (extend orderBy now e p r fl w)) = store w \/
    store (fst (extend orderBy now e p r fl w))
    = insert (store w) (newSecondaryRow (store w) now e p r).
Proof.
  intros now e p r fl w. unfold extend, bind.
  pose proof (findMany_store (clusterWhere r) fl w) as [Hs _].
  destruct (findMany orderBy (clusterWhere r) fl w) as [w1 [err|cluster]];
    cbn in Hs; [now left|].
  destruct (isNew _ _ || isNew _ _); [|now left].
  unfold create, dbCall. rewrite Hs.
  destruct (fl (List.length (calls w1))); cbn; [now left | now right].
Qed.

(** Whatever fails, the resolver with the transaction leaves the table as it
    is, or returns the survivor with both writes of the merger applied. *)
Lemma resolveRoot_transaction : forall ids fl w w' out,
    resolveRoot orderBy transaction ids fl w = (w', out) ->
    (store w' = store w /\
     (forall r, out = Returned r -> ids = [r] \/ ids = [])) \/
    (exists oldest others,
        primariesOf orderBy (store w) ids = oldest :: others /\
        store w' = mergeStore (id oldest) (map id others) (store w) /\
        out = Returned (id oldest)).
Proof.
  intros ids fl w w' out E. unfold resolveRoot in E.
  destruct (1 <? List.length ids) eqn:L.
  - unfold bind in E.
    pose proof (findMany_store (idIn ids) fl w) as [Hs Hl].
    destruct (findMany orderBy (idIn ids) fl w) as [w1 [err|primaries]];
      cbn in Hs, Hl.
    { inversion E; subst. left. split; [assumption | discriminate]. }
    rewrite (Hl primaries eq_refl) in E. unfold primariesOf.
    destruct (orderBy (filter (idIn ids) (rows (store w)))) as [|oldest others].
    { inversion E; subst. left. split; [assumption | discriminate]. }
    destruct (transaction_all_or_nothing (id oldest) (map id others) fl w1)
      as [[cs T] | [cs T]]; rewrite T in E; inversion E; subst; cbn.
    + left. split; [assumption | discriminate].
    + right. exists oldest, others. rewrite Hs. auto.
  - inversion E; subst. left. split; [reflexivity|]. intros r Er. inversion Er.
    apply Nat.ltb_ge in L. destruct ids as [|a [|b t]]; cbn in *; auto; lia.
Qed.

(** Under any fault schedule the transactional handler keeps unique
    identifiers and the links to primaries. *)
Lemma identifyTx_linked : forall fl now e p s,
    wellKeyed s -> linkedToPrimary (rows s) ->
    wellKeyed (store (fst (run (identifyTx orderBy now e p) fl s))) /\
    linkedToPrimary (rows (store (fst (run (identifyTx orderBy now e p) fl s)))).
Proof.
  intros fl now e p s W L. unfold run, identifyTx.
  destruct (reconcile orderBy transaction now e p fl (mkWorld s []))
    as [wf outf] eqn:E.
  cbn [fst]. unfold reconcile, bind in E.
  pose proof (findMany_store (matchWhere (conditionsOf e p)) fl (mkWorld s []))
    as [Hs Hl].
  destruct (findMany orderBy (matchWhere (conditionsOf e p)) fl (mkWorld s []))
    as [w1 [err|matchingContacts]]; cbn in Hs, Hl.
  { injection E as <- <-. rewrite Hs. auto. }
  rewrite (Hl matchingContacts eq_refl) in E. fold (matching orderBy s e p) in E.
  fold (rootsOf orderBy s e p) in E.
  destruct (List.length (rootsOf orderBy s e p) =? 0) eqn:Z.
  - unfold createPrimary, bind, create, dbCall in E. rewrite Hs in E.
    destruct (fl (List.length (calls w1))); injection E as <- <-; cbn; [auto|].
    split; [now apply insert_wellKeyed|].
    apply insert_linkedToPrimary; [assumption | cbn; discriminate].
  - destruct (resolveRoot orderBy transaction (rootsOf orderBy s e p) fl w1)
      as [w2 out] eqn:ER.
    apply resolveRoot_transaction in ER. rewrite Hs in ER.
    destruct out as [err|root].
    { injection E as <- <-.
      destruct ER as [[-> _] | [o [others [_ [_ E0]]]]]; [auto | discriminate]. }
    assert (Hw2 : wellKeyed (store w2) /\ linkedToPrimary (rows (store w2)) /\
                  exists x, In x (rows (store w2)) /\ id x = root /\
                            linkPrecedence x = primary).
    { destruct ER as [[-> Hr] | [o [others [Ep [-> E0]]]]].
      - split; [assumption|]. split; [assumption|].
        apply (roots_are_primaries orderBy orderBy_perm s e p); [assumption|].
        destruct (Hr root eq_refl) as [-> | E0]; [now left|].
        rewrite E0 in Z. discriminate.
      - inversion E0; subst root.
        destruct (survivor_facts orderBy orderBy_perm s e p o others W L Ep)
          as [Ho [Po [_ [Hn _]]]].
        split; [now apply mergeStore_wellKeyed|].
        rewrite mergeStore_rows. split.
        + eapply merge_linkedToPrimary; eauto.
        + exists (mergeRow (id o) (map id others) o).
          split; [now apply in_map|].
          destruct (mergeRow_survivor (id o) (map id others) o Po Hn). auto. }
    destruct Hw2 as [W2 [L2 Hroot]].
    pose proof (extend_store now e p root fl w2) as X.
    destruct (extend orderBy now e p root fl w2) as [w3 [err|cluster]];
      cbn [fst] in X.
    + injection E as <- <-.
      destruct X as [-> | ->]; [auto|].
      split; [now apply insert_wellKeyed|].
      apply insert_linkedToPrimary; [assumption|].
      cbn. intros q Eq. inversion Eq. now subst.
    + rewrite (compose_run root cluster fl w3) in E. injection E as <- <-.
      destruct X as [-> | ->]; [auto|].
      split; [now apply insert_wellKeyed|].
      apply insert_linkedToPrimary; [assumption|].
      cbn. intros q Eq. inversion Eq. now subst.
Qed.

End Faulty.

(** ** Facts about the example tables *)

Lemma NoDup_123 : NoDup [1; 2; 3].
Proof. repeat constructor; cbn; intuition lia. Qed.

Lemma twoClusters_consistent : consistent twoClusters.
Proof.
  split; [split; [split|]|].
  - exact NoDup_123.
  - intros c H. rows_cases H; cbn; lia.
  - intros c H. rows_cases H; cbn; try reflexivity.
    exists primaryB. cbn. auto.
  - intros a b Ha Hb _ _ S. rows_cases Ha; rows_cases Hb;
      try reflexivity; destruct S as [[_ E] | [_ E]]; discriminate.
Qed.

(** [twoClusters] is what three requests make of the empty table. *)
Lemma twoClusters_unfaulted :
  reachableUnfaulted sortByCreatedAt emptyStore twoClusters.
Proof.
  change twoClusters with
    (store (fst (handle sortByCreatedAt noFaults 13
                   (mkRequest (Some "c@x.com") (Some "222"))
       (store (fst (handle sortByCreatedAt noFaults 12
                      (mkRequest (Some "b@x.com") (Some "222"))
          (store (fst (handle sortByCreatedAt noFaults 10
                         (mkRequest (Some "a@x.com") (Some "111"))
                         emptyStore))))))))).
  do 3 apply unfaulted_request. apply unfaulted_start.
Qed.

Lemma twoClusters_reachable : reachable sortByCreatedAt emptyStore twoClusters.
Proof. apply unfaulted_reachable. exact twoClusters_unfaulted. Qed.



Lemma tieStore_consistent : consistent tieStore.
Proof.
  split; [split; [split|]|].
  - repeat constructor; cbn; intuition lia.
  - intros c H. rows_cases H; cbn; lia.
  - intros c H. rows_cases H; cbn; reflexivity.
  - intros a b Ha Hb _ _ S. rows_cases Ha; rows_cases Hb;
      try reflexivity; destruct S as [[T E] | [T E]]; discriminate.
Qed.

Lemma sharedEmailStore_dataModel : dataModel sharedEmailStore.
Proof.
  split; [split|].
  - exact NoDup_123.
  - intros c H. rows_cases H; cbn; lia.
  - intros c H. rows_cases H; cbn; reflexivity.
Qed.

(** ** Rows of the table after a request *)

Section RowsAfter.

Variable orderBy : list Contact -> list Contact.

(** A request without a merge keeps every row as it is; a merge keeps
    every row up to the merger's two writes. *)
Lemma afterRequest_rows : forall now req s c,
    In c (rows s) ->
    (List.length (rootsOf orderBy s (req_email req) (req_phoneNumber req)) <= 1 ->
     In c (rows (afterRequest orderBy now req s))) /\
    (exists root others,
        In (mergeRow root others c) (rows (afterRequest orderBy now req s)) \/
        In c (rows (afterRequest orderBy now req s))).
Proof.
  intros now req s c Hc. unfold afterRequest.
  destruct (rejected req); [split; [auto | exists 0, []; auto]|].
  unfold resolved.
  destruct (rootsOf orderBy s (req_email req) (req_phoneNumber req))
    as [|r [|r' ids]].
  - assert (In c (rows (insert s (newRow s now (orNull (req_email req))
                                    (orNull (req_phoneNumber req)) None primary)))).
    { cbn. apply in_or_app. now left. }
    split; [auto | exists 0, []; auto].
  - assert (In c (rows (extendStore orderBy now (req_email req)
                          (req_phoneNumber req) r s))).
    { unfold extendStore. destruct (extends orderBy s _ _ r); [|assumption].
      cbn. apply in_or_app. now left. }
    split; [auto | exists 0, []; auto].
  - split; [cbn; lia|].
    destruct (primariesOf orderBy s (r :: r' :: ids)) as [|o others];
      [exists 0, []; auto|].
    exists (id o), (map id others). left.
    unfold extendStore. destruct (extends orderBy _ _ _ (id o)).
    + cbn [rows insert]. apply in_or_app. left.
      rewrite mergeStore_rows. now apply in_map.
    + rewrite mergeStore_rows. now apply in_map.
Qed.

End RowsAfter.

(** ** The tables a request can leave, whatever store calls are rejected *)



Section Stages.

Variable orderBy : list Contact -> list Contact.

(** How the merger's writes are issued: each way leaves none, the first or
    both of them in the table. *)
Variable atomically : M unit -> M unit.
Hypothesis atomically_stages : forall root others fl w w' o,
    atomically (mergeWrites root others) fl w = (w', o) ->
    (store w' = store w /\ exists e, o = Threw e) \/
    (store w' = demoteStore root others (store w) /\ exists e, o = Threw e) \/
    (store w' = mergeStore root others (store w) /\ o = Returned tt).



End Stages.


(** ** Soft-deleted rows under a merge *)

Section DeletedRows.

Variable orderBy : list Contact -> list Contact.
Hypothesis orderBy_perm : forall l, Permutation (orderBy l) l.



End DeletedRows.

(** * Properties of the specification *)

(** C1 (the handler of [routes/identify.ts]).  The merger's two writes are
    not one unit of work there: on the table [twoClusters], when the store
    rejects the second [updateMany], the request ends with status 500 and the
    first write stays.  Contact 2 is then a secondary while contact 3 still
    points to it; the table is neither the one before the request nor the
    merged one. *)
Theorem merger_writes_not_atomic :
  handle sortByCreatedAt (failAt 3) 20 bridgeRequest twoClusters
  = (mkWorld (demoteStore 1 [2] twoClusters)
             [FindMany; FindMany; UpdateMany; UpdateMany],
     Returned serverError) /\
  rows (demoteStore 1 [2] twoClusters)
  = [primaryA; demote 1 primaryB; secondaryOfB] /\
  demoteStore 1 [2] twoClusters <> twoClusters /\
  demoteStore 1 [2] twoClusters <> mergeStore 1 [2] twoClusters /\
  ~ linkedToPrimary (rows (demoteStore 1 [2] twoClusters)).
Proof.
  split; [reflexivity|]. split; [reflexivity|].
  split; [discriminate|]. split; [discriminate|].
  intros L.
  destruct (L secondaryOfB 2) as [r [Hr [Er Pr]]];
    [cbn; auto | reflexivity | reflexivity |].
  rows_cases Hr; discriminate.
Qed.

(** The revision that wraps the two writes in [prisma.$transaction] leaves
    the table untouched on the same input and fault. *)
Lemma merger_transaction_rolls_back :
  run (identifyTx sortByCreatedAt 20 (Some "a@x.com") (Some "222"))
      (failAt 3) twoClusters
  = (mkWorld twoClusters [FindMany; FindMany; UpdateMany; UpdateMany],
     Threw StorageError).
Proof. reflexivity. Qed.

(** C2 (the handler of [routes/identify.ts]).  A secondary is left linked
    to a secondary.  The table [twoClusters] is reached from the empty table
    by three requests and has every link pointing to a primary.  When the
    store rejects the second [updateMany] of the bridging request, contact 2
    is demoted while contact 3 keeps its [linkedId] 2: the table the request
    leaves has a non-deleted secondary linked to a secondary.  A later
    request for the first cluster is answered with status 200 and leaves the
    table as it is. *)
Theorem secondary_linked_to_secondary :
  reachable sortByCreatedAt emptyStore twoClusters /\
  linkedToPrimary (rows twoClusters) /\
  reachable sortByCreatedAt emptyStore
    (store (fst (handle sortByCreatedAt (failAt 3) 20 bridgeRequest twoClusters))) /\
  rows (store (fst (handle sortByCreatedAt (failAt 3) 20 bridgeRequest twoClusters)))
  = [primaryA; demote 1 primaryB; secondaryOfB] /\
  linkedId secondaryOfB = Some (id (demote 1 primaryB)) /\
  deletedAt secondaryOfB = None /\
  linkPrecedence (demote 1 primaryB) = secondary /\
  ~ linkedToPrimary
      (rows (store (fst (handle sortByCreatedAt (failAt 3) 20 bridgeRequest
                           twoClusters)))) /\
  handle sortByCreatedAt noFaults 21 (mkRequest (Some "a@x.com") (Some "111"))
    (store (fst (handle sortByCreatedAt (failAt 3) 20 bridgeRequest twoClusters)))
  = (mkWorld (mkStore [primaryA; demote 1 primaryB; secondaryOfB] 4)
             [FindMany; FindMany],
     Returned (mkResponse 200
                 (contactJson 1 ["a@x.com"; "b@x.com"] ["111"; "222"] [2]))).
Proof.
  pose proof twoClusters_reachable as R.
  split; [exact R|].
  split; [exact (hierarchy_linked _ (proj2 (proj1 twoClusters_consistent)))|].
  split; [now apply reach_request|].
  split; [reflexivity|]. split; [reflexivity|]. split; [reflexivity|].
  split; [reflexivity|]. split; [|reflexivity].
  intros L.
  destruct (L secondaryOfB 2) as [r [Hr [Er Pr]]];
    [cbn; auto | reflexivity | reflexivity |].
  rows_cases Hr; cbn in Er, Pr; discriminate.
Qed.

(** C3 (the handler of [routes/identify.ts]).  A cluster is left without a
    primary.  [twoClusters] is reached from the empty table and satisfies
    the data model.  In the table the bridging request leaves when the store
    rejects its second [updateMany], the members of the cluster of contact 2
    are the contacts 2 and 3, both secondaries: the cluster of contact 3 has
    no primary. *)
Theorem cluster_without_primary :
  dataModel twoClusters /\
  onePrimaryPerCluster (rows twoClusters) /\
  reachable sortByCreatedAt emptyStore
    (store (fst (handle sortByCreatedAt (failAt 3) 20 bridgeRequest twoClusters))) /\
  rootOf secondaryOfB = Some 2 /\
  members (rows (store (fst (handle sortByCreatedAt (failAt 3) 20 bridgeRequest
                               twoClusters)))) 2
  = [demote 1 primaryB; secondaryOfB] /\
  filter isPrimary
    (members (rows (store (fst (handle sortByCreatedAt (failAt 3) 20
                                  bridgeRequest twoClusters)))) 2) = [] /\
  ~ onePrimaryPerCluster
      (rows (store (fst (handle sortByCreatedAt (failAt 3) 20 bridgeRequest
                           twoClusters)))).
Proof.
  pose proof twoClusters_consistent as [D _].
  split; [exact D|].
  split; [now apply dataModel_onePrimaryPerCluster|].
  split; [apply reach_request; exact twoClusters_reachable|].
  split; [reflexivity|]. split; [reflexivity|]. split; [reflexivity|].
  intros O.
  destruct (O secondaryOfB) as [r [Er [_ [q [Eq _]]]]];
    [cbn; auto | reflexivity |].
  cbn in Er. injection Er as <-. discriminate Eq.
Qed.

(** C4, as the code has it.  When a request has two roots or more, the
    survivor is a primary whose [createdAt] is the earliest among the
    primaries of the roots; the response names it, it stays in the table as
    it was, and every other primary of the roots is demoted to a secondary
    linked to it.  In particular, of two such primaries created at
    [t1 < t2], the one created at [t2] is demoted.  The query orders by
    [createdAt] only. *)
Theorem survivor_is_earliest :
  forall orderBy, createdAtAsc orderBy ->
  forall now req s,
    dataModel s -> rejected req = false ->
    1 < List.length (rootsOf orderBy s (req_email req) (req_phoneNumber req)) ->
    exists o,
      In o (rows s) /\ linkPrecedence o = primary /\
      In (id o) (rootsOf orderBy s (req_email req) (req_phoneNumber req)) /\
      (forall x, In x (rows s) ->
                 In (id x) (rootsOf orderBy s (req_email req) (req_phoneNumber req)) ->
                 createdAt o <= createdAt x) /\
      (exists r, snd (handle orderBy noFaults now req s) = Returned r /\
                 status r = 200 /\
                 contactField "primaryContatctId" r = Some (JNum (id o))) /\
      In o (rows (store (fst (handle orderBy noFaults now req s)))) /\
      (forall x, In x (rows s) ->
                 In (id x) (rootsOf orderBy s (req_email req) (req_phoneNumber req)) ->
                 id x <> id o ->
                 In (demote (id o) x)
                    (rows (store (fst (handle orderBy noFaults now req s))))) /\
      (forall x1 x2,
          In x1 (rows s) -> In x2 (rows s) ->
          In (id x1) (rootsOf orderBy s (req_email req) (req_phoneNumber req)) ->
          In (id x2) (rootsOf orderBy s (req_email req) (req_phoneNumber req)) ->
          createdAt x1 < createdAt x2 ->
          x2 <> o /\
          In (demote (id o) x2)
             (rows (store (fst (handle orderBy noFaults now req s))))).
Proof.
  intros orderBy [orderBy_perm orderBy_sorted] now req s D Hrej Hlen.
  set (e := req_email req) in *. set (p := req_phoneNumber req) in *.
  destruct (merge_resolved orderBy orderBy_perm s e p D Hlen) as [o [others [Ep [Er [Do Ko]]]]].
  pose proof D as [W H].
  destruct (survivor_facts orderBy orderBy_perm s e p o others W
              (hierarchy_linked _ H) Ep) as [Ho [Po [Hr [Hn [Hdem Hall]]]]].
  assert (Hsplit : forall x, In x (rows s) -> In (id x) (rootsOf orderBy s e p) ->
                             x = o \/ In x others).
  { intros x Hx Hi.
    assert (Hx' : In x (primariesOf orderBy s (rootsOf orderBy s e p))).
    { apply (primariesOf_In orderBy orderBy_perm). auto. }
    rewrite Ep in Hx'. destruct Hx' as [E0 | Hx']; [left; now symmetry | now right]. }
  assert (Hafter : afterRequest orderBy now req s
                   = extendStore orderBy now e p (id o)
                       (mergeStore (id o) (map id others) s)).
  { unfold afterRequest. rewrite Hrej. fold e p. rewrite Er.
    destruct (rootsOf orderBy s e p); [cbn in Hlen; lia | reflexivity]. }
  assert (Hresp : responseOf orderBy now req s
                  = match composeOutcome (id o)
                            (extendedCluster orderBy now e p (id o)
                               (mergeStore (id o) (map id others) s)) with
                    | Threw _ => serverError
                    | Returned r => r
                    end).
  { unfold responseOf. rewrite Hrej. fold e p. rewrite Er.
    destruct (rootsOf orderBy s e p); [cbn in Hlen; lia | reflexivity]. }
  assert (Hom : In o (rows (mergeStore (id o) (map id others) s))).
  { rewrite mergeStore_rows. apply in_map_iff. exists o. auto. }
  assert (Hmin : forall x, In x (rows s) -> In (id x) (rootsOf orderBy s e p) ->
                           createdAt o <= createdAt x).
  { intros x Hx Hi. destruct (Hsplit x Hx Hi) as [E0 | Hin]; [rewrite E0; lia|].
    pose proof (orderBy_sorted
                  (filter (idIn (rootsOf orderBy s e p)) (rows s))) as S.
    unfold primariesOf in Ep. rewrite Ep in S.
    inversion S as [|? ? _ F]. rewrite Forall_forall in F. now apply F. }
  assert (Hdemoted : forall x, In x (rows s) ->
                               In (id x) (rootsOf orderBy s e p) -> id x <> id o ->
                               In (demote (id o) x)
                                  (rows (store (fst (handle orderBy noFaults now req s))))).
  { intros x Hx Hi Hne. rewrite handle_store, Hafter. apply extendStore_incl.
    rewrite mergeStore_rows. apply in_map_iff. exists x. split; [|assumption].
    apply mergeRow_demoted.
    destruct (Hsplit x Hx Hi) as [E0 | Hin]; [congruence | now apply in_map]. }
  exists o. split; [assumption|]. split; [assumption|]. split; [assumption|].
  split; [exact Hmin|]. split; [|split; [|split; [exact Hdemoted|]]].
  - rewrite handle_response, Hresp.
    destruct (composed_ok orderBy orderBy_perm now e p (id o)
                (mergeStore (id o) (map id others) s) o Hom eq_refl Do)
      as [prim [emails [phones [secs [_ [_ [_ ->]]]]]]].
    eexists. split; [reflexivity|]. split; reflexivity.
  - rewrite handle_store, Hafter. now apply extendStore_incl.
  - intros x1 x2 H1 H2 Hi1 Hi2 Hlt.
    pose proof (Hmin x1 H1 Hi1) as Hle.
    assert (Hne : x2 <> o) by (intros ->; lia).
    split; [exact Hne|]. apply Hdemoted; auto.
    intros E0. apply Hne. destruct W as [N _].
    exact (unique_id _ _ _ N H2 Ho E0).
Qed.

Lemma survivor_is_earliest_witness :
  exists o,
    In o (rows twoClusters) /\ linkPrecedence o = primary /\
    In (id o) (rootsOf sortByCreatedAt twoClusters (Some "a@x.com") (Some "222")) /\
    (forall x, In x (rows twoClusters) ->
               In (id x) (rootsOf sortByCreatedAt twoClusters
                            (Some "a@x.com") (Some "222")) ->
               createdAt o <= createdAt x) /\
    (exists r, snd (handle sortByCreatedAt noFaults 20 bridgeRequest twoClusters)
               = Returned r /\
               status r = 200 /\
               contactField "primaryContatctId" r = Some (JNum (id o))) /\
    In o (rows (store (fst (handle sortByCreatedAt noFaults 20 bridgeRequest
                              twoClusters)))) /\
    (forall x, In x (rows twoClusters) ->
               In (id x) (rootsOf sortByCreatedAt twoClusters
                            (Some "a@x.com") (Some "222")) ->
               id x <> id o ->
               In (demote (id o) x)
                  (rows (store (fst (handle sortByCreatedAt noFaults 20
                                       bridgeRequest twoClusters))))) /\
    (forall x1 x2,
        In x1 (rows twoClusters) -> In x2 (rows twoClusters) ->
        In (id x1) (rootsOf sortByCreatedAt twoClusters
                      (Some "a@x.com") (Some "222")) ->
        In (id x2) (rootsOf sortByCreatedAt twoClusters
                      (Some "a@x.com") (Some "222")) ->
        createdAt x1 < createdAt x2 ->
        x2 <> o /\
        In (demote (id o) x2)
           (rows (store (fst (handle sortByCreatedAt noFaults 20
                                bridgeRequest twoClusters))))).
Proof.
  apply (survivor_is_earliest sortByCreatedAt sortByCreatedAt_asc 20
           bridgeRequest twoClusters).
  - exact (proj1 twoClusters_consistent).
  - reflexivity.
  - vm_compute. lia.
Defined.

(** C4, the tie.  With an ordering that meets the contract and puts the
    larger identifier first among equal creation times, the two primaries of
    [tieStore], created at the same time, merge under contact 2: contact 1,
    with the smaller identifier, is demoted. *)
Lemma tie_not_broken_by_identifier :
  createdAtAsc sortByCreatedAtIdDesc /\
  dataModel tieStore /\
  rootsOf sortByCreatedAtIdDesc tieStore (Some "a@x.com") (Some "222") = [2; 1] /\
  handle sortByCreatedAtIdDesc noFaults 20 bridgeRequest tieStore
  = (mkWorld
       (mkStore [mkContact 1 (Some "a@x.com") None (Some 2) secondary 5 None;
                 mkContact 2 None (Some "222") None primary 5 None] 3)
       [FindMany; FindMany; UpdateMany; UpdateMany; FindMany],
     Returned (mkResponse 200 (contactJson 2 ["a@x.com"] ["222"] [1]))).
Proof.
  split; [exact sortByCreatedAtIdDesc_asc|].
  split; [exact (proj1 tieStore_consistent)|].
  split; reflexivity.
Qed.

(** C5.  When a run of a request has merged, the same request again, right
    after, answers with the same primary and leaves the table as it is. *)
Theorem merge_is_idempotent :
  forall orderBy, createdAtAsc orderBy ->
  forall now1 now2 req s,
    dataModel s -> rejected req = false ->
    1 < List.length (rootsOf orderBy s (req_email req) (req_phoneNumber req)) ->
    exists root r1 r2,
      snd (handle orderBy noFaults now1 req s) = Returned r1 /\
      snd (handle orderBy noFaults now2 req
             (store (fst (handle orderBy noFaults now1 req s)))) = Returned r2 /\
      status r1 = 200 /\ status r2 = 200 /\
      contactField "primaryContatctId" r1 = Some (JNum root) /\
      contactField "primaryContatctId" r2 = Some (JNum root) /\
      store (fst (handle orderBy noFaults now2 req
                    (store (fst (handle orderBy noFaults now1 req s)))))
      = store (fst (handle orderBy noFaults now1 req s)).
Proof.
  intros orderBy [orderBy_perm _] now1 now2 req s D Hrej Hlen.
  set (e := req_email req) in *. set (p := req_phoneNumber req) in *.
  destruct (merge_resolved orderBy orderBy_perm s e p D Hlen)
    as [o [others [Ep [Er [Do Ko]]]]].
  set (root := id o) in *. set (sm := mergeStore root (map id others) s) in *.
  set (s1 := extendStore orderBy now1 e p root sm).
  assert (Hom : In o (rows sm)).
  { unfold sm. rewrite mergeStore_rows. apply in_map_iff. exists o.
    destruct D as [[N _] H].
    split; [assumption|].
    apply (primariesOf_In orderBy orderBy_perm s (rootsOf orderBy s e p)).
    rewrite Ep. now left. }
  assert (Hafter1 : afterRequest orderBy now1 req s = s1).
  { unfold afterRequest. rewrite Hrej. fold e p. rewrite Er.
    destruct (rootsOf orderBy s e p); [cbn in Hlen; lia | reflexivity]. }
  assert (Hresp1 : responseOf orderBy now1 req s
                   = match composeOutcome root
                             (extendedCluster orderBy now1 e p root sm) with
                     | Threw _ => serverError
                     | Returned r => r
                     end).
  { unfold responseOf. rewrite Hrej. fold e p. rewrite Er.
    destruct (rootsOf orderBy s e p); [cbn in Hlen; lia | reflexivity]. }
  (* the roots of the second run *)
  assert (Hroots : rootsOf orderBy s1 e p = [root]).
  { apply single_root.
    - apply collectPrimaryIds_NoDup.
    - intros x Hx. apply (rootsOf_In orderBy orderBy_perm) in Hx.
      destruct Hx as [c [Hc [Hm Ec]]].
      assert (Hroot : rootOf c = Some root); [|congruence].
      unfold s1, extendStore in Hc.
      assert (Hsm : forall c, In c (rows sm) ->
                              matchWhere (conditionsOf e p) c = true ->
                              rootOf c = Some root).
      { intros c0 Hc0 Hm0. unfold sm in Hc0. rewrite mergeStore_rows in Hc0.
        apply in_map_iff in Hc0. destruct Hc0 as [a [<- Ha]].
        rewrite matchWhere_mergeRow in Hm0.
        now apply (merged_matches_root orderBy orderBy_perm s e p o others a D Ep Ha Hm0). }
      destruct (extends orderBy sm e p root); [|now apply Hsm].
      cbn in Hc. apply in_app_or in Hc. destruct Hc as [Hc | [<- | []]];
        [now apply Hsm | reflexivity].
    - intros Hnil.
      assert (H0 : exists r0, In r0 (rootsOf orderBy s e p)).
      { clear -Hlen. destruct (rootsOf orderBy s e p) as [|r0 t];
          [cbn in Hlen; lia | exists r0; now left]. }
      destruct H0 as [r0 H0].
      apply (rootsOf_In orderBy orderBy_perm) in H0.
      destruct H0 as [c [Hc [Hm Ec]]].
      assert (Hin : In root (rootsOf orderBy s1 e p)); [|rewrite Hnil in Hin; destruct Hin].
      apply (rootsOf_In orderBy orderBy_perm).
      exists (mergeRow root (map id others) c). split; [|split].
      + apply extendStore_incl. unfold sm. rewrite mergeStore_rows. now apply in_map.
      + now rewrite matchWhere_mergeRow.
      + now apply (merged_matches_root orderBy orderBy_perm s e p o others c D Ep Hc Hm). }
  assert (Ho1 : In o (rows s1)) by now apply extendStore_incl.
  assert (Hafter2 : afterRequest orderBy now2 req s1 = s1).
  { unfold afterRequest. rewrite Hrej. fold e p. unfold resolved. rewrite Hroots.
    unfold extendStore at 1. unfold s1. now rewrite (extends_after_extend orderBy orderBy_perm). }
  assert (Hresp2 : responseOf orderBy now2 req s1
                   = match composeOutcome root
                             (extendedCluster orderBy now2 e p root s1) with
                     | Threw _ => serverError
                     | Returned r => r
                     end).
  { unfold responseOf. rewrite Hrej. fold e p. unfold resolved. now rewrite Hroots. }
  destruct (composed_ok orderBy orderBy_perm now1 e p root sm o Hom eq_refl Do)
    as [prim1 [em1 [ph1 [se1 [_ [_ [_ C1]]]]]]].
  destruct (composed_ok orderBy orderBy_perm now2 e p root s1 o Ho1 eq_refl Do)
    as [prim2 [em2 [ph2 [se2 [_ [_ [_ C2]]]]]]].
  exists root. eexists. eexists.
  rewrite !handle_store, !handle_response, Hafter1, Hafter2, Hresp1, Hresp2, C1, C2.
  repeat split; reflexivity.
Qed.

Lemma merge_is_idempotent_witness :
  exists root r1 r2,
    snd (handle sortByCreatedAt noFaults 20 bridgeRequest twoClusters)
    = Returned r1 /\
    snd (handle sortByCreatedAt noFaults 21 bridgeRequest
           (store (fst (handle sortByCreatedAt noFaults 20 bridgeRequest
                          twoClusters)))) = Returned r2 /\
    status r1 = 200 /\ status r2 = 200 /\
    contactField "primaryContatctId" r1 = Some (JNum root) /\
    contactField "primaryContatctId" r2 = Some (JNum root) /\
    store (fst (handle sortByCreatedAt noFaults 21 bridgeRequest
                  (store (fst (handle sortByCreatedAt noFaults 20 bridgeRequest
                                 twoClusters)))))
    = store (fst (handle sortByCreatedAt noFaults 20 bridgeRequest twoClusters)).
Proof.
  apply (merge_is_idempotent sortByCreatedAt sortByCreatedAt_asc 20 21
           bridgeRequest twoClusters).
  - exact (proj1 twoClusters_consistent).
  - reflexivity.
  - vm_compute. lia.
Defined.

(** C6.  Once the root is known, the extender adds exactly one row when the
    request's email is supplied and held by no member of the cluster, or its
    phone number is; the row is a secondary linked to the root and carries
    both values of the request.  Otherwise it adds nothing and the table
    stays as the resolver and the merger left it. *)
Theorem extender_creates_iff_new :
  forall orderBy, createdAtAsc orderBy ->
  forall now req s s' root,
    rejected req = false ->
    resolved orderBy s (req_email req) (req_phoneNumber req) = Some (s', root) ->
    ((absentFrom (req_email req) (map email (members (rows s') root)) \/
      absentFrom (req_phoneNumber req)
                 (map phoneNumber (members (rows s') root))) ->
     rows (store (fst (handle orderBy noFaults now req s)))
     = rows s' ++ [mkContact (nextId s') (orNull (req_email req))
                     (orNull (req_phoneNumber req)) (Some root) secondary
                     now None]) /\
    (~ (absentFrom (req_email req) (map email (members (rows s') root)) \/
        absentFrom (req_phoneNumber req)
                   (map phoneNumber (members (rows s') root))) ->
     store (fst (handle orderBy noFaults now req s)) = s').
Proof.
  intros orderBy [orderBy_perm _] now req s s' root Hrej Hres.
  rewrite handle_store, (afterRequest_resolved orderBy now req s s' root Hrej Hres).
  unfold extendStore.
  pose proof (extends_spec orderBy orderBy_perm s' (req_email req) (req_phoneNumber req) root) as X.
  destruct (extends orderBy s' (req_email req) (req_phoneNumber req) root).
  - split; [reflexivity|]. intros Hn. exfalso. apply Hn. now apply X.
  - split; [|reflexivity]. intros Ha. apply X in Ha. discriminate.
Qed.

Lemma extender_creates_iff_new_witness :
  rows (store (fst (handle sortByCreatedAt noFaults 20
                      (mkRequest (Some "a@x.com") (Some "999")) twoClusters)))
  = rows twoClusters
    ++ [mkContact 4 (Some "a@x.com") (Some "999") (Some 1) secondary 20 None].
Proof.
  refine (proj1 (extender_creates_iff_new sortByCreatedAt sortByCreatedAt_asc 20
                   (mkRequest (Some "a@x.com") (Some "999")) twoClusters
                   twoClusters 1 eq_refl eq_refl) _).
  right. exists "999". split; [reflexivity|]. split; [discriminate|].
  cbn. intros [H | []]. discriminate.
Defined.

(** C7.  A request that passes the guard on a table satisfying the data
    model is answered with status 200 and the root under the field
    [primaryContatctId].  The lists of emails and phone numbers are the
    values of the primary followed by those of the other members in the order
    of the cluster, de-duplicated, first seen first, so that the primary's
    own value, when it has one, is at index 0; the identifiers of all the
    other members make up [secondaryContactIds].  The cluster is the one of
    the final table, in ascending creation time when the clock is not behind
    the table. *)
Theorem consolidated_response :
  forall orderBy, createdAtAsc orderBy ->
  forall now req s,
    dataModel s -> rejected req = false ->
    exists r root prim cluster emails phones secs,
      snd (handle orderBy noFaults now req s) = Returned r /\
      status r = 200 /\
      body r = contactJson root emails phones secs /\
      contactField "primaryContatctId" r = Some (JNum root) /\
      contactField "emails" r = Some (JArr (map JStr emails)) /\
      contactField "phoneNumbers" r = Some (JArr (map JStr phones)) /\
      contactField "secondaryContactIds" r = Some (JArr (map JNum secs)) /\
      In prim cluster /\ id prim = root /\ linkPrecedence prim = primary /\
      Permutation cluster
        (members (rows (store (fst (handle orderBy noFaults now req s)))) root) /\
      emails = dedupe (truthyValues
                         (map email (prim :: filter (notRoot root) cluster))) /\
      phones = dedupe (truthyValues
                         (map phoneNumber (prim :: filter (notRoot root) cluster))) /\
      secs = map id (filter (notRoot root) cluster) /\
      NoDup emails /\ NoDup phones /\
      (truthy (email prim) = true -> nth_error emails 0 = email prim) /\
      (truthy (phoneNumber prim) = true -> nth_error phones 0 = phoneNumber prim) /\
      (forall m, In m cluster -> m <> prim -> In (id m) secs) /\
      ((forall c, In c (rows s) -> createdAt c <= now) ->
       StronglySorted (fun a b => createdAt a <= createdAt b) cluster).
Proof.
  intros orderBy [P S] now req s D Hrej.
  pose proof (afterRequest_dataModel orderBy P now req s D) as [[N' _] _].
  rewrite <- handle_store in N'.
  destruct (response_composed orderBy P S now req s D Hrej)
    as [root [prim [cluster [Hr [Hp [Ep [Pp [Hperm Hs]]]]]]]].
  eexists. exists root, prim, cluster. eexists. eexists. eexists.
  split; [exact Hr|]. split; [reflexivity|]. split; [reflexivity|].
  split; [reflexivity|]. split; [reflexivity|]. split; [reflexivity|].
  split; [reflexivity|]. split; [assumption|]. split; [assumption|].
  split; [assumption|]. split; [assumption|]. split; [reflexivity|].
  split; [reflexivity|]. split; [reflexivity|].
  split; [apply dedupe_NoDup|]. split; [apply dedupe_NoDup|].
  split; [intros T; now apply dedupe_head|].
  split; [intros T; now apply dedupe_head|].
  split; [|assumption].
  intros m Hm Hne. apply in_map. apply filter_In. split; [assumption|].
  unfold notRoot. apply negb_true_iff, Nat.eqb_neq. intros E. apply Hne.
  assert (Hin : forall x, In x cluster ->
            In x (rows (store (fst (handle orderBy noFaults now req s))))).
  { intros x Hx. eapply Permutation_in in Hx; [|exact Hperm].
    apply members_In in Hx. tauto. }
  apply (unique_id _ _ _ N' (Hin m Hm) (Hin prim Hp)). congruence.
Qed.

Lemma consolidated_response_witness :
  exists r root prim cluster emails phones secs,
    snd (handle sortByCreatedAt noFaults 20 bridgeRequest twoClusters)
    = Returned r /\
    status r = 200 /\
    body r = contactJson root emails phones secs /\
    contactField "primaryContatctId" r = Some (JNum root) /\
    contactField "emails" r = Some (JArr (map JStr emails)) /\
    contactField "phoneNumbers" r = Some (JArr (map JStr phones)) /\
    contactField "secondaryContactIds" r = Some (JArr (map JNum secs)) /\
    In prim cluster /\ id prim = root /\ linkPrecedence prim = primary /\
    Permutation cluster
      (members (rows (store (fst (handle sortByCreatedAt noFaults 20
                                    bridgeRequest twoClusters)))) root) /\
    emails = dedupe (truthyValues
                       (map email (prim :: filter (notRoot root) cluster))) /\
    phones = dedupe (truthyValues
                       (map phoneNumber (prim :: filter (notRoot root) cluster))) /\
    secs = map id (filter (notRoot root) cluster) /\
    NoDup emails /\ NoDup phones /\
    (truthy (email prim) = true -> nth_error emails 0 = email prim) /\
    (truthy (phoneNumber prim) = true -> nth_error phones 0 = phoneNumber prim) /\
    (forall m, In m cluster -> m <> prim -> In (id m) secs) /\
    ((forall c, In c (rows twoClusters) -> createdAt c <= 20) ->
     StronglySorted (fun a b => createdAt a <= createdAt b) cluster).
Proof.
  apply (consolidated_response sortByCreatedAt sortByCreatedAt_asc 20
           bridgeRequest twoClusters).
  - exact (proj1 twoClusters_consistent).
  - reflexivity.
Defined.




(** C9, as the code has it.  In every table reached by requests that meet
    no store fault, from the empty table or from a table that satisfies the
    data model and in which non-deleted contacts holding the same email or
    the same phone number have the same root, a request has at most two
    roots. *)
Theorem roots_at_most_two :
  forall orderBy, createdAtAsc orderBy ->
  forall s0 s,
    s0 = emptyStore \/ consistent s0 ->
    reachableUnfaulted orderBy s0 s ->
    forall e p, List.length (rootsOf orderBy s e p) <= 2.
Proof.
  intros orderBy [P _] s0 s C R e p.
  apply (consistent_roots_le_2 orderBy P).
  apply (unfaulted_consistent orderBy P s0 s R).
  destruct C as [-> | C]; [exact emptyStore_consistent | exact C].
Qed.

(** On [twoClusters], where the contacts 2 and 3 hold the same phone number
    within one cluster, after a request that adds contact 4 to the cluster
    of contact 1, the bridging request has the two roots 1 and 2. *)
Lemma roots_at_most_two_witness :
  consistent twoClusters /\
  sharesKey primaryB secondaryOfB /\
  reachableUnfaulted sortByCreatedAt twoClusters
    (store (fst (handle sortByCreatedAt noFaults 20
                   (mkRequest (Some "d@x.com") (Some "111")) twoClusters))) /\
  rootsOf sortByCreatedAt
    (store (fst (handle sortByCreatedAt noFaults 20
                   (mkRequest (Some "d@x.com") (Some "111")) twoClusters)))
    (Some "a@x.com") (Some "222") = [1; 2] /\
  List.length
    (rootsOf sortByCreatedAt
       (store (fst (handle sortByCreatedAt noFaults 20
                      (mkRequest (Some "d@x.com") (Some "111")) twoClusters)))
       (Some "a@x.com") (Some "222")) <= 2.
Proof.
  assert (R : reachableUnfaulted sortByCreatedAt twoClusters
                (store (fst (handle sortByCreatedAt noFaults 20
                               (mkRequest (Some "d@x.com") (Some "111"))
                               twoClusters)))).
  { apply unfaulted_request. apply unfaulted_start. }
  split; [exact twoClusters_consistent|].
  split; [right; split; reflexivity|].
  split; [exact R|]. split; [reflexivity|].
  exact (roots_at_most_two sortByCreatedAt sortByCreatedAt_asc twoClusters _
           (or_intror twoClusters_consistent) R (Some "a@x.com") (Some "222")).
Defined.

(** C9, from the data model alone.  [sharedEmailStore] satisfies the data
    model, and a request there has three roots. *)
Lemma three_roots_under_data_model :
  dataModel sharedEmailStore /\
  reachable sortByCreatedAt sharedEmailStore sharedEmailStore /\
  rootsOf sortByCreatedAt sharedEmailStore (Some "a@x.com") (Some "333")
  = [1; 2; 3].
Proof.
  split; [exact sharedEmailStore_dataModel|].
  split; [apply reach_start | reflexivity].
Qed.

(** The requests C9 leaves out.  From [twoClusters], after a request that
    creates the primary 4, the bridging request whose second [updateMany] is
    rejected leaves contact 3 linked to the demoted contact 2; a request
    with the email of contact 4 and the phone number of the contacts 2 and 3
    then has three roots. *)
Lemma three_roots_after_fault :
  consistent twoClusters /\
  reachable sortByCreatedAt twoClusters
    (store (fst (handle sortByCreatedAt (failAt 3) 20 bridgeRequest
       (store (fst (handle sortByCreatedAt noFaults 15
                      (mkRequest (Some "d@x.com") (Some "444")) twoClusters)))))) /\
  rootsOf sortByCreatedAt
    (store (fst (handle sortByCreatedAt (failAt 3) 20 bridgeRequest
       (store (fst (handle sortByCreatedAt noFaults 15
                      (mkRequest (Some "d@x.com") (Some "444")) twoClusters))))))
    (Some "d@x.com") (Some "222") = [1; 2; 4].
Proof.
  split; [exact twoClusters_consistent|].
  split; [do 2 apply reach_request; apply reach_start | reflexivity].
Qed.


(** C10.  A request whose email and phone number are both empty or missing
    is answered with status 400 without any call to the store, whatever the
    store would do; an empty value is never a match condition; and the row a
    request creates has [null] where the request has an empty value. *)
Theorem empty_fields_are_absent :
  forall orderBy fl now req s,
    (truthy (req_email req) = false -> truthy (req_phoneNumber req) = false ->
     handle orderBy fl now req s = (mkWorld s [], Returned badRequest) /\
     status badRequest = 400) /\
    (forall k, In k (conditionsOf (req_email req) (req_phoneNumber req)) ->
               k <> CondEmail "" /\ k <> CondPhone "") /\
    (wellKeyed s ->
     forall c, In c (rows (store (fst (handle orderBy noFaults now req s)))) ->
               id c = nextId s ->
               (req_email req = Some "" -> email c = None) /\
               (req_phoneNumber req = Some "" -> phoneNumber c = None)).
Proof.
  intros orderBy fl now req s. split; [|split].
  - intros He Hp. split; [|reflexivity].
    apply rejected_run. unfold rejected. now rewrite He, Hp.
  - apply conditionsOf_never_empty.
  - intros W c Hc Ec. rewrite handle_store in Hc.
    destruct (created_row_fields orderBy now req s c W Hc Ec) as [-> ->].
    split; intros ->; reflexivity.
Qed.

Lemma empty_fields_are_absent_witness :
  handle sortByCreatedAt (failAt 0) 20 (mkRequest (Some "") None) twoClusters
  = (mkWorld twoClusters [], Returned badRequest) /\
  status badRequest = 400.
Proof.
  exact (proj1 (empty_fields_are_absent sortByCreatedAt (failAt 0) 20
                  (mkRequest (Some "") None) twoClusters) eq_refl eq_refl).
Defined.

(** * Further properties of the handler *)

(** ** Rules for [keeps] *)

Section KeepsRules.

Variable R : nat -> Store -> Store -> Prop.
Hypothesis R_refl : forall s, R 0 s s.
Hypothesis R_trans : forall n m a b c, R n a b -> R m b c -> R (n + m) a c.
Hypothesis R_mono : forall n m a b, n <= m -> R n a b -> R m a b.

Lemma keeps_ret : forall A (a : A), keeps R 0 (ret a).
Proof. intros A a fl w w' o E. injection E as <- _. apply R_refl. Qed.

Lemma keeps_throw : forall A (e : Error), keeps R 0 (@throw A e).
Proof. intros A e fl w w' o E. injection E as <- _. apply R_refl. Qed.

Lemma keeps_weaken : forall A n n' (m : M A),
    n <= n' -> keeps R n m -> keeps R n' m.
Proof. intros A n n' m Hle K fl w w' o E. eapply R_mono; eauto. Qed.

Lemma keeps_bind : forall A B n n' (m : M A) (k : A -> M B),
    keeps R n m -> (forall a, keeps R n' (k a)) -> keeps R (n + n') (bind m k).
Proof.
  intros A B n n' m k Km Kk fl w w' o E. unfold bind in E.
  destruct (m fl w) as [w1 [e|a]] eqn:Em.
  - injection E as <- _. apply (R_mono n); [lia|]. eapply Km; eauto.
  - eapply R_trans; [eapply Km | eapply Kk]; eauto.
Qed.

Lemma keeps_dbCall : forall A n (k : DbCall) (f : Store -> Store * A),
    (forall s, R n s (fst (f s))) -> keeps R n (dbCall k f).
Proof.
  intros A n k f Hf fl w w' o E. unfold dbCall in E.
  destruct (fl (List.length (calls w))).
  - injection E as <- _. cbn. apply (R_mono 0); [lia | apply R_refl].
  - specialize (Hf (store w)). destruct (f (store w)) as [s' a].
    injection E as <- _. exact Hf.
Qed.

Lemma keeps_transaction : forall A n (m : M A),
    keeps R n m -> keeps R n (transaction m).
Proof.
  intros A n m K fl w w' o E. unfold transaction in E.
  destruct (m fl w) as [w1 [e|a]] eqn:Em.
  - injection E as <- _. cbn. apply (R_mono 0); [lia | apply R_refl].
  - injection E as <- _. eapply K; eauto.
Qed.

Lemma keeps_tryCatch : forall A n n' (m : M A) (h : Error -> M A),
    keeps R n m -> (forall e, keeps R n' (h e)) ->
    keeps R (n + n') (tryCatch m h).
Proof.
  intros A n n' m h Km Kh fl w w' o E. unfold tryCatch in E.
  destruct (m fl w) as [w1 [e|a]] eqn:Em.
  - eapply R_trans; [eapply Km | eapply Kh]; eauto.
  - injection E as <- _. apply (R_mono n); [lia|]. eapply Km; eauto.
Qed.

Variable orderBy : list Contact -> list Contact.

Lemma keeps_findMany : forall wh, keeps R 0 (findMany orderBy wh).
Proof. intros wh. apply keeps_dbCall. intros s. apply R_refl. Qed.

Lemma keeps_compose : forall r cl, keeps R 0 (compose r cl).
Proof.
  intros r cl fl w w' o E. rewrite compose_run in E. injection E as <- _.
  apply R_refl.
Qed.

Hypothesis R_insert : forall s now e p l lp,
    R 1 s (insert s (newRow s now e p l lp)).

Lemma keeps_create : forall now e p l lp, keeps R 1 (create now e p l lp).
Proof. intros. apply keeps_dbCall. intros s. apply R_insert. Qed.

Lemma keeps_createPrimary : forall now e p, keeps R 1 (createPrimary now e p).
Proof.
  intros now e p. unfold createPrimary.
  apply (keeps_bind _ _ 1 0); [apply keeps_create | intros a; apply keeps_ret].
Qed.

Lemma keeps_extend : forall now e p r, keeps R 1 (extend orderBy now e p r).
Proof.
  intros now e p r. unfold extend.
  apply (keeps_bind _ _ 0 1); [apply keeps_findMany|]. intros cluster.
  destruct (isNew _ _ || isNew _ _).
  - apply (keeps_bind _ _ 1 0); [apply keeps_create | intros a; apply keeps_ret].
  - apply (keeps_weaken _ 0); [lia | apply keeps_ret].
Qed.

(** The handler after the resolver: at most one row is created. *)
Lemma keeps_finish : forall now e p r,
    keeps R 1 (cluster <- extend orderBy now e p r ;; compose r cluster).
Proof.
  intros now e p r.
  apply (keeps_bind _ _ 1 0); [apply keeps_extend | intros cl; apply keeps_compose].
Qed.

Hypothesis R_update : forall s wh root,
    R 0 s (mkStore (updateWhere wh (demote root) (rows s)) (nextId s)) /\
    R 0 s (mkStore (updateWhere wh (relink root) (rows s)) (nextId s)).

Lemma keeps_mergeWrites : forall root others,
    keeps R 0 (mergeWrites root others).
Proof.
  intros root others. unfold mergeWrites.
  apply (keeps_bind _ _ 0 0).
  - apply keeps_dbCall. intros s. apply R_update.
  - intros _. apply keeps_dbCall. intros s. apply R_update.
Qed.

Lemma keeps_resolveRoot : forall atomically ids,
    (forall m : M unit, keeps R 0 m -> keeps R 0 (atomically m)) ->
    keeps R 0 (resolveRoot orderBy atomically ids).
Proof.
  intros atomically ids Ha. unfold resolveRoot.
  destruct (1 <? List.length ids); [|apply keeps_ret].
  apply (keeps_bind _ _ 0 0); [apply keeps_findMany|]. intros primaries.
  destruct primaries as [|o others]; [apply keeps_throw|].
  apply (keeps_bind _ _ 0 0); [|intros _; apply keeps_ret].
  apply Ha. apply keeps_mergeWrites.
Qed.

Lemma keeps_reconcile : forall atomically now e p,
    (forall m : M unit, keeps R 0 m -> keeps R 0 (atomically m)) ->
    keeps R 1 (reconcile orderBy atomically now e p).
Proof.
  intros atomically now e p Ha. unfold reconcile.
  apply (keeps_bind _ _ 0 1); [apply keeps_findMany|]. intros mc.
  destruct (List.length (collectPrimaryIds mc) =? 0);
    [apply keeps_createPrimary|].
  apply (keeps_bind _ _ 0 1); [now apply keeps_resolveRoot|].
  intros r. apply keeps_finish.
Qed.

Lemma keeps_identify : forall now req, keeps R 1 (identify orderBy now req).
Proof.
  intros now req. unfold identify.
  apply (keeps_tryCatch _ 1 0); [|intros e; apply keeps_ret].
  destruct (negb _ && negb _).
  - apply (keeps_weaken _ 0); [lia | apply keeps_ret].
  - apply keeps_reconcile. intros m K. exact K.
Qed.

Lemma keeps_identifyTx : forall now e p, keeps R 1 (identifyTx orderBy now e p).
Proof.
  intros now e p. unfold identifyTx. apply keeps_reconcile.
  intros m K. now apply keeps_transaction.
Qed.

End KeepsRules.

(** ** [grows] under the rules *)

Lemma sameCore_refl : forall c, sameCore c c.
Proof. intros c. repeat split. Qed.

Lemma sameCore_trans : forall a b c, sameCore a b -> sameCore b c -> sameCore a c.
Proof.
  intros a b c [A1 [A2 [A3 [A4 A5]]]] [B1 [B2 [B3 [B4 B5]]]].
  repeat split; congruence.
Qed.

Lemma Forall2_sameCore_refl : forall l, Forall2 sameCore l l.
Proof. induction l; constructor; [apply sameCore_refl | assumption]. Qed.

Lemma Forall2_sameCore_trans : forall l1 l2 l3,
    Forall2 sameCore l1 l2 -> Forall2 sameCore l2 l3 -> Forall2 sameCore l1 l3.
Proof.
  intros l1 l2 l3 H. revert l3. induction H as [|a b l1 l2 Hab H IH]; intros l3 H3.
  - inversion H3. constructor.
  - inversion H3 as [|? c ? l3' Hbc H3']; subst. constructor.
    + eapply sameCore_trans; eauto.
    + now apply IH.
Qed.

Lemma Forall2_sameCore_ids : forall l1 l2,
    Forall2 sameCore l1 l2 -> map id l1 = map id l2.
Proof.
  intros l1 l2 H. induction H as [|a b l1 l2 [Hid _] H IH]; [reflexivity|].
  cbn. now rewrite Hid, IH.
Qed.

Lemma Forall2_sameCore_map : forall (g : Contact -> Contact) l,
    (forall c, sameCore c (g c)) -> Forall2 sameCore l (map g l).
Proof. intros g l Hg. induction l; constructor; auto. Qed.

Lemma grows_refl : forall s, grows 0 s s.
Proof.
  intros s. exists (rows s), []. rewrite app_nil_r. cbn.
  split; [reflexivity|]. split; [apply Forall2_sameCore_refl|].
  split; [lia|]. split; [reflexivity | lia].
Qed.

Lemma grows_mono : forall n m a b, n <= m -> grows n a b -> grows m a b.
Proof.
  intros n m a b Hle [kept [added [E [F [L [I N]]]]]].
  exists kept, added. repeat (split; [assumption || lia|]). assumption.
Qed.

Lemma grows_trans : forall n m a b c,
    grows n a b -> grows m b c -> grows (n + m) a c.
Proof.
  intros n m a b c [k1 [a1 [E1 [F1 [L1 [I1 N1]]]]]] [k2 [a2 [E2 [F2 [L2 [I2 N2]]]]]].
  rewrite E1 in F2. apply Forall2_app_inv_l in F2.
  destruct F2 as [k2a [k2b [Fa [Fb ->]]]].
  exists k2a, (k2b ++ a2).
  pose proof (Forall2_length Fb) as Hlen.
  split; [now rewrite E2, app_assoc|].
  split; [eapply Forall2_sameCore_trans; eauto|].
  rewrite length_app. split; [lia|]. split; [|lia].
  rewrite map_app, <- (Forall2_sameCore_ids _ _ Fb), I1, I2, N1, <- Hlen.
  now rewrite seq_app.
Qed.

Lemma grows_insert : forall s now e p l lp,
    grows 1 s (insert s (newRow s now e p l lp)).
Proof.
  intros s now e p l lp. exists (rows s), [newRow s now e p l lp]. cbn.
  split; [reflexivity|]. split; [apply Forall2_sameCore_refl|].
  split; [lia|]. split; [reflexivity | lia].
Qed.

Lemma grows_update : forall s wh root,
    grows 0 s (mkStore (updateWhere wh (demote root) (rows s)) (nextId s)) /\
    grows 0 s (mkStore (updateWhere wh (relink root) (rows s)) (nextId s)).
Proof.
  intros s wh root. split.
  - exists (updateWhere wh (demote root) (rows s)), []. rewrite app_nil_r. cbn.
    split; [reflexivity|]. split; [|split; [lia | split; [reflexivity | lia]]].
    apply Forall2_sameCore_map. intros c. destruct (wh c); repeat split.
  - exists (updateWhere wh (relink root) (rows s)), []. rewrite app_nil_r. cbn.
    split; [reflexivity|]. split; [|split; [lia | split; [reflexivity | lia]]].
    apply Forall2_sameCore_map. intros c. destruct (wh c); repeat split.
Qed.

Lemma grows_wellKeyed : forall n s s',
    grows n s s' -> wellKeyed s -> wellKeyed s'.
Proof.
  intros n s s' [kept [added [E [F [L [I N]]]]]] [ND B].
  pose proof (Forall2_sameCore_ids _ _ F) as Hid.
  assert (Hids : map id (rows s') = map id (rows s) ++ seq (nextId s) (List.length added)).
  { now rewrite E, map_app, Hid, I. }
  split.
  - rewrite Hids. apply NoDup_app; [assumption | apply seq_NoDup |].
    intros x Hx Hs. apply in_seq in Hs. apply in_map_iff in Hx.
    destruct Hx as [c [<- Hc]]. specialize (B c Hc). lia.
  - intros c Hc. apply (in_map id) in Hc. rewrite Hids in Hc.
    apply in_app_or in Hc. destruct Hc as [Hc | Hc].
    + apply in_map_iff in Hc. destruct Hc as [c0 [E0 Hc0]].
      specialize (B c0 Hc0). lia.
    + apply in_seq in Hc. lia.
Qed.

(** ** What the outcome tells about the store calls *)

Lemma clean_nearlyClean : forall fl w, clean fl w -> nearlyClean fl w.
Proof. intros fl w C k Hk. apply C. lia. Qed.

Lemma careful_ret : forall A (a : A), careful (ret a).
Proof. intros A a fl w w' o E C. now injection E as <- <-. Qed.

Lemma careful_throw : forall A (e : Error), careful (@throw A e).
Proof.
  intros A e fl w w' o E C. injection E as <- <-. now apply clean_nearlyClean.
Qed.

Lemma careful_bind : forall A B (m : M A) (k : A -> M B),
    careful m -> (forall a, careful (k a)) -> careful (bind m k).
Proof.
  intros A B m k Hm Hk fl w w' o E C. unfold bind in E.
  destruct (m fl w) as [w1 [e|a]] eqn:Em.
  - injection E as <- <-. exact (Hm _ _ _ _ Em C).
  - eapply Hk; eauto. exact (Hm _ _ _ _ Em C).
Qed.

Lemma careful_dbCall : forall A (k : DbCall) (f : Store -> Store * A),
    careful (dbCall k f).
Proof.
  intros A k f fl w w' o E C. unfold dbCall in E.
  destruct (fl (List.length (calls w))) eqn:F.
  - injection E as <- <-. intros i Hi. cbn in Hi. rewrite length_app in Hi.
    cbn in Hi. apply C. lia.
  - destruct (f (store w)) as [s' a]. injection E as <- <-.
    intros i Hi. cbn in Hi. rewrite length_app in Hi. cbn in Hi.
    destruct (Nat.eq_dec i (List.length (calls w))) as [-> | Hne];
      [assumption | apply C; lia].
Qed.

Lemma careful_transaction : forall A (m : M A),
    careful m -> careful (transaction m).
Proof.
  intros A m Hm fl w w' o E C. unfold transaction in E.
  pose proof (Hm fl w) as H.
  destruct (m fl w) as [w1 [e|a]] eqn:Em; injection E as <- <-.
  - exact (H _ _ eq_refl C).
  - exact (H _ _ eq_refl C).
Qed.

Lemma careful_reconcile : forall orderBy atomically now e p,
    (forall m : M unit, careful m -> careful (atomically m)) ->
    careful (reconcile orderBy atomically now e p).
Proof.
  intros orderBy atomically now e p Ha. unfold reconcile.
  apply careful_bind; [apply careful_dbCall|]. intros mc.
  destruct (List.length (collectPrimaryIds mc) =? 0).
  - unfold createPrimary. apply careful_bind; [apply careful_dbCall|].
    intros a. apply careful_ret.
  - apply careful_bind.
    + unfold resolveRoot. destruct (1 <? _); [|apply careful_ret].
      apply careful_bind; [apply careful_dbCall|]. intros [|o others];
        [apply careful_throw|].
      apply careful_bind; [|intros _; apply careful_ret].
      apply Ha. unfold mergeWrites.
      apply careful_bind; [apply careful_dbCall | intros _; apply careful_dbCall].
    + intros r. apply careful_bind.
      * unfold extend. apply careful_bind; [apply careful_dbCall|]. intros cl.
        destruct (isNew _ _ || isNew _ _); [|apply careful_ret].
        apply careful_bind; [apply careful_dbCall | intros a; apply careful_ret].
      * intros cl fl w w' o E C. rewrite compose_run in E.
        injection E as <- <-. destruct (composeOutcome r cl);
          [now apply clean_nearlyClean | assumption].
Qed.

(** The body of the handler returns responses with status 200 only. *)
Lemma reconcile_returns_200 : forall orderBy atomically now e p fl w w' r,
    reconcile orderBy atomically now e p fl w = (w', Returned r) ->
    status r = 200.
Proof.
  intros orderBy atomically now e p fl w w' r E. unfold reconcile, bind in E.
  destruct (findMany orderBy _ fl w) as [w1 [err|mc]]; [discriminate|].
  destruct (List.length (collectPrimaryIds mc) =? 0).
  - unfold createPrimary, bind in E.
    destruct (create _ _ _ _ _ fl w1) as [w2 [err|c]]; [discriminate|].
    now injection E as _ <-.
  - destruct (resolveRoot _ _ _ fl w1) as [w2 [err|root]]; [discriminate|].
    destruct (extend _ _ _ _ _ fl w2) as [w3 [err|cl]]; [discriminate|].
    rewrite compose_run in E. injection E as _ E. unfold composeOutcome in E.
    destruct (find _ cl); [|discriminate].
    destruct (composeLists _ _ _) as [[? ?] ?]. now injection E as <-.
Qed.

(** X1 (the handler of [routes/identify.ts], under every fault schedule).
    The handler always answers.  Its status is 400 exactly when both
    fields are falsy, and then no store call is made; otherwise it is 200 or
    500.  A 200 means that no store call was rejected, and in every case the
    handler issues no store call after a rejected one. *)
Theorem handler_always_answers :
  forall orderBy fl now req s,
  exists r,
    snd (handle orderBy fl now req s) = Returned r /\
    ((rejected req = true /\ r = badRequest /\
      fst (handle orderBy fl now req s) = mkWorld s []) \/
     (rejected req = false /\ r = serverError) \/
     (rejected req = false /\ status r = 200 /\
      clean fl (fst (handle orderBy fl now req s)))) /\
    nearlyClean fl (fst (handle orderBy fl now req s)).
Proof.
  intros orderBy fl now req s. unfold handle, run, identify, tryCatch.
  fold (rejected req). destruct (rejected req) eqn:Rj.
  - exists badRequest. cbn. split; [reflexivity|]. split; [auto|].
    intros k Hk. cbn in Hk. lia.
  - assert (C0 : clean fl (mkWorld s [])) by (intros k Hk; cbn in Hk; lia).
    pose proof (careful_reconcile orderBy plain now (req_email req)
                  (req_phoneNumber req) (fun m K => K) fl (mkWorld s [])) as Hc.
    pose proof (reconcile_returns_200 orderBy plain now (req_email req)
                  (req_phoneNumber req) fl (mkWorld s [])) as H200.
    destruct (reconcile orderBy plain now (req_email req) (req_phoneNumber req)
                fl (mkWorld s [])) as [w' [e|r]].
    + exists serverError. cbn. split; [reflexivity|]. split; [auto|].
      exact (Hc _ _ eq_refl C0).
    + exists r. cbn. split; [reflexivity|].
      pose proof (Hc _ _ eq_refl C0) as C. cbn in C.
      split; [right; right; split; [reflexivity|]; split; [eapply H200; eauto | exact C]|].
      now apply clean_nearlyClean.
Qed.

(** X2 (both revisions of the handler, under every fault schedule).  A
    request never removes a row and never changes the id, email,
    phoneNumber, createdAt or deletedAt of a row: the table after the
    request is the old rows in their order, equal to the old ones on these
    five fields, followed by at most one new row, which carries the next
    identifier of the table. *)
Theorem request_keeps_rows : forall orderBy fl now req s,
    grows 1 s (store (fst (handle orderBy fl now req s))) /\
    grows 1 s (store (fst (run (identifyTx orderBy now (req_email req)
                                  (req_phoneNumber req)) fl s))).
Proof.
  intros orderBy fl now req s. split.
  - unfold handle, run.
    destruct (identify orderBy now req fl (mkWorld s [])) as [w' o] eqn:E.
    exact (keeps_identify grows grows_refl grows_trans grows_mono orderBy
             grows_insert grows_update now req fl _ _ _ E).
  - unfold run.
    destruct (identifyTx orderBy now (req_email req) (req_phoneNumber req) fl
                (mkWorld s [])) as [w' o] eqn:E.
    exact (keeps_identifyTx grows grows_refl grows_trans grows_mono orderBy
             grows_insert grows_update now _ _ fl _ _ _ E).
Qed.

(** X3 (both revisions of the handler, under every fault schedule).
    Identifiers stay unique and below the table's next identifier, whatever
    store call fails and whatever the ordering of the queries is. *)
Theorem identifiers_stay_unique : forall orderBy fl now req s,
    wellKeyed s ->
    wellKeyed (store (fst (handle orderBy fl now req s))) /\
    wellKeyed (store (fst (run (identifyTx orderBy now (req_email req)
                                  (req_phoneNumber req)) fl s))).
Proof.
  intros orderBy fl now req s W. split.
  - apply (grows_wellKeyed 1 s); [|assumption]. unfold handle, run.
    destruct (identify orderBy now req fl (mkWorld s [])) as [w' o] eqn:E.
    exact (keeps_identify grows grows_refl grows_trans grows_mono orderBy
             grows_insert grows_update now req fl _ _ _ E).
  - apply (grows_wellKeyed 1 s); [|assumption]. unfold run.
    destruct (identifyTx orderBy now (req_email req) (req_phoneNumber req) fl
                (mkWorld s [])) as [w' o] eqn:E.
    exact (keeps_identifyTx grows grows_refl grows_trans grows_mono orderBy
             grows_insert grows_update now _ _ fl _ _ _ E).
Qed.

Lemma identifiers_stay_unique_witness :
  wellKeyed twoClusters /\
  wellKeyed (store (fst (handle sortByCreatedAtIdDesc (failAt 3) 20
                           bridgeRequest twoClusters))) /\
  wellKeyed (store (fst (run (identifyTx sortByCreatedAtIdDesc 20
                                (req_email bridgeRequest)
                                (req_phoneNumber bridgeRequest))
                           (failAt 3) twoClusters))).
Proof.
  assert (W : wellKeyed twoClusters).
  { split; [exact NoDup_123|]. intros c H. rows_cases H; cbn; lia. }
  split; [exact W|].
  exact (identifiers_stay_unique sortByCreatedAtIdDesc (failAt 3) 20
           bridgeRequest twoClusters W).
Defined.

(** ** Requests that do not merge *)

Lemma appends_refl : forall s, appends 0 s s.
Proof. intros s. exists []. now rewrite app_nil_r. Qed.

Lemma appends_mono : forall n m a b, n <= m -> appends n a b -> appends m a b.
Proof. intros n m a b Hle [added [E L]]. exists added. split; [assumption | lia]. Qed.

Lemma appends_trans : forall n m a b c,
    appends n a b -> appends m b c -> appends (n + m) a c.
Proof.
  intros n m a b c [a1 [E1 L1]] [a2 [E2 L2]]. exists (a1 ++ a2).
  rewrite E2, E1, <- app_assoc, length_app. split; [reflexivity | lia].
Qed.

Lemma appends_insert : forall s now e p l lp,
    appends 1 s (insert s (newRow s now e p l lp)).
Proof. intros. exists [newRow s now e p l lp]. cbn. auto. Qed.

(** With fewer than two roots the body of the handler only appends. *)
Lemma reconcile_appends : forall orderBy atomically fl now e p s w' o,
    List.length (rootsOf orderBy s e p) <= 1 ->
    reconcile orderBy atomically now e p fl (mkWorld s []) = (w', o) ->
    appends 1 s (store w').
Proof.
  intros orderBy atomically fl now e p s w' o Hlen E.
  unfold reconcile, bind in E.
  pose proof (findMany_store orderBy (matchWhere (conditionsOf e p)) fl
                (mkWorld s [])) as [Hs Hl].
  destruct (findMany orderBy (matchWhere (conditionsOf e p)) fl (mkWorld s []))
    as [w1 [err|mc]]; cbn in Hs, Hl.
  { injection E as <- _. rewrite Hs. apply (appends_mono 0); [lia|].
    apply appends_refl. }
  rewrite (Hl mc eq_refl) in E. fold (matching orderBy s e p) in E.
  fold (rootsOf orderBy s e p) in E. rewrite <- Hs.
  destruct (List.length (rootsOf orderBy s e p) =? 0).
  - exact (keeps_createPrimary appends appends_refl appends_trans appends_mono
             appends_insert now e p fl _ _ _ E).
  - unfold resolveRoot in E.
    assert (Hlt : (1 <? List.length (rootsOf orderBy s e p)) = false)
      by (apply Nat.ltb_ge; exact Hlen).
    rewrite Hlt in E. cbn [ret] in E.
    exact (keeps_finish appends appends_refl appends_trans appends_mono orderBy
             appends_insert now e p _ fl _ _ _ E).
Qed.

(** X5 (both revisions of the handler, under every fault schedule).  A
    request with fewer than two roots never modifies a row, whatever
    fails: the table after it is the table before it, followed by at most one
    row. *)
Theorem no_merge_only_appends :
  forall orderBy fl now req s,
    List.length (rootsOf orderBy s (req_email req) (req_phoneNumber req)) <= 1 ->
    appends 1 s (store (fst (handle orderBy fl now req s))) /\
    appends 1 s (store (fst (run (identifyTx orderBy now (req_email req)
                                    (req_phoneNumber req)) fl s))).
Proof.
  intros orderBy fl now req s Hlen. split.
  - unfold handle, run, identify, tryCatch.
    destruct (negb _ && negb _).
    + cbn. apply (appends_mono 0); [lia | apply appends_refl].
    + pose proof (reconcile_appends orderBy plain fl now (req_email req)
                    (req_phoneNumber req) s) as H.
      destruct (reconcile orderBy plain now (req_email req) (req_phoneNumber req)
                  fl (mkWorld s [])) as [w' [err|r]]; cbn; eapply H; eauto.
  - unfold run, identifyTx.
    destruct (reconcile orderBy transaction now (req_email req)
                (req_phoneNumber req) fl (mkWorld s [])) as [w' o] eqn:E.
    cbn. eapply reconcile_appends; eauto.
Qed.

Lemma no_merge_only_appends_witness :
  appends 1 twoClusters
    (store (fst (handle sortByCreatedAt (failAt 1) 20
                   (mkRequest (Some "b@x.com") (Some "999")) twoClusters))).
Proof.
  refine (proj1 (no_merge_only_appends sortByCreatedAt (failAt 1) 20
                   (mkRequest (Some "b@x.com") (Some "999")) twoClusters _)).
  vm_compute. lia.
Defined.

(** ** Running a request twice *)

Section Twice.

Variable orderBy : list Contact -> list Contact.
Hypothesis orderBy_perm : forall l, Permutation (orderBy l) l.

(** A request carries nothing new for a cluster that has a member with the
    values the request stores. *)
Lemma extends_known : forall s e p r n,
    In n (clusterOf orderBy s r) ->
    email n = orNull e -> phoneNumber n = orNull p ->
    extends orderBy s e p r = false.
Proof.
  intros s e p r n Hn He Hp. unfold extends.
  apply orb_false_iff. split; apply isNew_false.
  - destruct (truthy e) eqn:T; [right | now left].
    destruct (truthy_Some _ T) as [x [-> Hx]]. exists x. split; [reflexivity|].
    apply truthyValues_In. split; [assumption|].
    apply in_map_iff. exists n. split; [|assumption].
    rewrite He. now apply orNull_truthy.
  - destruct (truthy p) eqn:T; [right | now left].
    destruct (truthy_Some _ T) as [x [-> Hx]]. exists x. split; [reflexivity|].
    apply truthyValues_In. split; [assumption|].
    apply in_map_iff. exists n. split; [|assumption].
    rewrite Hp. now apply orNull_truthy.
Qed.

(** Once the root is resolved, every matching row has it as its root, and
    there is a matching row. *)
Lemma resolved_matches : forall s e p s' root,
    dataModel s -> resolved orderBy s e p = Some (s', root) ->
    (forall a, In a (rows s') -> matchWhere (conditionsOf e p) a = true ->
               rootOf a = Some root) /\
    (exists a, In a (rows s') /\ matchWhere (conditionsOf e p) a = true).
Proof.
  intros s e p s' root D Hres. pose proof D as [W H].
  assert (Hex : exists c, In c (rows s) /\ matchWhere (conditionsOf e p) c = true).
  { unfold resolved in Hres.
    destruct (rootsOf orderBy s e p) as [|r0 t] eqn:E; [discriminate|].
    assert (Hin : In r0 (rootsOf orderBy s e p)) by (rewrite E; now left).
    apply (rootsOf_In orderBy orderBy_perm) in Hin.
    destruct Hin as [c [Hc [Hm _]]]. eauto. }
  destruct (rootsOf orderBy s e p) as [|r [|r' ids]] eqn:E.
  - unfold resolved in Hres. rewrite E in Hres. discriminate.
  - unfold resolved in Hres. rewrite E in Hres. injection Hres as <- <-.
    split; [|exact Hex]. intros a Ha Hm.
    destruct (matching_has_root orderBy orderBy_perm s e p a H Ha Hm)
      as [x [Ex Hx]].
    rewrite E in Hx. destruct Hx as [<- | []]. assumption.
  - assert (Hlen : 1 < List.length (rootsOf orderBy s e p))
      by (rewrite E; cbn; lia).
    destruct (merge_resolved orderBy orderBy_perm s e p D Hlen)
      as [o [others [Ep [Er _]]]].
    rewrite Er in Hres. injection Hres as <- <-.
    rewrite mergeStore_rows. split.
    + intros a' Ha' Hm. apply in_map_iff in Ha'. destruct Ha' as [a [<- Ha]].
      rewrite matchWhere_mergeRow in Hm.
      exact (merged_matches_root orderBy orderBy_perm s e p o others a D Ep Ha Hm).
    + destruct Hex as [c [Hc Hm]]. exists (mergeRow (id o) (map id others) c).
      split; [now apply in_map | now rewrite matchWhere_mergeRow].
Qed.

(** A table in which every matching row has the root [root], the root is a
    row that is not deleted, and the request carries nothing new, is left as
    it is and answered with that root. *)
Lemma settled_request : forall now req s root x,
    rejected req = false ->
    (forall a, In a (rows s) ->
               matchWhere (conditionsOf (req_email req) (req_phoneNumber req)) a
               = true -> rootOf a = Some root) ->
    (exists a, In a (rows s) /\
               matchWhere (conditionsOf (req_email req) (req_phoneNumber req)) a
               = true) ->
    extends orderBy s (req_email req) (req_phoneNumber req) root = false ->
    In x (rows s) -> id x = root -> deletedAt x = None ->
    afterRequest orderBy now req s = s /\
    exists r, responseOf orderBy now req s = r /\ status r = 200 /\
              contactField "primaryContatctId" r = Some (JNum root).
Proof.
  intros now req s root x Hrej Hall [a [Ha Hm]] Hext Hx Ex Dx.
  set (e := req_email req) in *. set (p := req_phoneNumber req) in *.
  assert (Hroots : rootsOf orderBy s e p = [root]).
  { apply single_root.
    - apply collectPrimaryIds_NoDup.
    - intros r Hr. apply (rootsOf_In orderBy orderBy_perm) in Hr.
      destruct Hr as [c [Hc [Hmc Ec]]]. rewrite (Hall c Hc Hmc) in Ec. congruence.
    - intros Hnil.
      assert (Hin : In root (rootsOf orderBy s e p)).
      { apply (rootsOf_In orderBy orderBy_perm). exists a. auto. }
      rewrite Hnil in Hin. destruct Hin. }
  split.
  - unfold afterRequest. rewrite Hrej. fold e p. unfold resolved.
    rewrite Hroots. unfold extendStore. now rewrite Hext.
  - destruct (composed_ok orderBy orderBy_perm now e p root s x Hx Ex Dx)
      as [prim [em [ph [se [_ [_ [_ C]]]]]]].
    eexists. split; [reflexivity|].
    unfold responseOf. rewrite Hrej. fold e p. unfold resolved. rewrite Hroots, C.
    split; reflexivity.
Qed.

End Twice.

(** X6 (the handler of [routes/identify.ts], no store fault).  Every
    request is idempotent.  On a table satisfying the data model,
    a request that passes the guard, run a second time right after its first
    run, is answered with the same primary and leaves the table as the first
    run left it. *)
Theorem request_is_idempotent :
  forall orderBy, createdAtAsc orderBy ->
  forall now1 now2 req s,
    dataModel s -> rejected req = false ->
    exists root r1 r2,
      snd (handle orderBy noFaults now1 req s) = Returned r1 /\
      snd (handle orderBy noFaults now2 req
             (store (fst (handle orderBy noFaults now1 req s)))) = Returned r2 /\
      status r1 = 200 /\ status r2 = 200 /\
      contactField "primaryContatctId" r1 = Some (JNum root) /\
      contactField "primaryContatctId" r2 = Some (JNum root) /\
      store (fst (handle orderBy noFaults now2 req
                    (store (fst (handle orderBy noFaults now1 req s)))))
      = store (fst (handle orderBy noFaults now1 req s)).
Proof.
  intros orderBy [P _] now1 now2 req s D Hrej.
  rewrite !handle_response, !handle_store.
  set (e := req_email req) in *. set (p := req_phoneNumber req) in *.
  pose proof D as [W H].
  destruct (rootsOf orderBy s e p) as [|r0 t] eqn:E.
  - (* the first run creates a primary *)
    set (n := newRow s now1 (orNull e) (orNull p) None primary).
    assert (Hafter : afterRequest orderBy now1 req s = insert s n).
    { unfold afterRequest. rewrite Hrej. fold e p. now rewrite E. }
    assert (Hresp : responseOf orderBy now1 req s
                    = mkResponse 200
                        (contactJson (nextId s) (truthyValues [orNull e])
                           (truthyValues [orNull p]) [])).
    { unfold responseOf. rewrite Hrej. fold e p. now rewrite E. }
    assert (Hn : In n (rows (insert s n))).
    { cbn. apply in_or_app. right. now left. }
    assert (Hnone : forall a, In a (rows s) ->
                              matchWhere (conditionsOf e p) a = true -> False).
    { intros a Ha Hm.
      destruct (matching_has_root orderBy P s e p a H Ha Hm) as [x [_ Hx]].
      rewrite E in Hx. destruct Hx. }
    destruct (settled_request orderBy P now2 req (insert s n) (nextId s) n Hrej)
      as [S2 [r2 [R2 [St2 F2]]]].
    + intros a Ha Hm. cbn in Ha. apply in_app_or in Ha.
      destruct Ha as [Ha | [<- | []]]; [destruct (Hnone a Ha Hm) | reflexivity].
    + exists n. split; [assumption|]. apply matchWhere_spec.
      split; [reflexivity|]. unfold rejected in Hrej. fold e p in Hrej.
      apply andb_false_iff in Hrej. rewrite !negb_false_iff in Hrej.
      destruct Hrej as [T | T]; [left | right];
        (split; [assumption | cbn; now apply orNull_truthy]).
    + apply (extends_known orderBy _ e p _ n); [|reflexivity | reflexivity].
      apply (clusterOf_In orderBy P). auto.
    + assumption.
    + reflexivity.
    + reflexivity.
    + exists (nextId s). eexists. exists r2.
      rewrite Hafter, Hresp, S2, R2. repeat split; assumption.
  - (* the first run resolves a root *)
    assert (Hne : rootsOf orderBy s e p <> []) by (rewrite E; discriminate).
    clear E r0 t.
    assert (Hres : exists s' root x,
               resolved orderBy s e p = Some (s', root) /\
               In x (rows s') /\ id x = root /\ deletedAt x = None).
    { unfold resolved.
      destruct (rootsOf orderBy s e p) as [|r [|r' ids]] eqn:E; [congruence| |].
      - destruct (roots_are_live orderBy P s e p r H) as [x [Hx [Ex [_ Dx]]]];
          [rewrite E; now left|].
        exists s, r, x. auto.
      - assert (Hlen : 1 < List.length (rootsOf orderBy s e p))
          by (rewrite E; cbn; lia).
        destruct (merge_resolved orderBy P s e p D Hlen)
          as [o [others [Ep [_ [Do Ko]]]]].
        rewrite E in Ep. rewrite Ep.
        exists (mergeStore (id o) (map id others) s), (id o), o.
        split; [reflexivity|]. rewrite mergeStore_rows.
        split; [|auto]. apply in_map_iff. exists o. split; [assumption|].
        apply (primariesOf_In orderBy P s (r :: r' :: ids)). rewrite Ep. now left. }
    destruct Hres as [s' [root [x [Hres [Hx [Ex Dx]]]]]].
    destruct (resolved_matches orderBy P s e p s' root D Hres) as [Hall [a [Ha Hm]]].
    set (s1 := extendStore orderBy now1 e p root s').
    assert (Hafter : afterRequest orderBy now1 req s = s1)
      by exact (afterRequest_resolved orderBy now1 req s s' root Hrej Hres).
    assert (Hresp : responseOf orderBy now1 req s
                    = match composeOutcome root
                              (extendedCluster orderBy now1 e p root s') with
                      | Threw _ => serverError
                      | Returned r => r
                      end).
    { unfold responseOf. rewrite Hrej. fold e p. rewrite Hres.
      destruct (rootsOf orderBy s e p); [congruence | reflexivity]. }
    destruct (composed_ok orderBy P now1 e p root s' x Hx Ex Dx)
      as [prim [em [ph [se [_ [_ [_ C1]]]]]]].
    destruct (settled_request orderBy P now2 req s1 root x Hrej)
      as [S2 [r2 [R2 [St2 F2]]]].
    + intros c Hc Hmc. unfold s1, extendStore in Hc.
      destruct (extends orderBy s' e p root); [|now apply Hall].
      cbn in Hc. apply in_app_or in Hc.
      destruct Hc as [Hc | [<- | []]]; [now apply Hall | reflexivity].
    + exists a. split; [now apply extendStore_incl | assumption].
    + apply (extends_after_extend orderBy P).
    + now apply extendStore_incl.
    + assumption.
    + assumption.
    + exists root. eexists. exists r2.
      rewrite Hafter, Hresp, C1, S2, R2. repeat split; assumption.
Qed.

Lemma request_is_idempotent_witness :
  exists root r1 r2,
    snd (handle sortByCreatedAt noFaults 20
           (mkRequest (Some "new@x.com") None) twoClusters) = Returned r1 /\
    snd (handle sortByCreatedAt noFaults 21 (mkRequest (Some "new@x.com") None)
           (store (fst (handle sortByCreatedAt noFaults 20
                          (mkRequest (Some "new@x.com") None) twoClusters))))
    = Returned r2 /\
    status r1 = 200 /\ status r2 = 200 /\
    contactField "primaryContatctId" r1 = Some (JNum root) /\
    contactField "primaryContatctId" r2 = Some (JNum root) /\
    store (fst (handle sortByCreatedAt noFaults 21
                  (mkRequest (Some "new@x.com") None)
                  (store (fst (handle sortByCreatedAt noFaults 20
                                 (mkRequest (Some "new@x.com") None)
                                 twoClusters)))))
    = store (fst (handle sortByCreatedAt noFaults 20
                    (mkRequest (Some "new@x.com") None) twoClusters)).
Proof.
  apply (request_is_idempotent sortByCreatedAt sortByCreatedAt_asc 20 21
           (mkRequest (Some "new@x.com") None) twoClusters).
  - exact (proj1 twoClusters_consistent).
  - reflexivity.
Defined.

(** ** The transactional handler and the whole data model *)

Section Transactional.

Variable orderBy : list Contact -> list Contact.
Hypothesis orderBy_perm : forall l, Permutation (orderBy l) l.

(** The table between the merger and the extender. *)
Lemma merged_consistent : forall s e p o others,
    consistent s ->
    primariesOf orderBy s (rootsOf orderBy s e p) = o :: others ->
    consistent (mergeStore (id o) (map id others) s) /\
    (exists x, In x (rows (mergeStore (id o) (map id others) s)) /\
               id x = id o /\ linkPrecedence x = primary /\ deletedAt x = None) /\
    (forall a, In a (rows (mergeStore (id o) (map id others) s)) ->
               matchWhere (conditionsOf e p) a = true -> rootOf a = Some (id o)).
Proof.
  intros s e p o others [[W H] K] Ep.
  destruct (survivor_facts orderBy orderBy_perm s e p o others W
              (hierarchy_linked _ H) Ep) as [Ho [Po [Hr [Hn [Hdem Hall]]]]].
  destruct (roots_are_live orderBy orderBy_perm s e p (id o) H Hr)
    as [x [Hx [Ex [_ Dx]]]].
  pose proof W as [N _].
  rewrite (unique_id _ _ _ N Hx Ho Ex) in Dx.
  assert (Hkeep : mergeRow (id o) (map id others) o = o).
  { apply mergeRow_untouched; [assumption|]. unfold linkedIdIn.
    specialize (H o Ho). rewrite Po in H. now rewrite H. }
  assert (Hprim : forall x, In x (rows s) -> In (id x) (map id others) ->
                            linkPrecedence x = primary).
  { intros y Hy Hi. now apply Hdem. }
  rewrite mergeStore_rows. split; [split; [split|]|split].
  - now apply mergeStore_wellKeyed.
  - rewrite mergeStore_rows.
    apply (merge_hierarchy (rows s) (id o) (map id others) o); auto.
  - rewrite mergeStore_rows. now apply merge_keysAgree.
  - exists o. split; [apply in_map_iff; exists o; auto | auto].
  - intros a' Ha' Hm. apply in_map_iff in Ha'. destruct Ha' as [a [<- Ha]].
    assert (Hm' : matchWhere (conditionsOf e p) a = true).
    { apply matchWhere_spec in Hm. apply matchWhere_spec.
      now rewrite mergeRow_email, mergeRow_phoneNumber, mergeRow_deletedAt in Hm. }
    destruct (matching_has_root orderBy orderBy_perm s e p a H Ha Hm')
      as [r [Er Hin]].
    rewrite (rootOf_mergeRow _ _ _ a H Ha Hprim), Er. cbn. f_equal.
    unfold mergedRoot. destruct (Hall r Hin) as [-> | Hi].
    + apply memId_false in Hn. now rewrite Hn.
    + apply memId_In in Hi. now rewrite Hi.
Qed.

(** The table with the row of a new primary. *)
Lemma newPrimary_consistent : forall now e p s,
    consistent s -> rootsOf orderBy s e p = [] ->
    consistent (insert s (newRow s now (orNull e) (orNull p) None primary)).
Proof.
  intros now e p s [[W H] K] E. split; [split|].
  - now apply insert_wellKeyed.
  - cbn. apply insert_hierarchy; [assumption | reflexivity].
  - cbn. apply insert_keysAgree; [assumption|].
    intros a Ha Da S. exfalso.
    destruct (matching_has_root orderBy orderBy_perm s e p a H Ha
                (sharesKey_new_matches _ _ _ _ _ _ _ Da S)) as [r [_ Hr]].
    rewrite E in Hr. destruct Hr.
Qed.

End Transactional.

(** X7 (the handler that wraps the merger in [prisma.$transaction]).  Under
    every fault schedule the table after the request satisfies the data
    model and keeps every email and phone number within one cluster, when
    the table before did: no store fault leaves a half-merged table. *)
Theorem tx_keeps_consistency :
  forall orderBy, (forall l, Permutation (orderBy l) l) ->
  forall fl now e p s,
    consistent s ->
    consistent (store (fst (run (identifyTx orderBy now e p) fl s))).
Proof.
  intros orderBy P fl now e p s C. unfold run, identifyTx.
  destruct (reconcile orderBy transaction now e p fl (mkWorld s []))
    as [wf outf] eqn:E.
  cbn [fst]. unfold reconcile, bind in E.
  pose proof (findMany_store orderBy (matchWhere (conditionsOf e p)) fl
                (mkWorld s [])) as [Hs Hl].
  destruct (findMany orderBy (matchWhere (conditionsOf e p)) fl (mkWorld s []))
    as [w1 [err|matchingContacts]]; cbn in Hs, Hl.
  { injection E as <- <-. now rewrite Hs. }
  rewrite (Hl matchingContacts eq_refl) in E. fold (matching orderBy s e p) in E.
  fold (rootsOf orderBy s e p) in E.
  destruct (List.length (rootsOf orderBy s e p) =? 0) eqn:Z.
  - unfold createPrimary, bind, create, dbCall in E. rewrite Hs in E.
    destruct (fl (List.length (calls w1))); injection E as <- <-; cbn [store];
      [assumption|].
    apply (newPrimary_consistent orderBy P); [assumption|].
    apply Nat.eqb_eq in Z. now apply length_zero_iff_nil.
  - destruct (resolveRoot orderBy transaction (rootsOf orderBy s e p) fl w1)
      as [w2 out] eqn:ER.
    apply resolveRoot_transaction in ER. rewrite Hs in ER.
    destruct out as [err|root].
    { injection E as <- <-.
      destruct ER as [[-> _] | [o [others [_ [_ E0]]]]];
        [assumption | discriminate]. }
    assert (Hw2 : consistent (store w2) /\
                  (exists x, In x (rows (store w2)) /\ id x = root /\
                             linkPrecedence x = primary /\ deletedAt x = None) /\
                  (forall a, In a (rows (store w2)) ->
                             matchWhere (conditionsOf e p) a = true ->
                             rootOf a = Some root)).
    { destruct ER as [[-> Hr] | [o [others [Ep [-> E0]]]]].
      - pose proof C as [[W H] K].
        assert (Er : rootsOf orderBy s e p = [root]).
        { destruct (Hr root eq_refl) as [E0 | E0]; [assumption|].
          rewrite E0 in Z. discriminate. }
        split; [assumption|]. split.
        + apply (roots_are_live orderBy P s e p root H). rewrite Er. now left.
        + intros a Ha Hm.
          destruct (matching_has_root orderBy P s e p a H Ha Hm) as [x [Ex Hx]].
          rewrite Er in Hx. destruct Hx as [<- | []]. assumption.
      - injection E0 as E0. subst root.
        apply (merged_consistent orderBy P); assumption. }
    destruct Hw2 as [C2 [Hroot Hm2]].
    assert (CI : consistent (insert (store w2)
                               (newSecondaryRow (store w2) now e p root))).
    { destruct C2 as [[W2 H2] K2]. split; [split|].
      - now apply insert_wellKeyed.
      - cbn. apply insert_hierarchy; [assumption|]. cbn.
        destruct Hroot as [x [Hx [Ex [Px Dx]]]]. exists x. rewrite Ex. auto.
      - cbn. apply insert_keysAgree; [assumption|].
        intros a Ha Da S. unfold newSecondaryRow in *.
        rewrite (Hm2 a Ha (sharesKey_new_matches _ _ _ _ _ _ _ Da S)).
        reflexivity. }
    pose proof (extend_store orderBy now e p root fl w2) as X.
    destruct (extend orderBy now e p root fl w2) as [w3 [err|cluster]];
      cbn [fst] in X.
    + injection E as <- <-. destruct X as [-> | ->]; assumption.
    + rewrite (compose_run root cluster fl w3) in E. injection E as <- <-.
      destruct X as [-> | ->]; assumption.
Qed.

Lemma tx_keeps_consistency_witness :
  consistent twoClusters /\
  consistent (store (fst (run (identifyTx sortByCreatedAt 20 (Some "a@x.com")
                                 (Some "222")) (failAt 3) twoClusters))).
Proof.
  split; [exact twoClusters_consistent|].
  exact (tx_keeps_consistency sortByCreatedAt (proj1 sortByCreatedAt_asc)
           (failAt 3) 20 (Some "a@x.com") (Some "222") twoClusters
           twoClusters_consistent).
Defined.

(** ** What the response says of the request *)

(** A value held by a member of the cluster is in the composer's list. *)
Lemma held_is_listed : forall (f : Contact -> option string) l root prim cluster c v,
    NoDup (map id l) -> (forall y, In y cluster -> In y l) ->
    In prim cluster -> id prim = root ->
    In c cluster -> f c = Some v -> v <> "" ->
    In v (dedupe (truthyValues (map f (prim :: filter (notRoot root) cluster)))).
Proof.
  intros f l root prim cluster c v N Hin Hp Ep Hc Ev Hv.
  apply dedupe_In. apply truthyValues_In. split; [assumption|].
  rewrite <- Ev. apply in_map.
  destruct (notRoot root c) eqn:R.
  - right. apply filter_In. auto.
  - left. unfold notRoot in R. apply negb_false_iff, Nat.eqb_eq in R.
    apply (unique_id l prim c N (Hin _ Hp) (Hin _ Hc)). congruence.
Qed.

(** X8 (the handler of [routes/identify.ts], no store fault).  What the
    request brings is what the response shows: on a table satisfying the
    data model, a request that passes the guard is answered with status 200,
    its email (when not empty) is in [emails], its phone number (when not
    empty) is in [phoneNumbers], and the table then holds each of them in a
    row of the cluster of [primaryContatctId] that is not deleted. *)
Theorem request_is_recorded :
  forall orderBy, (forall l, Permutation (orderBy l) l) ->
  forall now req s,
    dataModel s -> rejected req = false ->
    exists root emails phones secs,
      snd (handle orderBy noFaults now req s)
      = Returned (mkResponse 200 (contactJson root emails phones secs)) /\
      (forall v, req_email req = Some v -> v <> "" ->
         In v emails /\
         exists c, In c (members (rows (store (fst (handle orderBy noFaults
                                                     now req s)))) root) /\
                   email c = Some v) /\
      (forall v, req_phoneNumber req = Some v -> v <> "" ->
         In v phones /\
         exists c, In c (members (rows (store (fst (handle orderBy noFaults
                                                     now req s)))) root) /\
                   phoneNumber c = Some v).
Proof.
  intros orderBy P now req s D Hrej.
  pose proof (afterRequest_dataModel orderBy P now req s D) as [[N' _] _].
  rewrite handle_response, handle_store. revert N'.
  set (e := req_email req) in *. set (p := req_phoneNumber req) in *.
  assert (Htruthy : forall v, v <> "" -> truthy (Some v) = true).
  { intros v Hv. cbn. apply negb_true_iff. now apply String.eqb_neq. }
  destruct (rootsOf orderBy s e p) as [|r0 ids0] eqn:E.
  - (* a new primary *)
    intros _. unfold responseOf, afterRequest. rewrite Hrej. fold e p. rewrite E.
    set (n := newRow s now (orNull e) (orNull p) None primary).
    assert (Hn : In n (members (rows (insert s n)) (nextId s))).
    { apply members_In. split; [cbn; apply in_or_app; right; now left|].
      cbn. auto. }
    exists (nextId s), (truthyValues [orNull e]), (truthyValues [orNull p]), [].
    split; [reflexivity|]. split; intros v Ev Hv.
    + rewrite Ev, (orNull_truthy _ (Htruthy v Hv)). split.
      * apply truthyValues_In. split; [assumption | now left].
      * exists n. split; [assumption|]. cbn.
        rewrite Ev. apply orNull_truthy. auto.
    + rewrite Ev, (orNull_truthy _ (Htruthy v Hv)). split.
      * apply truthyValues_In. split; [assumption | now left].
      * exists n. split; [assumption|]. cbn.
        rewrite Ev. apply orNull_truthy. auto.
  - (* an existing root *)
    assert (Hne : rootsOf orderBy s e p <> []) by (rewrite E; discriminate).
    destruct (resolved_root orderBy P s e p D Hne)
      as [s' [root [x [Hres [Hx [Ex [Px [Dx Hc]]]]]]]].
    clear E r0 ids0.
    rewrite (afterRequest_resolved orderBy now req s s' root Hrej Hres).
    assert (Hresp : responseOf orderBy now req s
                    = match composeOutcome root
                              (extendedCluster orderBy now e p root s') with
                      | Threw _ => serverError
                      | Returned r => r
                      end).
    { unfold responseOf. rewrite Hrej. fold e p. rewrite Hres.
      destruct (rootsOf orderBy s e p); [congruence | reflexivity]. }
    rewrite Hresp. intros N'.
    destruct (composed_ok orderBy P now e p root s' x Hx Ex Dx)
      as [prim [emails [phones [secs [Hp [Ep [El Eo]]]]]]].
    rewrite composeLists_spec in El. inversion El; subst emails phones secs.
    rewrite Eo. do 4 eexists. split; [reflexivity|].
    set (final := extendStore orderBy now e p root s') in *.
    assert (Hmem : forall y, In y (extendedCluster orderBy now e p root s') <->
                             In y (members (rows final) root)).
    { intros y. split; apply Permutation_in;
        [|apply Permutation_sym]; apply (extendedCluster_members orderBy P). }
    assert (Hrows : forall y, In y (extendedCluster orderBy now e p root s') ->
                              In y (rows final)).
    { intros y Hy. apply Hmem, members_In in Hy. tauto. }
    pose proof (extends_after_extend orderBy P now e p root s') as K.
    fold final in K. unfold extends in K. apply orb_false_iff in K.
    destruct K as [Ke Kp].
    split; intros v Ev Hv.
    + apply isNew_false in Ke. rewrite Ev in Ke.
      destruct Ke as [T | [y [Ey Hy]]]; [rewrite (Htruthy v Hv) in T; discriminate|].
      injection Ey as <-. apply truthyValues_In in Hy. destruct Hy as [_ Hy].
      apply (known_In orderBy P) in Hy. apply in_map_iff in Hy.
      destruct Hy as [c [Ec Hcm]]. split; [|eauto].
      apply (held_is_listed email (rows final) root prim _ c); auto.
      now apply Hmem.
    + apply isNew_false in Kp. rewrite Ev in Kp.
      destruct Kp as [T | [y [Ey Hy]]]; [rewrite (Htruthy v Hv) in T; discriminate|].
      injection Ey as <-. apply truthyValues_In in Hy. destruct Hy as [_ Hy].
      apply (known_In orderBy P) in Hy. apply in_map_iff in Hy.
      destruct Hy as [c [Ec Hcm]]. split; [|eauto].
      apply (held_is_listed phoneNumber (rows final) root prim _ c); auto.
      now apply Hmem.
Qed.

Lemma request_is_recorded_witness :
  dataModel twoClusters /\ rejected (mkRequest (Some "c@x.com") (Some "333")) = false /\
  exists root emails phones secs,
    snd (handle sortByCreatedAt noFaults 20 (mkRequest (Some "c@x.com") (Some "333"))
           twoClusters)
    = Returned (mkResponse 200 (contactJson root emails phones secs)) /\
    (forall v, Some "c@x.com" = Some v -> v <> "" ->
       In v emails /\
       exists c, In c (members (rows (store (fst (handle sortByCreatedAt noFaults 20
                                 (mkRequest (Some "c@x.com") (Some "333"))
                                 twoClusters)))) root) /\
                 email c = Some v) /\
    (forall v, Some "333" = Some v -> v <> "" ->
       In v phones /\
       exists c, In c (members (rows (store (fst (handle sortByCreatedAt noFaults 20
                                 (mkRequest (Some "c@x.com") (Some "333"))
                                 twoClusters)))) root) /\
                 phoneNumber c = Some v).
Proof.
  split; [exact (proj1 twoClusters_consistent)|]. split; [reflexivity|].
  exact (request_is_recorded sortByCreatedAt (proj1 sortByCreatedAt_asc) 20
           (mkRequest (Some "c@x.com") (Some "333")) twoClusters
           (proj1 twoClusters_consistent) eq_refl).
Defined.

(** ** A root that is soft-deleted *)

Section DeletedRoot.

Variable orderBy : list Contact -> list Contact.
Hypothesis orderBy_perm : forall l, Permutation (orderBy l) l.

(** The resolver and the merger keep the identifier and the deletion mark
    of every row, and hand out no identifier. *)
Lemma resolved_rows : forall s e p s' root,
    resolved orderBy s e p = Some (s', root) ->
    nextId s' = nextId s /\
    forall c', In c' (rows s') ->
               exists c, In c (rows s) /\ id c' = id c /\ deletedAt c' = deletedAt c.
Proof.
  intros s e p s' root Hres. unfold resolved in Hres.
  destruct (rootsOf orderBy s e p) as [|r [|r' ids]]; [discriminate | |].
  - injection Hres as <- <-. split; [reflexivity|]. intros c' Hc'. eauto.
  - destruct (primariesOf orderBy s (r :: r' :: ids)) as [|o others];
      [discriminate|].
    injection Hres as <- <-. split; [reflexivity|].
    intros c' Hc'. rewrite mergeStore_rows in Hc'. apply in_map_iff in Hc'.
    destruct Hc' as [c [<- Hc]]. exists c.
    now rewrite mergeRow_id, mergeRow_deletedAt.
Qed.

Lemma find_nothing : forall (f : Contact -> bool) l,
    (forall c, In c l -> f c = false) -> find f l = None.
Proof.
  intros f l H. destruct (find f l) as [c|] eqn:E; [|reflexivity].
  apply find_some in E. destruct E as [Hc Fc]. rewrite (H c Hc) in Fc.
  discriminate.
Qed.

End DeletedRoot.

(** X9 (the handler of [routes/identify.ts], no store fault).  When the
    root the request resolves to is a soft-deleted row, as for a request
    that matches a secondary left behind by a soft-deleted primary, the
    composer does not find the primary in the cluster, [primary!.email]
    throws and the request is answered with status 500.  The work done
    before stays in the table: the merger's writes, which may have demoted
    primaries under the deleted contact, and the row of the extender. *)
Theorem deleted_root_is_an_error :
  forall orderBy, (forall l, Permutation (orderBy l) l) ->
  forall now req s s' root d,
    wellKeyed s -> rejected req = false ->
    resolved orderBy s (req_email req) (req_phoneNumber req) = Some (s', root) ->
    In d (rows s) -> id d = root -> deletedAt d <> None ->
    snd (handle orderBy noFaults now req s) = Returned serverError /\
    store (fst (handle orderBy noFaults now req s))
    = extendStore orderBy now (req_email req) (req_phoneNumber req) root s'.
Proof.
  intros orderBy P now req s s' root d [N B] Hrej Hres Hd Ed Dd.
  rewrite handle_response, handle_store.
  rewrite (afterRequest_resolved orderBy now req s s' root Hrej Hres).
  split; [|reflexivity].
  set (e := req_email req) in *. set (p := req_phoneNumber req) in *.
  destruct (resolved_rows orderBy s e p s' root Hres) as [En Hrows].
  assert (Hfind : find (fun c => Nat.eqb (id c) root)
                       (extendedCluster orderBy now e p root s') = None).
  { apply find_nothing. intros c Hc. apply Nat.eqb_neq. intros Ec.
    assert (Hcl : forall y, In y (clusterOf orderBy s' root) -> id y <> root).
    { intros y Hy Ey. apply (clusterOf_In orderBy P) in Hy.
      destruct Hy as [Hy [_ Dy]].
      destruct (Hrows y Hy) as [c0 [Hc0 [Ei Edel]]].
      assert (c0 = d) by (apply (unique_id (rows s)); auto; congruence).
      subst c0. congruence. }
    unfold extendedCluster in Hc.
    destruct (extends orderBy s' e p root); [|exact (Hcl c Hc Ec)].
    apply in_app_or in Hc. destruct Hc as [Hc | [<- | []]];
      [exact (Hcl c Hc Ec)|].
    cbn in Ec. specialize (B d Hd). lia. }
  unfold responseOf. rewrite Hrej. fold e p. rewrite Hres.
  unfold composeOutcome. rewrite Hfind.
  destruct (rootsOf orderBy s e p) eqn:Er; [|reflexivity].
  unfold resolved in Hres. rewrite Er in Hres. discriminate.
Qed.

Lemma deleted_root_is_an_error_witness :
  snd (handle sortByCreatedAt noFaults 20
         (mkRequest (Some "b@x.com") (Some "333")) orphanedStore)
  = Returned serverError /\
  store (fst (handle sortByCreatedAt noFaults 20
                (mkRequest (Some "b@x.com") (Some "333")) orphanedStore))
  = extendStore sortByCreatedAt 20 (Some "b@x.com") (Some "333") 1
      (mkStore [mkContact 1 (Some "a@x.com") (Some "111") None primary 10 (Some 15);
                mkContact 2 (Some "b@x.com") (Some "111") (Some 1) secondary 11 None;
                mkContact 3 (Some "c@x.com") (Some "333") (Some 1) secondary 12 None]
               4).
Proof.
  apply (deleted_root_is_an_error sortByCreatedAt (proj1 sortByCreatedAt_asc) 20
           (mkRequest (Some "b@x.com") (Some "333")) orphanedStore _ 1
           (mkContact 1 (Some "a@x.com") (Some "111") None primary 10 (Some 15))).
  - split; [exact NoDup_123|]. intros c H. rows_cases H; cbn; lia.
  - reflexivity.
  - reflexivity.
  - cbn. auto.
  - reflexivity.
  - discriminate.
Defined.

(** ** Orderings that satisfy the same query *)

Lemma NoDup_map_eq : forall (f : Contact -> nat) l a b,
    NoDup (map f l) -> In a l -> In b l -> f a = f b -> a = b.
Proof.
  intros f. induction l as [|h t IH]; intros a b N Ha Hb E; [destruct Ha|].
  cbn in N. inversion N as [|? ? Hh Ht]; subst.
  destruct Ha as [-> | Ha], Hb as [-> | Hb].
  - reflexivity.
  - exfalso. apply Hh. rewrite E. now apply in_map.
  - exfalso. apply Hh. rewrite <- E. now apply in_map.
  - now apply IH.
Qed.

Lemma NoDup_map_filter_by : forall (f : Contact -> nat) (w : Contact -> bool) l,
    NoDup (map f l) -> NoDup (map f (filter w l)).
Proof.
  intros f w. induction l as [|h t IH]; intros N; [constructor|].
  cbn in N. inversion N as [|? ? Hh Ht]; subst. cbn.
  destruct (w h); [|now apply IH].
  cbn. constructor; [|now apply IH].
  intros Hin. apply Hh. apply in_map_iff in Hin. destruct Hin as [x [Ex Hx]].
  apply filter_In in Hx. rewrite <- Ex. apply in_map. tauto.
Qed.

(** Rows with distinct creation times have one ascending arrangement. *)
Lemma sorted_unique : forall l1 l2 : list Contact,
    Permutation l1 l2 -> NoDup (map createdAt l1) ->
    StronglySorted (fun a b => createdAt a <= createdAt b) l1 ->
    StronglySorted (fun a b => createdAt a <= createdAt b) l2 ->
    l1 = l2.
Proof.
  induction l1 as [|a t1 IH]; intros l2 HP N S1 S2.
  - apply Permutation_nil in HP. now subst.
  - destruct l2 as [|b t2];
      [apply Permutation_sym, Permutation_nil in HP; discriminate|].
    inversion S1 as [|? ? S1' F1]; inversion S2 as [|? ? S2' F2]; subst.
    assert (Eab : a = b).
    { assert (Ha : In a (b :: t2))
        by (eapply Permutation_in; [exact HP | now left]).
      assert (Hb : In b (a :: t1))
        by (eapply Permutation_in; [apply Permutation_sym; exact HP | now left]).
      destruct Ha as [Ha | Ha]; [now symmetry|].
      destruct Hb as [Hb | Hb]; [assumption|].
      rewrite Forall_forall in F1, F2.
      pose proof (F1 b Hb). pose proof (F2 a Ha).
      apply (NoDup_map_eq createdAt (a :: t1)); [assumption | now left | now right | lia]. }
    subst b. f_equal. apply IH.
    + eapply Permutation_cons_inv; eauto.
    + cbn in N. now inversion N.
    + assumption.
    + assumption.
Qed.

Lemma grows_zero_times : forall s s',
    grows 0 s s' -> map createdAt (rows s') = map createdAt (rows s).
Proof.
  intros s s' [kept [added [E [F [L _]]]]].
  destruct added; [|cbn in L; lia]. rewrite app_nil_r in E. rewrite E.
  clear E L. induction F as [|a b l1 l2 [_ [_ [_ [T _]]]] F IH]; [reflexivity|].
  cbn. now rewrite IH, T.
Qed.

Section Orderings.

Variables orderBy1 orderBy2 : list Contact -> list Contact.
Hypothesis asc1 : createdAtAsc orderBy1.
Hypothesis asc2 : createdAtAsc orderBy2.

Lemma orderings_agree : forall (wh : Contact -> bool) l,
    NoDup (map createdAt l) -> orderBy1 (filter wh l) = orderBy2 (filter wh l).
Proof.
  intros wh l N. destruct asc1 as [P1 S1], asc2 as [P2 S2].
  apply sorted_unique; [| |apply S1 | apply S2].
  - eapply Permutation_trans; [apply P1 | apply Permutation_sym, P2].
  - eapply Permutation_NoDup.
    + apply Permutation_map, Permutation_sym, P1.
    + now apply NoDup_map_filter_by.
Qed.

Lemma findMany_agree : forall wh fl w,
    NoDup (map createdAt (rows (store w))) ->
    findMany orderBy1 wh fl w = findMany orderBy2 wh fl w.
Proof.
  intros wh fl w N. unfold findMany, dbCall.
  now rewrite (orderings_agree wh _ N).
Qed.

Lemma bind_agree : forall A B (m1 m2 : M A) (k1 k2 : A -> M B) fl w,
    m1 fl w = m2 fl w ->
    (forall w' a, m1 fl w = (w', Returned a) -> k1 a fl w' = k2 a fl w') ->
    bind m1 k1 fl w = bind m2 k2 fl w.
Proof.
  intros A B m1 m2 k1 k2 fl w Em Ek. unfold bind. rewrite <- Em.
  destruct (m1 fl w) as [w' [e|a]]; [reflexivity | now apply Ek].
Qed.

Lemma resolveRoot_agree : forall atomically ids fl w,
    NoDup (map createdAt (rows (store w))) ->
    resolveRoot orderBy1 atomically ids fl w
    = resolveRoot orderBy2 atomically ids fl w.
Proof.
  intros atomically ids fl w N. unfold resolveRoot.
  destruct (1 <? List.length ids); [|reflexivity].
  apply bind_agree; [now apply findMany_agree | reflexivity].
Qed.

Lemma extend_agree : forall now e p r fl w,
    NoDup (map createdAt (rows (store w))) ->
    extend orderBy1 now e p r fl w = extend orderBy2 now e p r fl w.
Proof.
  intros now e p r fl w N. unfold extend.
  apply bind_agree; [now apply findMany_agree | reflexivity].
Qed.

Lemma reconcile_agree : forall atomically now e p fl w,
    (forall m : M unit, keeps grows 0 m -> keeps grows 0 (atomically m)) ->
    NoDup (map createdAt (rows (store w))) ->
    reconcile orderBy1 atomically now e p fl w
    = reconcile orderBy2 atomically now e p fl w.
Proof.
  intros atomically now e p fl w Ha N. unfold reconcile.
  apply bind_agree; [now apply findMany_agree|]. intros w1 mc E1.
  assert (N1 : NoDup (map createdAt (rows (store w1)))).
  { pose proof (findMany_store orderBy1 (matchWhere (conditionsOf e p)) fl w)
      as [Hs _].
    rewrite E1 in Hs. cbn in Hs. now rewrite Hs. }
  destruct (List.length (collectPrimaryIds mc) =? 0); [reflexivity|].
  apply bind_agree; [now apply resolveRoot_agree|]. intros w2 root E2.
  assert (N2 : NoDup (map createdAt (rows (store w2)))).
  { rewrite (grows_zero_times (store w1) (store w2)); [assumption|].
    exact (keeps_resolveRoot grows grows_refl grows_trans grows_mono orderBy1
             grows_update atomically _ Ha fl _ _ _ E2). }
  apply bind_agree; [now apply extend_agree | reflexivity].
Qed.

End Orderings.

(** X10 (both revisions of the handler, under every fault schedule).  The
    ordering of the three queries matters among equal creation times only:
    on a table whose rows have pairwise different [createdAt], any two
    orderings that satisfy [orderBy: { createdAt: "asc" }] give the same
    run, with the same store calls, the same table and the same response. *)
Theorem ordering_is_immaterial :
  forall orderBy1 orderBy2, createdAtAsc orderBy1 -> createdAtAsc orderBy2 ->
  forall fl now req s,
    NoDup (map createdAt (rows s)) ->
    handle orderBy1 fl now req s = handle orderBy2 fl now req s /\
    run (identifyTx orderBy1 now (req_email req) (req_phoneNumber req)) fl s
    = run (identifyTx orderBy2 now (req_email req) (req_phoneNumber req)) fl s.
Proof.
  intros orderBy1 orderBy2 A1 A2 fl now req s N. split.
  - unfold handle, run, identify, tryCatch.
    destruct (negb _ && negb _); [reflexivity|].
    rewrite (reconcile_agree orderBy1 orderBy2 A1 A2 plain now (req_email req)
               (req_phoneNumber req) fl (mkWorld s [])); [reflexivity | | exact N].
    intros m K. exact K.
  - unfold run, identifyTx.
    apply (reconcile_agree orderBy1 orderBy2 A1 A2); [|exact N].
    intros m K. now apply (keeps_transaction grows grows_refl grows_mono).
Qed.

Lemma ordering_is_immaterial_witness :
  NoDup (map createdAt (rows twoClusters)) /\
  handle sortByCreatedAt (failAt 4) 20 bridgeRequest twoClusters
  = handle sortByCreatedAtIdDesc (failAt 4) 20 bridgeRequest twoClusters.
Proof.
  assert (N : NoDup (map createdAt (rows twoClusters))).
  { cbn. repeat constructor; cbn; intuition lia. }
  split; [exact N|].
  exact (proj1 (ordering_is_immaterial sortByCreatedAt sortByCreatedAtIdDesc
                  sortByCreatedAt_asc sortByCreatedAtIdDesc_asc (failAt 4) 20
                  bridgeRequest twoClusters N)).
Defined.

(** ** What a merge does to the clusters *)

(** X11 (the handler of [routes/identify.ts], no store fault; the merger,
    lines 89-117).  A request with two roots or more unites their clusters:
    every row whose root was one of the request's roots has the survivor as
    its root afterwards, the survivor is the primary the response names, and
    every row of another cluster is left as it was. *)
Theorem merge_unites_clusters :
  forall orderBy, (forall l, Permutation (orderBy l) l) ->
  forall now req s,
    dataModel s -> rejected req = false ->
    1 < List.length (rootsOf orderBy s (req_email req) (req_phoneNumber req)) ->
    exists root r,
      snd (handle orderBy noFaults now req s) = Returned r /\
      contactField "primaryContatctId" r = Some (JNum root) /\
      In root (rootsOf orderBy s (req_email req) (req_phoneNumber req)) /\
      forall c, In c (rows s) ->
        exists c',
          In c' (rows (store (fst (handle orderBy noFaults now req s)))) /\
          id c' = id c /\
          (forall x, rootOf c = Some x ->
                     In x (rootsOf orderBy s (req_email req) (req_phoneNumber req)) ->
                     rootOf c' = Some root) /\
          (forall x, rootOf c = Some x ->
                     ~ In x (rootsOf orderBy s (req_email req) (req_phoneNumber req)) ->
                     c' = c).
Proof.
  intros orderBy P now req s D Hrej Hlen.
  set (e := req_email req) in *. set (p := req_phoneNumber req) in *.
  destruct (merge_resolved orderBy P s e p D Hlen)
    as [o [others [Ep [Er [Do Ko]]]]].
  pose proof D as [W H].
  destruct (survivor_facts orderBy P s e p o others W (hierarchy_linked _ H) Ep)
    as [Ho [Po [Hr [Hn [Hdem Hall]]]]].
  assert (Hprim : forall x, In x (rows s) -> In (id x) (map id others) ->
                            linkPrecedence x = primary).
  { intros x Hx Hi. now apply Hdem. }
  assert (Hothers : forall y, In y others -> In (id y) (rootsOf orderBy s e p)).
  { intros y Hy.
    assert (Hy' : In y (primariesOf orderBy s (rootsOf orderBy s e p)))
      by (rewrite Ep; now right).
    apply (primariesOf_In orderBy P) in Hy'. tauto. }
  rewrite handle_response, handle_store.
  rewrite (afterRequest_resolved orderBy now req s _ _ Hrej Er).
  set (s' := mergeStore (id o) (map id others) s) in *.
  assert (Ho' : In o (rows s')).
  { unfold s'. rewrite mergeStore_rows. apply in_map_iff. exists o. auto. }
  destruct (composed_ok orderBy P now e p (id o) s' o Ho' eq_refl Do)
    as [prim [emails [phones [secs [_ [_ [_ Eo]]]]]]].
  exists (id o), (mkResponse 200 (contactJson (id o) emails phones secs)).
  split; [|split; [reflexivity | split; [assumption|]]].
  - unfold responseOf. rewrite Hrej. fold e p. rewrite Er, Eo.
    destruct (rootsOf orderBy s e p); [cbn in Hlen; lia | reflexivity].
  - intros c Hc. exists (mergeRow (id o) (map id others) c).
    split; [|split; [apply mergeRow_id | split]].
    + apply extendStore_incl. unfold s'. rewrite mergeStore_rows.
      now apply in_map.
    + intros x Ex Hx.
      rewrite (rootOf_mergeRow (rows s) _ _ c H Hc Hprim), Ex. cbn. f_equal.
      unfold mergedRoot. destruct (Hall x Hx) as [-> | Hin].
      * apply memId_false in Hn. now rewrite Hn.
      * apply memId_In in Hin. now rewrite Hin.
    + intros x Ex Hnx. apply mergeRow_untouched.
      * intros Hi. destruct (Hdem c Hc Hi) as [Pc Hco].
        unfold rootOf in Ex. rewrite Pc in Ex. injection Ex as <-.
        apply Hnx. now apply Hothers.
      * destruct (linkedIdIn (map id others) c) eqn:L; [|reflexivity].
        exfalso. apply linkedIdIn_spec in L. destruct L as [l [El Hl]].
        specialize (H c Hc). unfold rootOf in Ex.
        destruct (linkPrecedence c); [congruence|].
        rewrite El in Ex. injection Ex as <-.
        apply in_map_iff in Hl. destruct Hl as [y [Ey Hy]].
        apply Hnx. rewrite <- Ey. now apply Hothers.
Qed.

Lemma merge_unites_clusters_witness :
  dataModel twoClusters /\ rejected bridgeRequest = false /\
  exists root r,
    snd (handle sortByCreatedAt noFaults 20 bridgeRequest twoClusters)
    = Returned r /\
    contactField "primaryContatctId" r = Some (JNum root) /\
    In root (rootsOf sortByCreatedAt twoClusters (req_email bridgeRequest)
               (req_phoneNumber bridgeRequest)) /\
    forall c, In c (rows twoClusters) ->
      exists c',
        In c' (rows (store (fst (handle sortByCreatedAt noFaults 20
                                   bridgeRequest twoClusters)))) /\
        id c' = id c /\
        (forall x, rootOf c = Some x ->
                   In x (rootsOf sortByCreatedAt twoClusters
                           (req_email bridgeRequest)
                           (req_phoneNumber bridgeRequest)) ->
                   rootOf c' = Some root) /\
        (forall x, rootOf c = Some x ->
                   ~ In x (rootsOf sortByCreatedAt twoClusters
                             (req_email bridgeRequest)
                             (req_phoneNumber bridgeRequest)) ->
                   c' = c).
Proof.
  split; [exact (proj1 twoClusters_consistent)|]. split; [reflexivity|].
  apply (merge_unites_clusters sortByCreatedAt (proj1 sortByCreatedAt_asc) 20
           bridgeRequest twoClusters (proj1 twoClusters_consistent) eq_refl).
  vm_compute. lia.
Defined.

(** ** Counting primaries *)

Lemma filter_split_length : forall (f g : Contact -> bool) l,
    List.length (filter f l)
    = List.length (filter (fun c => f c && negb (g c)) l)
      + List.length (filter (fun c => f c && g c) l).
Proof.
  intros f g. induction l as [|h t IH]; [reflexivity|].
  cbn. destruct (f h), (g h); cbn; lia.
Qed.

(** The merger turns into secondaries the primaries it selects by [id], and
    no other row changes its [linkPrecedence]. *)
Lemma isPrimary_mergeRow : forall root others c,
    isPrimary (mergeRow root others c) = isPrimary c && negb (idIn others c).
Proof.
  intros root others c. unfold mergeRow.
  destruct (idIn others c).
  - rewrite andb_false_r.
    destruct (linkedIdIn others (demote root c)); reflexivity.
  - rewrite andb_true_r. destruct (linkedIdIn others c); reflexivity.
Qed.

Lemma primaries_after_merge : forall root others l,
    List.length (filter isPrimary (map (mergeRow root others) l))
    = List.length (filter (fun c => isPrimary c && negb (idIn others c)) l).
Proof.
  intros root others. induction l as [|h t IH]; [reflexivity|].
  cbn. rewrite isPrimary_mergeRow.
  destruct (isPrimary h && negb (idIn others h)); cbn; now rewrite IH.
Qed.

Section Counting.

Variable orderBy : list Contact -> list Contact.
Hypothesis orderBy_perm : forall l, Permutation (orderBy l) l.

(** The extender adds no primary. *)
Lemma primaries_after_extend : forall now e p r s,
    List.length (filter isPrimary (rows (extendStore orderBy now e p r s)))
    = List.length (filter isPrimary (rows s)).
Proof.
  intros now e p r s. unfold extendStore.
  destruct (extends orderBy s e p r); [|reflexivity].
  cbn [rows insert]. rewrite filter_app, length_app. cbn. lia.
Qed.

(** The merger fetches one row for each root. *)
Lemma one_row_per_root : forall s e p,
    wellKeyed s -> linkedToPrimary (rows s) ->
    List.length (primariesOf orderBy s (rootsOf orderBy s e p))
    = List.length (rootsOf orderBy s e p).
Proof.
  intros s e p [N B] L.
  rewrite <- (length_map id (primariesOf orderBy s (rootsOf orderBy s e p))).
  apply Permutation_length. apply NoDup_Permutation.
  - now apply primariesOf_NoDup.
  - apply collectPrimaryIds_NoDup.
  - intros x. rewrite in_map_iff. split.
    + intros [c [<- Hc]]. apply (primariesOf_In orderBy orderBy_perm) in Hc. tauto.
    + intros Hx.
      destruct (roots_are_primaries orderBy orderBy_perm s e p x L Hx)
        as [y [Hy [Ey _]]].
      exists y. split; [assumption|].
      apply (primariesOf_In orderBy orderBy_perm). split; [assumption|].
      now rewrite Ey.
Qed.

(** The rows the merger demotes are the fetched primaries but the first. *)
Lemma demoted_rows : forall s e p o others,
    wellKeyed s -> linkedToPrimary (rows s) ->
    primariesOf orderBy s (rootsOf orderBy s e p) = o :: others ->
    List.length (filter (fun c => isPrimary c && idIn (map id others) c) (rows s))
    = List.length others.
Proof.
  intros s e p o others W L Ep.
  destruct (survivor_facts orderBy orderBy_perm s e p o others W L Ep)
    as [_ [_ [_ [_ [Hdem _]]]]].
  pose proof W as [N _].
  pose proof (primariesOf_NoDup orderBy orderBy_perm s (rootsOf orderBy s e p) N) as ND.
  rewrite Ep in ND. cbn in ND. apply NoDup_cons_iff in ND. destruct ND as [_ ND].
  apply Permutation_length. apply NoDup_Permutation.
  - apply NoDup_filter. eapply NoDup_map_inv. exact N.
  - eapply NoDup_map_inv. exact ND.
  - intros c. rewrite filter_In, andb_true_iff, idIn_spec. split.
    + intros [Hc [_ Hi]]. now apply (Hdem c Hc Hi).
    + intros Hc.
      assert (Hc' : In c (primariesOf orderBy s (rootsOf orderBy s e p)))
        by (rewrite Ep; now right).
      apply (primariesOf_In orderBy orderBy_perm) in Hc'. destruct Hc' as [Hr _].
      assert (Hi : In (id c) (map id others)) by now apply in_map.
      split; [assumption|]. split; [|assumption].
      apply isPrimary_true. now apply (Hdem c Hr Hi).
Qed.

End Counting.

(** X12 (the handler of [routes/identify.ts], no store fault).  A request
    changes the number of primaries by one minus the number of its roots:
    with no root a primary is created, with one root the number stays, and
    a merge of [n] roots demotes [n - 1] primaries.  Scenario 2 never
    creates a primary. *)
Theorem primaries_after_request :
  forall orderBy, (forall l, Permutation (orderBy l) l) ->
  forall now req s,
    dataModel s -> rejected req = false ->
    List.length (filter isPrimary
                   (rows (store (fst (handle orderBy noFaults now req s)))))
    + List.length (rootsOf orderBy s (req_email req) (req_phoneNumber req))
    = List.length (filter isPrimary (rows s)) + 1.
Proof.
  intros orderBy P now req s D Hrej. pose proof D as [W H].
  rewrite handle_store.
  set (e := req_email req) in *. set (p := req_phoneNumber req) in *.
  destruct (rootsOf orderBy s e p) as [|r [|r' ids]] eqn:E.
  - unfold afterRequest. rewrite Hrej. fold e p. rewrite E.
    cbn [rows insert]. rewrite filter_app, length_app. cbn. lia.
  - unfold afterRequest, resolved. rewrite Hrej. fold e p. rewrite E.
    rewrite primaries_after_extend. cbn. lia.
  - assert (Hlen : 1 < List.length (rootsOf orderBy s e p))
      by (rewrite E; cbn; lia).
    destruct (merge_resolved orderBy P s e p D Hlen)
      as [o [others [Ep [Er _]]]].
    rewrite (afterRequest_resolved orderBy now req s _ _ Hrej Er).
    rewrite primaries_after_extend, mergeStore_rows, primaries_after_merge.
    pose proof (one_row_per_root orderBy P s e p W (hierarchy_linked _ H)) as L1.
    rewrite Ep in L1. cbn [List.length] in L1.
    pose proof (demoted_rows orderBy P s e p o others W (hierarchy_linked _ H) Ep)
      as L2.
    rewrite (filter_split_length isPrimary (idIn (map id others)) (rows s)).
    rewrite <- E. lia.
Qed.

Lemma primaries_after_request_witness :
  dataModel twoClusters /\ rejected bridgeRequest = false /\
  List.length (filter isPrimary
                 (rows (store (fst (handle sortByCreatedAt noFaults 20
                                      bridgeRequest twoClusters)))))
  + List.length (rootsOf sortByCreatedAt twoClusters (req_email bridgeRequest)
                   (req_phoneNumber bridgeRequest))
  = List.length (filter isPrimary (rows twoClusters)) + 1.
Proof.
  split; [exact (proj1 twoClusters_consistent)|]. split; [reflexivity|].
  exact (primaries_after_request sortByCreatedAt (proj1 sortByCreatedAt_asc) 20
           bridgeRequest twoClusters (proj1 twoClusters_consistent) eq_refl).
Defined.

(** ** The labels of the error-handling middleware *)

Lemma index_text : forall i,
    stepText (Index i) <> "" /\ stepText (Index i) <> "(root)".
Proof.
  intros i. cbn.
  assert (Hn : Nat.to_uint i <> Decimal.Nil).
  { intros E. pose proof (f_equal Nat.of_uint E) as E'.
    rewrite DecimalNat.Unsigned.of_to in E'. cbn in E'. subst i.
    discriminate. }
  destruct (Nat.to_uint i); [contradiction | ..]; cbn; split; discriminate.
Qed.

Lemma dotted_nonempty : forall (a r : string), (a ++ "." ++ r)%string <> "".
Proof. intros [|c a] r; discriminate. Qed.

Lemma dotted_not_root : forall (a r : string), (a ++ "." ++ r)%string <> "(root)".
Proof.
  intros a r H.
  do 6 (destruct a as [|? a]; cbn in H; [discriminate|];
        injection H as _ H).
  destruct a; discriminate.
Qed.

Lemma joinPath_cons2 : forall a b t,
    joinPath (a :: b :: t) = (stepText a ++ "." ++ joinPath (b :: t))%string.
Proof. reflexivity. Qed.

Lemma joinPath_empty : forall p,
    joinPath p = "" <-> p = [] \/ p = [Key ""].
Proof.
  intros [|a [|b t]].
  - split; auto.
  - unfold joinPath. cbn. split.
    + intros E. right. destruct a as [k|i]; [cbn in E; now subst|].
      destruct (index_text i) as [Hi _]. contradiction.
    + intros [E | E]; [discriminate | now inversion E].
  - rewrite joinPath_cons2. split.
    + intros E. now apply dotted_nonempty in E.
    + intros [E | E]; discriminate.
Qed.

Lemma joinPath_root : forall p,
    joinPath p = "(root)" <-> p = [Key "(root)"].
Proof.
  intros [|a [|b t]].
  - split; discriminate.
  - unfold joinPath. cbn. split.
    + intros E. destruct a as [k|i]; [cbn in E; now subst|].
      destruct (index_text i) as [_ Hi]. contradiction.
    + intros E. now inversion E.
  - rewrite joinPath_cons2. split.
    + intros E. now apply dotted_not_root in E.
    + discriminate.
Qed.

Lemma pathLabel_spec : forall p,
    pathLabel p <> "" /\
    (pathLabel p = "(root)" <->
     p = [] \/ p = [Key ""] \/ p = [Key "(root)"]) /\
    (pathLabel p <> "(root)" -> pathLabel p = joinPath p).
Proof.
  intros p. unfold pathLabel.
  destruct (String.eqb_spec (joinPath p) "") as [E | E].
  - split; [discriminate|]. split; [|congruence].
    apply joinPath_empty in E. split; [tauto | reflexivity].
  - split; [assumption|]. split; [|reflexivity].
    rewrite joinPath_root. split; [auto|].
    intros [-> | [-> | ->]]; [| |reflexivity]; exfalso; apply E; reflexivity.
Qed.

(** X13 ([errorHandler] of the middleware module).  Any error but a
    [ZodError] is answered with status 500 and the body the [catch] of
    [routes/identify.ts] sends.  A [ZodError] is answered with status 400
    and one detail for each issue, in the order of the issues, with the
    message of the issue; the label of the path is never empty, it is the
    joined path unless it is ["(root)"], and it is ["(root)"] for exactly
    three paths: the empty path, the path of the one key [""] and the path
    of the one key ["(root)"]. *)
Theorem errorHandler_answers : forall err,
    match err with
    | Other _ => errorHandler err = serverError
    | ZodError issues =>
        status (errorHandler err) = 400 /\
        exists details,
          field "details" (body (errorHandler err)) = Some (JArr details) /\
          List.length details = List.length issues /\
          forall k issue, nth_error issues k = Some issue ->
            exists label,
              nth_error details k
              = Some (JObj [("path", JStr label);
                            ("message", JStr (message issue))]) /\
              label <> "" /\
              (label = "(root)" <->
               path issue = [] \/ path issue = [Key ""] \/
               path issue = [Key "(root)"]) /\
              (label <> "(root)" -> label = joinPath (path issue))
    end.
Proof.
  intros [issues | e]; [|reflexivity].
  split; [reflexivity|]. exists (map issueJson issues).
  split; [reflexivity|]. split; [apply length_map|].
  intros k issue Hk. exists (pathLabel (path issue)).
  split; [|apply pathLabel_spec].
  rewrite nth_error_map, Hk. reflexivity.
Qed.
